(** * SuperTracery: the deterministic tracking pipeline

    A shallow embedding of [tracker.py], [supertracery.py] and
    [preview_server.py], and the properties of the pipeline proved over it.

    Conventions of the embedding.
    - A Python [float] is an exact rational ([Q]); [round(x, k)] rounds the
      exact value half-to-even and returns it in lowest terms, so rounded
      values can be compared with [=]. The interpreter rounds the binary
      float instead, which on an exact decimal tie can fall on either side:
      the two agree except in the last digit of such a tie, and the bounds
      and the orders proved below hold whichever way a tie goes.
    - A Python list indexed by position is a [list] with stdpp's lookup [!!];
      an access the interpreter would refuse raises [IndexError] in the
      [result] monad below.
    - A dict keyed by object id is an association list in insertion order.
    - [None] is [option]'s [None]: an absent mask is [None], an unreadable
      frame is what [cv2.imread] returns for it, [None]. *)

From Stdlib Require Import ZArith QArith Qround Qminmax Qpower Lia String Ascii.
From stdpp Require Import base list sorting.

Local Open Scope Z_scope.

(** ** Numbers *)

(** [round_half_even q]: the integer nearest to [q], ties to the even one. *)
Definition round_half_even (q : Q) : Z :=
  let f := Qfloor q in
  match Qcompare (q - inject_Z f) (1 # 2) with
  | Lt => f
  | Gt => f + 1
  | Eq => if Z.even f then f else f + 1
  end.

(** [py_round x k] is Python's [round(x, k)]. *)
Definition py_round (x : Q) (ndigits : nat) : Q :=
  let s := inject_Z (10 ^ Z.of_nat ndigits) in
  Qred (inject_Z (round_half_even (x * s)) / s).

(** A two-element list of floats, [[x, y]]. *)
Definition vec2 : Type := (Q * Q)%type.

Definition point : Type := (Z * Z)%type.

(** ** Per-frame entries *)

(** The dict of one frame of one object, as [run_segment_and_track] stores it
    in [obj_data["frames"]]. *)
Record frame_data : Type := mk_frame_data {
  frame_index : nat;
  time : Q;
  centroid : vec2;
  bbox : Z * Z * Z * Z;
  polygon : list point;
  area : Z;
  avg_luma : Q;
  motion_vector : vec2;
  confidence : Q
}.

(** [d["motion_vector"] = mv] *)
Definition set_motion_vector (mv : vec2) (d : frame_data) : frame_data :=
  {| frame_index := frame_index d;
     time := time d;
     centroid := centroid d;
     bbox := bbox d;
     polygon := polygon d;
     area := area d;
     avg_luma := avg_luma d;
     motion_vector := mv;
     confidence := confidence d |}.

(** Two entries that agree on every key other than [motion_vector]. *)
Definition same_but_motion (a b : frame_data) : Prop :=
  frame_index a = frame_index b /\ time a = time b /\
  centroid a = centroid b /\ bbox a = bbox b /\ polygon a = polygon b /\
  area a = area b /\ avg_luma a = avg_luma b /\ confidence a = confidence b.

(** ** tracker.smooth_motion_vectors *)

(** [range(start, stop)] for [0 <= start]. *)
Definition py_range (start stop : Z) : list nat :=
  seq (Z.to_nat start) (Z.to_nat stop - Z.to_nat start).

(** One turn of the inner loop: [vx_sum += ...; vy_sum += ...; count += 1]. *)
Definition window_acc (frames_data : list frame_data)
    (acc : Q * Q * Z) (j : nat) : Q * Q * Z :=
  let '(vx_sum, vy_sum, count) := acc in
  match frames_data !! j with
  | Some d => ((vx_sum + fst (motion_vector d))%Q,
               (vy_sum + snd (motion_vector d))%Q,
               count + 1)
  | None => acc
  end.

(** The sums over [range(start, end)], read from the list as it stands. *)
Definition window_sums (frames_data : list frame_data) (start stop : Z)
    : Q * Q * Z :=
  fold_left (window_acc frames_data) (py_range start stop) (0%Q, 0%Q, 0).

(** One turn of the outer loop, at index [i]: the entry at [i] of the very
    list being read is overwritten. *)
Definition smooth_at (n half : Z) (frames_data : list frame_data) (i : nat)
    : list frame_data :=
  let start := Z.max 0 (Z.of_nat i - half) in
  let stop := Z.min n (Z.of_nat i + half + 1) in
  let '(vx_sum, vy_sum, count) := window_sums frames_data start stop in
  if 0 <? count then
    alter (set_motion_vector
             (py_round (vx_sum / inject_Z count) 2,
              py_round (vy_sum / inject_Z count) 2)) i frames_data
  else frames_data.

Definition smooth_motion_vectors (frames_data : list frame_data) (window : Z)
    : list frame_data :=
  let n := Z.of_nat (length frames_data) in
  if n <? window then frames_data
  else
    let half := window / 2 in
    fold_left (smooth_at n half) (seq 0 (length frames_data)) frames_data.

(** ** Exceptions *)

(** The exceptions the modelled code can raise. [CvError] is what OpenCV
    raises when it is handed [None] for an image. *)
Inductive exn : Type := IndexError | KeyError | CvError.

Inductive result (A : Type) : Type :=
| Ok (a : A)
| Raise (e : exn).
Arguments Ok {A} a.
Arguments Raise {A} e.

Definition bind {A B : Type} (m : result A) (k : A -> result B) : result B :=
  match m with
  | Ok a => k a
  | Raise e => Raise e
  end.

Notation "x <- m ;; k" := (bind m (fun x => k))
  (at level 100, m at next level, right associativity,
   format "x  <-  m  ;;  '/' k").

(** [l[i]] *)
Definition getitem {A : Type} (l : list A) (i : nat) : result A :=
  match l !! i with
  | Some a => Ok a
  | None => Raise IndexError
  end.

(** [l[i] = v] *)
Definition setitem {A : Type} (l : list A) (i : nat) (v : A)
    : result (list A) :=
  if decide (i < length l)%nat then Ok (<[i := v]> l) else Raise IndexError.

(** A loop whose body may raise: [for x in xs: st = body(st, x)]. *)
Fixpoint for_each {St X : Type} (body : St -> X -> result St)
    (xs : list X) (st : St) : result St :=
  match xs with
  | [] => Ok st
  | x :: xs' => st' <- body st x ;; for_each body xs' st'
  end.

(** [[f(x) for x in xs]] for an [f] that may raise. *)
Fixpoint map_result {X Y : Type} (f : X -> result Y) (xs : list X)
    : result (list Y) :=
  match xs with
  | [] => Ok []
  | x :: xs' => y <- f x ;; ys <- map_result f xs' ;; Ok (y :: ys)
  end.

(** ** Arrays *)

(** A two-dimensional numpy array: its [shape] [(h, w)] and its rows. *)
Record ndarray (A : Type) : Type := mk_ndarray {
  shape : nat * nat;
  rows : list (list A)
}.
Arguments mk_ndarray {A} shape rows.
Arguments shape {A} n.
Arguments rows {A} n.

(** A mask: a [uint8] array, nonzero where the object is. *)
Definition Mask : Type := ndarray Z.

(** A colour pixel, [(b, g, r)], and a colour frame. *)
Definition bgr : Type := (Z * Z * Z)%type.
Definition Image : Type := ndarray bgr.

(** [np.zeros((h, w), dtype=np.uint8)] *)
Definition np_zeros (h w : nat) : Mask :=
  mk_ndarray (h, w) (replicate h (replicate w 0)).

(** Every element with its column [x] and row [y], in row-major order. *)
Definition pixels {A : Type} (a : ndarray A) : list (nat * nat * A) :=
  concat (imap (fun y row => imap (fun x v => (x, y, v)) row) (rows a)).

Definition sum_Z (l : list Z) : Z := foldr Z.add 0 l.

(** [cv2.moments(mask)]: the raw moments [m00], [m10], [m01], weighted by the
    pixel values. *)
Record Moments : Type := mk_moments { m00 : Z; m10 : Z; m01 : Z }.

Definition moments (mask : Mask) : Moments :=
  let ps := pixels mask in
  {| m00 := sum_Z (map (fun p => p.2) ps);
     m10 := sum_Z (map (fun p => Z.of_nat p.1.1 * p.2) ps);
     m01 := sum_Z (map (fun p => Z.of_nat p.1.2 * p.2) ps) |}.

(** [cv2.findNonZero(mask)]: the [(x, y)] of the nonzero pixels, [None] when
    there is none. *)
Definition findNonZero (mask : Mask) : option (list (nat * nat)) :=
  match filter (fun p => p.2 <> 0) (pixels mask) with
  | [] => None
  | ps => Some (map fst ps)
  end.

Definition min_list (d : nat) (l : list nat) : nat := foldr Nat.min d l.
Definition max_list (l : list nat) : nat := foldr Nat.max 0%nat l.

(** [cv2.boundingRect(coords)]: [(x, y, w, h)] of the tight upright box. *)
Definition boundingRect (coords : list (nat * nat)) : Z * Z * Z * Z :=
  let xs := map fst coords in
  let ys := map snd coords in
  let x1 := min_list (max_list xs) xs in
  let y1 := min_list (max_list ys) ys in
  (Z.of_nat x1, Z.of_nat y1,
   Z.of_nat (max_list xs - x1 + 1), Z.of_nat (max_list ys - y1 + 1)).

(** [int(np.sum(mask > 0))] *)
Definition count_positive (mask : Mask) : Z :=
  Z.of_nat (length (filter (fun p => 0 < p.2) (pixels mask))).

(** [gray[mask > 0]]: the values of [gray] where [mask] is positive; numpy
    refuses a boolean index of another shape. *)
Definition bool_index (gray : ndarray Z) (mask : Mask) : result (list Z) :=
  if decide (shape gray = shape mask) then
    Ok (map (fun gm => gm.1.2)
          (filter (fun gm => 0 < gm.2.2) (zip (pixels gray) (pixels mask))))
  else Raise IndexError.

(** ** The OpenCV operations the pipeline is written against *)

(** A contour as [cv2.findContours] returns it: at least one vertex. *)
Definition contour : Type := (point * list point)%type.

Definition vertices (c : contour) : list point := c.1 :: c.2.

Class Cv2 : Type := {
  (** [cv2.findContours(mask, RETR_EXTERNAL, CHAIN_APPROX_SIMPLE)[0]] *)
  findContours : Mask -> list contour;
  (** [cv2.contourArea] *)
  contourArea : contour -> Q;
  (** [cv2.approxPolyDP(contour, epsilon, True)] *)
  approxPolyDP : contour -> Q -> contour;
  (** one pixel of [cv2.cvtColor(image, cv2.COLOR_BGR2GRAY)] *)
  luma : bgr -> Z;
  (** a dense displacement field *)
  Flow : Type;
  (** [cv2.calcOpticalFlowFarneback(prev, curr, None, 0.5, 3, 15, 3, 5, 1.2, 0)] *)
  calcOpticalFlowFarneback : ndarray Z -> ndarray Z -> Flow;
  (** [(cv2.remap(mask.astype(np.float32), grid_x + flow[:, :, 0],
      grid_y + flow[:, :, 1], INTER_LINEAR, BORDER_CONSTANT, 0) > 0.5)
      .astype(np.uint8)] *)
  warp_mask : Flow -> Mask -> Mask
}.

(** [cv2.cvtColor(image, cv2.COLOR_BGR2GRAY)]; OpenCV raises on [None]. *)
Definition cvtColor_gray {cv : Cv2} (image : option Image) : result (ndarray Z) :=
  match image with
  | Some img => Ok (mk_ndarray (shape img) (map (map luma) (rows img)))
  | None => Raise CvError
  end.

(** ** tracker._mask_to_polygon *)

(** [max(xs, key=key)] of a non-empty sequence: the first maximal element. *)
Definition py_max {A : Type} (key : A -> Q) (x : A) (xs : list A) : A :=
  fold_left (fun best y => if Qlt_le_dec (key best) (key y) then y else best)
            xs x.

(** The simplification loop with [remaining + 1] turns left: [approx] is
    returned by [break], or by the end of the loop on its last turn. *)
Fixpoint approx_loop {cv : Cv2} (c : contour) (max_points : Z) (epsilon : Q)
    (remaining : nat) : contour :=
  let approx := approxPolyDP c epsilon in
  match remaining with
  | O => approx
  | S r =>
      if Z.of_nat (length (vertices approx)) <=? max_points then approx
      else approx_loop c max_points (epsilon * (3 # 2)) r
  end.

(** [approx.squeeze().tolist()] of an array of shape [(n, 1, 2)]: a bare
    coordinate pair when [n = 1], the list of pairs otherwise. *)
Inductive squeezed : Type :=
| Flat (p : point)
| Nested (ps : list point).

Definition squeeze_tolist (approx : contour) : squeezed :=
  match approx with
  | (p, []) => Flat p
  | (p, q :: ps) => Nested (p :: q :: ps)
  end.

Definition _mask_to_polygon {cv : Cv2} (mask : Mask) (max_points : Z)
    : list point :=
  match findContours mask with
  | [] => []
  | c0 :: cs =>
      let c := py_max contourArea c0 cs in
      let approx := approx_loop c max_points 2 19 in
      match squeeze_tolist approx with
      | Flat p => [p]
      | Nested ps => ps
      end
  end.

(** ** tracker.analyze_frame *)

(** The dict [analyze_frame] returns. *)
Module Analysis.
Record analysis : Type := mk_analysis {
  centroid : vec2;
  bbox : Z * Z * Z * Z;
  polygon : list point;
  area : Z;
  avg_luma : Q;
  motion_vector : vec2
}.
End Analysis.
Export Analysis (analysis).

(** [float(np.mean(xs))] *)
Definition mean_Q (xs : list Z) : Q :=
  inject_Z (sum_Z xs) / inject_Z (Z.of_nat (length xs)).

(** [image] is what [cv2.imread(image_path)] returned. *)
Definition analyze_frame {cv : Cv2} (image : option Image) (mask : Mask)
    (prev_centroid : option vec2) : result analysis :=
  let '(h, w) := shape mask in
  let m := moments mask in
  let '(cx, cy) :=
    if 0 <? m00 m then
      (inject_Z (m10 m) / inject_Z (m00 m),
       inject_Z (m01 m) / inject_Z (m00 m))%Q
    else (inject_Z (Z.of_nat w) / 2, inject_Z (Z.of_nat h) / 2)%Q in
  let centroid := (py_round cx 2, py_round cy 2) in
  let bbox :=
    match findNonZero mask with
    | Some coords =>
        let '(x1, y1, bw, bh) := boundingRect coords in
        (x1, y1, x1 + bw, y1 + bh)
    | None => (0, 0, Z.of_nat w, Z.of_nat h)
    end in
  let area := count_positive mask in
  let polygon := _mask_to_polygon mask 64 in
  gray <- cvtColor_gray image ;;
  masked_pixels <- bool_index gray mask ;;
  let avg_luma :=
    if (0 <? length masked_pixels)%nat
    then py_round (mean_Q masked_pixels / 255) 4 else 0%Q in
  let motion_vector :=
    match prev_centroid with
    | Some prev => (py_round (centroid.1 - prev.1) 2,
                    py_round (centroid.2 - prev.2) 2)
    | None => (0, 0)%Q
    end in
  Ok {| Analysis.centroid := centroid;
        Analysis.bbox := bbox;
        Analysis.polygon := polygon;
        Analysis.area := area;
        Analysis.avg_luma := avg_luma;
        Analysis.motion_vector := motion_vector |}.

(** ** supertracery.run_segment_and_track *)

(** A dict keyed by object id, in insertion order. *)
Definition dict (V : Type) : Type := list (Z * V).

(** [d[k]] *)
Definition dict_getitem {V : Type} (d : dict V) (k : Z) : result V :=
  match filter (fun kv => kv.1 = k) d with
  | kv :: _ => Ok kv.2
  | [] => Raise KeyError
  end.

(** [round(frame_idx / 30.0, 6)] *)
Definition frame_time (frame_idx : nat) : Q :=
  py_round (inject_Z (Z.of_nat frame_idx) / 30) 6.

(** The entry appended for a frame whose mask is [None]. *)
Definition default_frame (comp_width comp_height : Z) (frame_idx : nat)
    : frame_data :=
  {| frame_index := frame_idx;
     time := frame_time frame_idx;
     centroid := (inject_Z comp_width / 2, inject_Z comp_height / 2)%Q;
     bbox := (0, 0, comp_width, comp_height);
     polygon := [];
     area := 0;
     avg_luma := 0;
     motion_vector := (0, 0)%Q;
     confidence := 0 |}.

(** [float(min(1.0, area / max(1, comp_width * comp_height * 0.001)))] *)
Definition confidence_of (comp_width comp_height area : Z) : Q :=
  Qmin 1 (inject_Z area / Qmax 1 (inject_Z (comp_width * comp_height) * (1 # 1000))).

(** The dict of [analyze_frame] with [frame_index], [time] and [confidence]
    added. *)
Definition tracked_frame (comp_width comp_height : Z) (frame_idx : nat)
    (a : analysis) : frame_data :=
  {| frame_index := frame_idx;
     time := frame_time frame_idx;
     centroid := Analysis.centroid a;
     bbox := Analysis.bbox a;
     polygon := Analysis.polygon a;
     area := Analysis.area a;
     avg_luma := Analysis.avg_luma a;
     motion_vector := Analysis.motion_vector a;
     confidence := confidence_of comp_width comp_height (Analysis.area a) |}.

(** One turn of [for frame_idx in range(total_frames)]; the state is
    [prev_centroid] and [obj_data["frames"]]. [frames] lists, for each frame
    path, what [cv2.imread] reads from it. *)
Definition analyze_step {cv : Cv2} (frames : list (option Image))
    (masks_list : list (option Mask)) (comp_width comp_height : Z)
    (st : option vec2 * list frame_data) (frame_idx : nat)
    : result (option vec2 * list frame_data) :=
  let '(prev_centroid, out) := st in
  mask <- getitem masks_list frame_idx ;;
  match mask with
  | None =>
      Ok (prev_centroid, out ++ [default_frame comp_width comp_height frame_idx])
  | Some mask =>
      image <- getitem frames frame_idx ;;
      a <- analyze_frame image mask prev_centroid ;;
      let frame_data := tracked_frame comp_width comp_height frame_idx a in
      Ok (Some (centroid frame_data), out ++ [frame_data])
  end.

(** The entries of one object before smoothing. *)
Definition analyze_frames {cv : Cv2} (frames : list (option Image))
    (masks_list : list (option Mask)) (comp_width comp_height : Z)
    : result (list frame_data) :=
  st <- for_each (analyze_step frames masks_list comp_width comp_height)
                 (seq 0 (length frames)) (None, []) ;;
  Ok st.2.

(** [obj_data] of one object: its id and its smoothed entries. *)
Definition analyze_object {cv : Cv2} (frames : list (option Image))
    (all_masks : dict (list (option Mask))) (comp_width comp_height : Z)
    (obj_id : Z) : result (Z * list frame_data) :=
  masks_list <- dict_getitem all_masks obj_id ;;
  raw <- analyze_frames frames masks_list comp_width comp_height ;;
  Ok (obj_id, smooth_motion_vectors raw 3).

(** [sorted(all_masks.keys())] *)
Definition sorted_keys {V : Type} (d : dict V) : list Z :=
  merge_sort Z.le (map fst d).

(** The pipeline from the masks on: [initial_masks] is what
    [segment_single_frame] returned and [all_masks] what [propagate_masks]
    returned. [None] is a run that printed [ERROR:...] and returned early. *)
Definition run_segment_and_track {cv : Cv2} (frames : list (option Image))
    (initial_masks : dict Mask) (all_masks : dict (list (option Mask)))
    (comp_width comp_height : Z)
    : result (option (list (Z * list frame_data))) :=
  match frames, initial_masks with
  | [], _ => Ok None
  | _, [] => Ok None
  | _, _ =>
      objects <- map_result
                   (analyze_object frames all_masks comp_width comp_height)
                   (sorted_keys all_masks) ;;
      Ok (Some objects)
  end.

(** ** tracker._fallback_propagate *)

(** What the propagation does besides filling [all_masks]: the progress
    lines it prints and the optical-flow computations it runs, each tagged
    with the loop index [i]. *)
Inductive event : Type :=
| PROGRESS (done total : nat)
| FLOW (i : nat).

Record propagation : Type := mk_propagation {
  all_masks : dict (list (option Mask));
  prev_gray : option (ndarray Z);
  events : list event
}.

(** [f] applied to every value of a dict, in order. *)
Definition map_values {V W : Type} (f : V -> result W) (d : dict V)
    : result (dict W) :=
  map_result (fun kv => w <- f kv.2 ;; Ok (kv.1, w)) d.

(** [all_masks[obj_id][i] = all_masks[obj_id][i - 1]] *)
Definition copy_previous (i : nat) (masks : list (option Mask))
    : result (list (option Mask)) :=
  prev_mask <- getitem masks (i - 1) ;;
  setitem masks i prev_mask.

(** The body of [for obj_id in all_masks] on a readable frame. *)
Definition propagate_object {cv : Cv2} (flow : Flow) (h w i : nat)
    (masks : list (option Mask)) : result (list (option Mask)) :=
  prev_mask <- getitem masks (i - 1) ;;
  match prev_mask with
  | None => setitem masks i (Some (np_zeros h w))
  | Some prev_mask => setitem masks i (Some (warp_mask flow prev_mask))
  end.

(** One turn of [for i in range(1, total_frames)]. [frames] lists, for each
    frame path, what [cv2.imread(path, cv2.IMREAD_GRAYSCALE)] reads. *)
Definition propagate_step {cv : Cv2} (frames : list (option (ndarray Z)))
    (total_frames : nat) (st : propagation) (i : nat) : result propagation :=
  let printed := events st ++ [PROGRESS (i + 1) total_frames] in
  curr_gray <- getitem frames i ;;
  match curr_gray with
  | None =>
      masks <- map_values (copy_previous i) (all_masks st) ;;
      Ok {| all_masks := masks; prev_gray := prev_gray st; events := printed |}
  | Some curr_gray =>
      match prev_gray st with
      | None => Raise CvError
      | Some prev_gray =>
          let flow := calcOpticalFlowFarneback prev_gray curr_gray in
          let '(h, w) := shape prev_gray in
          masks <- map_values (propagate_object flow h w i) (all_masks st) ;;
          Ok {| all_masks := masks;
                prev_gray := Some curr_gray;
                events := printed ++ [FLOW i] |}
      end
  end.

Definition _fallback_propagate {cv : Cv2} (frames : list (option (ndarray Z)))
    (initial_masks : dict (option Mask)) (total_frames : nat)
    : result (dict (list (option Mask)) * list event) :=
  masks <- map_values (fun m => setitem (replicate total_frames None) 0 m)
                      initial_masks ;;
  first <- getitem frames 0 ;;
  st <- for_each (propagate_step frames total_frames)
                 (seq 1 (total_frames - 1))
                 {| all_masks := masks; prev_gray := first; events := [] |} ;;
  Ok (all_masks st, events st).

(** The frame [prev_gray] holds when the loop reaches index [i]: frame 0 to
    begin with, then the latest readable frame before [i]. *)
Fixpoint gray_before (frames : list (option (ndarray Z))) (i : nat)
    : option (ndarray Z) :=
  match i with
  | O => None
  | S j =>
      match frames !! j with
      | Some (Some g) => Some g
      | _ => gray_before frames j
      end
  end.

(** ** preview_server.main: the query loop *)

(** What [str.strip()] removes: the whitespace among the code points below
    256. *)
Definition is_space (c : ascii) : bool :=
  let n := nat_of_ascii c in
  ((9 <=? n) && (n <=? 13) || (28 <=? n) && (n <=? 32)
   || (n =? 133) || (n =? 160))%nat.

Fixpoint lstrip (s : string) : string :=
  match s with
  | String c s' => if is_space c then lstrip s' else s
  | EmptyString => EmptyString
  end.

Fixpoint rstrip (s : string) : string :=
  match s with
  | String c s' =>
      match rstrip s' with
      | EmptyString => if is_space c then EmptyString else String c EmptyString
      | t => String c t
      end
  | EmptyString => EmptyString
  end.

Definition strip (s : string) : string := rstrip (lstrip s).

(** The dict a successful query answers with. *)
Record preview : Type := mk_preview {
  p_bbox : Z * Z * Z * Z;
  p_polygon : list point;
  p_score : Q;
  p_centroid : vec2
}.

(** A line written to stdout: [json.dumps(result)] or
    [json.dumps({"error": str(e)})]. *)
Inductive reply : Type :=
| Reply (result : preview)
| ErrorReply (message : string).

(** The model behind the preview and the JSON reader, each answering with
    [inl message] when it raises an [Exception]. *)
Class Predictor : Type := {
  (** [query = json.loads(line); x = query["x"]; y = query["y"]] *)
  read_query : string -> string + Z * Z;
  (** [predictor.predict(point_coords, point_labels, multimask_output=True)]:
      the candidate masks, each with its score *)
  predict : Z * Z -> string + list (Mask * Q);
  (** the message of [np.argmax] on an empty sequence *)
  argmax_empty : string
}.

(** The body of [try], up to the line it would print. *)
Definition answer {cv : Cv2} {pr : Predictor} (line : string) : string + preview :=
  match read_query line with
  | inl e => inl e
  | inr (x, y) =>
      match predict (x, y) with
      | inl e => inl e
      | inr [] => inl argmax_empty
      | inr (c0 :: cs) =>
          let best := py_max snd c0 cs in
          let mask := best.1 in
          let score := py_round best.2 4 in
          let bbox :=
            match findNonZero mask with
            | Some coords =>
                let '(bx, by_, bw, bh) := boundingRect coords in
                (bx, by_, bx + bw, by_ + bh)
            | None =>
                let '(h, w) := shape mask in (0, 0, Z.of_nat w, Z.of_nat h)
            end in
          let m := moments mask in
          let '(cx, cy) :=
            if 0 <? m00 m then
              (inject_Z (m10 m) / inject_Z (m00 m),
               inject_Z (m01 m) / inject_Z (m00 m))%Q
            else (inject_Z x, inject_Z y) in
          let centroid := (py_round cx 2, py_round cy 2) in
          let polygon := _mask_to_polygon mask 32 in
          inr {| p_bbox := bbox; p_polygon := polygon; p_score := score;
                 p_centroid := centroid |}
      end
  end.

(** [try: ... print(json.dumps(result)) except Exception as e:
    print(json.dumps({"error": str(e)}))] *)
Definition respond {cv : Cv2} {pr : Predictor} (line : string) : reply :=
  match answer line with
  | inr result => Reply result
  | inl e => ErrorReply e
  end.

(** How the loop ended: on a [QUIT] line, or because stdin was exhausted. *)
Inductive ending : Type := Quit | Closed.

(** [for line in sys.stdin]: the lines printed, and how the loop ended. *)
Fixpoint query_loop {cv : Cv2} {pr : Predictor} (stdin : list string)
    : list reply * ending :=
  match stdin with
  | [] => ([], Closed)
  | line :: rest =>
      let line := strip line in
      if String.eqb line EmptyString then query_loop rest
      else if String.eqb line "QUIT" then ([], Quit)
      else
        let '(out, e) := query_loop rest in
        (respond line :: out, e)
  end.

(** ** A reference instance of the OpenCV operations *)

(** Enough of OpenCV to run the pipeline on small examples: a static scene
    whose masks are filled upright rectangles. *)
Module Reference.

(** The outer contour of a filled upright rectangle, as
    [CHAIN_APPROX_SIMPLE] lists it: the corners, from the top-left one
    down the left side. *)
Definition ref_findContours (mask : Mask) : list contour :=
  match findNonZero mask with
  | None => []
  | Some coords =>
      let '(x1, y1, bw, bh) := boundingRect coords in
      let x2 := x1 + bw - 1 in
      let y2 := y1 + bh - 1 in
      if (bw =? 1) && (bh =? 1) then [((x1, y1), [])]
      else if bw =? 1 then [((x1, y1), [(x1, y2)])]
      else if bh =? 1 then [((x1, y1), [(x2, y1)])]
      else [((x1, y1), [(x1, y2); (x2, y2); (x2, y1)])]
  end.

(** The shoelace formula. *)
Fixpoint shoelace (first : point) (ps : list point) : Z :=
  match ps with
  | [] => 0
  | [p] => p.1 * first.2 - first.1 * p.2
  | p :: (q :: _) as ps' => p.1 * q.2 - q.1 * p.2 + shoelace first ps'
  end.

Definition ref_contourArea (c : contour) : Q :=
  inject_Z (Z.abs (shoelace c.1 (vertices c))) / 2.

Definition dist2 (a b : point) : Z :=
  (b.1 - a.1) * (b.1 - a.1) + (b.2 - a.2) * (b.2 - a.2).

(** Whether [p] lies farther than [sqrt eps2] from the line through [a]
    and [b] (from [a], when [a = b]). *)
Definition off_line (eps2 : Q) (a b p : point) : bool :=
  let cross := (b.1 - a.1) * (p.2 - a.2) - (b.2 - a.2) * (p.1 - a.1) in
  if dist2 a b =? 0 then negb (Qle_bool (inject_Z (dist2 a p)) eps2)
  else negb (Qle_bool (inject_Z (cross * cross)) (eps2 * inject_Z (dist2 a b))).

(** The vertex of [ps] farthest from the line through [a] and [b], with
    the vertices before and after it. *)
Fixpoint farthest (a b : point) (before : list point) (ps : list point)
    (best : option (list point * point * list point))
    : option (list point * point * list point) :=
  match ps with
  | [] => best
  | p :: ps' =>
      let d (q : point) : Z :=
        if dist2 a b =? 0 then dist2 a q
        else Z.abs ((b.1 - a.1) * (q.2 - a.2) - (b.2 - a.2) * (q.1 - a.1)) in
      let best' :=
        match best with
        | Some (_, q, _) => if d q <? d p then Some (before, p, ps') else best
        | None => Some (before, p, ps')
        end in
      farthest a b (before ++ [p]) ps' best'
  end.

(** Ramer-Douglas-Peucker on the open chain [a], [inner], [b]: the chain
    kept, [a] included and [b] left out. *)
Fixpoint rdp (fuel : nat) (eps2 : Q) (a : point) (inner : list point)
    (b : point) : list point :=
  match fuel with
  | O => a :: inner
  | S fuel' =>
      match farthest a b [] inner None with
      | Some (before, p, after) =>
          if off_line eps2 a b p
          then rdp fuel' eps2 a before p ++ rdp fuel' eps2 p after b
          else [a]
      | None => [a]
      end
  end.

(** The closed curve split at the vertex farthest from its first one; a
    curve within [epsilon] of its first vertex collapses to it. *)
Definition ref_approxPolyDP (c : contour) (epsilon : Q) : contour :=
  let eps2 := (epsilon * epsilon)%Q in
  let a := c.1 in
  match farthest a a [] c.2 None with
  | Some (before, p, after) =>
      if off_line eps2 a a p then
        let n := length c.2 in
        match rdp n eps2 a before p ++ rdp n eps2 p after a with
        | q :: qs => (q, qs)
        | [] => (a, [])
        end
      else (a, [])
  | None => (a, [])
  end.

(** The BT.601 luma weights. *)
Definition ref_luma (p : bgr) : Z :=
  let '(b, g, r) := p in (299 * r + 587 * g + 114 * b + 500) / 1000.

(** A static scene: the displacement field is zero everywhere, and a
    binary mask remapped by it comes back unchanged. *)
Definition static_scene : Cv2 :=
  {| findContours := ref_findContours;
     contourArea := ref_contourArea;
     approxPolyDP := ref_approxPolyDP;
     luma := ref_luma;
     Flow := unit;
     calcOpticalFlowFarneback := fun _ _ => tt;
     warp_mask := fun _ mask => mask |}.

(** A predictor that reads the two-character lines [xy] of digits and
    answers with a filled rectangle around the point. *)
Definition digit (c : ascii) : option Z :=
  let n := nat_of_ascii c in
  if ((48 <=? n) && (n <=? 57))%nat then Some (Z.of_nat (n - 48)) else None.

Definition box_mask (x y : Z) : Mask :=
  mk_ndarray (10, 10)%nat
    (map (fun r => map (fun c =>
            if (Z.abs (Z.of_nat c - x) <=? 1) && (Z.abs (Z.of_nat r - y) <=? 1)
            then 1 else 0) (seq 0 10)) (seq 0 10)).

Definition digits_predictor : Predictor :=
  {| read_query := fun line =>
       match line with
       | String a (String b EmptyString) =>
           match digit a, digit b with
           | Some x, Some y => inr (x, y)
           | _, _ => inl "Expecting value"%string
           end
       | _ => inl "Expecting value"%string
       end;
     predict := fun xy => inr [(box_mask xy.1 xy.2, 9 # 10)];
     argmax_empty := "attempt to get argmax of an empty sequence" |}.

(** A scene of upright rectangles stacked one above the other and
    separated by empty rows: one contour per band of consecutive non-empty
    rows, from the top band down, each the outline of the band's box. *)
Definition nonzero_columns (row : list Z) : list nat :=
  map fst (filter (fun xv => xv.2 <> 0) (imap pair row)).

Definition box_contour (box : nat * nat * nat * nat) : contour :=
  let '(x1, y1, x2, y2) := box in
  let p (x y : nat) : point := (Z.of_nat x, Z.of_nat y) in
  if (x1 =? x2)%nat && (y1 =? y2)%nat then (p x1 y1, [])
  else if (x1 =? x2)%nat then (p x1 y1, [p x1 y2])
  else if (y1 =? y2)%nat then (p x1 y1, [p x2 y1])
  else (p x1 y1, [p x1 y2; p x2 y2; p x2 y1]).

Fixpoint bands (y : nat) (rows : list (list Z))
    (band : option (nat * nat * nat * nat)) : list (nat * nat * nat * nat) :=
  match rows with
  | [] => match band with Some b => [b] | None => [] end
  | row :: rest =>
      match nonzero_columns row with
      | [] =>
          match band with
          | Some b => b :: bands (S y) rest None
          | None => bands (S y) rest None
          end
      | x :: xs =>
          let lo := min_list x xs in
          let hi := Nat.max x (max_list xs) in
          let band' :=
            match band with
            | Some (x1, y1, x2, _) => (Nat.min x1 lo, y1, Nat.max x2 hi, y)
            | None => (lo, y, hi, y)
            end in
          bands (S y) rest (Some band')
      end
  end.

Definition banded_findContours (mask : Mask) : list contour :=
  map box_contour (bands 0 (rows mask) None).

Definition banded_scene : Cv2 :=
  {| findContours := banded_findContours;
     contourArea := ref_contourArea;
     approxPolyDP := ref_approxPolyDP;
     luma := ref_luma;
     Flow := unit;
     calcOpticalFlowFarneback := fun _ _ => tt;
     warp_mask := fun _ mask => mask |}.

(** A predictor that answers with three candidates, as SAM2 does with
    [multimask_output=True]: the pixel clicked, the rectangle around it and
    the whole frame, the last two with the same score. *)
Definition multimask_predictor : Predictor :=
  {| read_query := read_query (Predictor := digits_predictor);
     predict := fun xy =>
       inr [ (mk_ndarray (10, 10)%nat
                (map (fun r => map (fun c =>
                        if (Z.of_nat c =? xy.1) && (Z.of_nat r =? xy.2)
                        then 1 else 0) (seq 0 10)) (seq 0 10)), 1 # 2);
             (box_mask xy.1 xy.2, 9 # 10);
             (mk_ndarray (10, 10)%nat (replicate 10 (replicate 10 1)),
              9 # 10) ];
     argmax_empty := "attempt to get argmax of an empty sequence" |}.

End Reference.

(** ** Example inputs *)

(** An entry that carries only a motion vector (the other keys at zero). *)
Definition motion_only (mv : vec2) : frame_data :=
  {| frame_index := 0; time := 0; centroid := (0, 0)%Q; bbox := (0, 0, 0, 0);
     polygon := []; area := 0; avg_luma := 0; motion_vector := mv;
     confidence := 0 |}.

(** The track of the smoothing scenario: motion vectors
    [(0,0), (2,0), (4,0), (2,0), (0,0)]. *)
Definition scenario_track : list frame_data :=
  map motion_only [(0, 0); (2, 0); (4, 0); (2, 0); (0, 0)]%Q.

(** A 2 x 2 block of object pixels in the corner of a 4 x 4 mask. *)
Definition corner_block : Mask :=
  mk_ndarray (4, 4)%nat
    [[1; 1; 0; 0]; [1; 1; 0; 0]; [0; 0; 0; 0]; [0; 0; 0; 0]].

(** A 10 x 10 mask that is all object. *)
Definition full_mask : Mask :=
  mk_ndarray (10, 10)%nat (replicate 10 (replicate 10 1)).

(** The tolerance of turn [k] of the simplification loop that starts at
    [epsilon]: multiplied by 1.5 on every turn. *)
Fixpoint epsilon_at (epsilon : Q) (k : nat) : Q :=
  match k with
  | O => epsilon
  | S k' => epsilon_at (epsilon * (3 # 2)) k'
  end.

(** A frame of one colour. *)
Definition uniform_image (h w : nat) : Image :=
  mk_ndarray (h, w) (replicate h (replicate w (200, 200, 200))).

(** A 1 x 4 mask with the single object pixel [(x, 0)]. *)
Definition dot_mask (x : nat) : Mask :=
  mk_ndarray (1, 4)%nat [ <[x := 1]> (replicate 4 0) ].

(** The latest frame before [i] whose mask is present. *)
Fixpoint last_present (masks_list : list (option Mask)) (i : nat)
    : option nat :=
  match i with
  | O => None
  | S j =>
      match masks_list !! j with
      | Some (Some _) => Some j
      | _ => last_present masks_list j
      end
  end.

(** [round(c[0] - ref[0], 2), round(c[1] - ref[1], 2)], or zero without a
    reference. *)
Definition motion_from (c : vec2) (ref : option vec2) : vec2 :=
  match ref with
  | Some r => (py_round (c.1 - r.1) 2, py_round (c.2 - r.2) 2)
  | None => (0, 0)%Q
  end.

(** What holds of [prev_centroid] and of the entries appended so far when
    the analysis loop reaches frame [k]. *)
Definition analyzed (masks_list : list (option Mask))
    (comp_width comp_height : Z) (k : nat)
    (st : option vec2 * list frame_data) : Prop :=
  length st.2 = k /\
  st.1 = match last_present masks_list k with
         | Some j => centroid <$> st.2 !! j
         | None => None
         end /\
  forall i, (i < k)%nat ->
    exists e, st.2 !! i = Some e /\ frame_index e = i /\
      (masks_list !! i = Some None ->
       e = default_frame comp_width comp_height i) /\
      (forall m, masks_list !! i = Some (Some m) ->
       motion_vector e
       = motion_from (centroid e)
           (match last_present masks_list i with
            | Some j => centroid <$> st.2 !! j
            | None => None
            end)).

(** Three frames of a dot that moves from [x = 0] to [x = 3] and whose mask
    is missing in the middle frame. *)
Definition gap_frames : list (option Image) :=
  replicate 3 (Some (uniform_image 1 4)).

Definition gap_masks : list (option Mask) :=
  [Some (dot_mask 0); None; Some (dot_mask 3)].

(** The entries the analysis loop builds for them, before smoothing. *)
Definition gap_raw : list frame_data :=
  match analyze_frames (cv := Reference.static_scene) gap_frames gap_masks 4 1 with
  | Ok raw => raw
  | Raise _ => []
  end.

(** What the turn at index [i] of the propagation loop leaves in the mask
    list [l] of one object: the previous mask held when frame [i] is
    unreadable; otherwise an all-zero mask of the shape of [prev_gray] where
    the previous mask is absent, and the previous mask warped where it is
    present. *)
Definition step_done {cv : Cv2} (frames : list (option (ndarray Z))) (i : nat)
    (l : list (option Mask)) : Prop :=
  match frames !! i with
  | Some None => exists m, l !! i = Some m /\ l !! (i - 1)%nat = Some m
  | Some (Some g) =>
      exists pg, gray_before frames i = Some pg /\
        match l !! (i - 1)%nat with
        | Some None => l !! i = Some (Some (np_zeros (shape pg).1 (shape pg).2))
        | Some (Some pm) =>
            l !! i = Some (Some (warp_mask (calcOpticalFlowFarneback pg g) pm))
        | None => False
        end
  | None => False
  end.

(** What holds of the propagation state when the loop reaches index [k]. *)
Definition propagated {cv : Cv2} (frames : list (option (ndarray Z)))
    (total_frames k : nat) (st : propagation) : Prop :=
  prev_gray st = gray_before frames k /\
  (forall kv, kv ∈ all_masks st ->
     length kv.2 = total_frames /\
     forall i, (1 <= i < k)%nat -> step_done frames i kv.2) /\
  (forall i, FLOW i ∈ events st ->
     (i < k)%nat /\ exists g, frames !! i = Some (Some g)).

(** Four grayscale frames, the third unreadable, and two objects: one with
    an initial mask and one without. *)
Definition held_frames : list (option (ndarray Z)) :=
  [Some (np_zeros 4 4); Some (np_zeros 4 4); None; Some (np_zeros 4 4)].

Definition held_initial : dict (option Mask) :=
  [(7, Some corner_block); (3, None)].

Definition held_masks : dict (list (option Mask)) :=
  match _fallback_propagate (cv := Reference.static_scene)
          held_frames held_initial 4 with
  | Ok (masks, _) => masks
  | Raise _ => []
  end.

Definition held_events : list event :=
  match _fallback_propagate (cv := Reference.static_scene)
          held_frames held_initial 4 with
  | Ok (_, evs) => evs
  | Raise _ => []
  end.

(** The lines that come before the first [QUIT]. *)
Fixpoint before_quit (lines : list string) : list string :=
  match lines with
  | [] => []
  | line :: rest =>
      if String.eqb line "QUIT" then [] else line :: before_quit rest
  end.

Definition nonblank (line : string) : bool := negb (String.eqb line EmptyString).

(** An empty line as [sys.stdin] yields it: a lone newline. *)
Definition empty_line : string := String (ascii_of_nat 10) EmptyString.

(** Three frames of a dot that jumps from [x = 0] to [x = 3] after the
    first frame, every mask present. *)
Definition jump_masks : list (option Mask) :=
  [Some (dot_mask 0); Some (dot_mask 3); Some (dot_mask 3)].

(** The tracks the run over the gap scenario returns. *)
Definition gap_objects : list (Z * list frame_data) :=
  match run_segment_and_track (cv := Reference.static_scene)
          gap_frames [(0, dot_mask 0)] [(0, gap_masks)] 4 1 with
  | Ok (Some objects) => objects
  | _ => []
  end.

(** What the turn at index [i] of the propagation loop prints and computes:
    its progress line, and an optical flow when frame [i] is readable. *)
Definition turn_events (frames : list (option (ndarray Z)))
    (total_frames i : nat) : list event :=
  PROGRESS (i + 1) total_frames ::
  match frames !! i with
  | Some (Some _) => [FLOW i]
  | _ => []
  end.

(** Two frames, the first unreadable. *)
Definition late_frames : list (option (ndarray Z)) :=
  [None; Some (np_zeros 4 4)].

(** The gap scenario with its last frame unreadable. *)
Definition torn_frames : list (option Image) :=
  [Some (uniform_image 1 4); Some (uniform_image 1 4); None].

(** A track that moves by (1.5, 0) in every frame. *)
Definition steady_track : list frame_data :=
  replicate 4 (motion_only (3 # 2, 0)%Q).

(** A predictor that finds nothing: its single candidate is an all-zero
    10 x 10 mask. *)
Definition blind_predictor : Predictor :=
  {| read_query := read_query (Predictor := Reference.digits_predictor);
     predict := fun _ => inr [(np_zeros 10 10, 1 # 10)%Q];
     argmax_empty := argmax_empty (Predictor := Reference.digits_predictor) |}.

(** ** tracker._fallback_segment and tracker.segment_single_frame *)

(** A click point, [{"x": x, "y": y, "object_id": id}]. *)
Record click_point : Type := mk_click_point {
  pt_x : Z;
  pt_y : Z;
  object_id : Z
}.

(** The region-growing operations of OpenCV. *)
Class FloodFill : Type := {
  (** [mask = np.zeros((h + 2, w + 2), np.uint8);
      cv2.floodFill(image.copy(), mask, (x, y), 255, (30, 30, 30),
      (30, 30, 30), FLOODFILL_MASK_ONLY | FLOODFILL_FIXED_RANGE)] and then
      [mask[1:h + 1, 1:w + 1]] *)
  flood_mask : Image -> Z * Z -> Mask;
  (** [cv2.morphologyEx(mask, cv2.MORPH_CLOSE, kernel)] with the 5 x 5
      elliptical kernel *)
  morph_close : Mask -> Mask;
  (** [cv2.morphologyEx(mask, cv2.MORPH_OPEN, kernel)] *)
  morph_open : Mask -> Mask
}.

(** [d[k] = v]: the value of an existing key is replaced where it stands, a
    new key goes to the end. *)
Fixpoint dict_setitem {V : Type} (d : dict V) (k : Z) (v : V) : dict V :=
  match d with
  | [] => [(k, v)]
  | kv :: d' =>
      if decide (kv.1 = k) then (k, v) :: d'
      else kv :: dict_setitem d' k v
  end.

(** [min(max(int(v), 0), bound - 1)] *)
Definition clamp (v : Z) (bound : nat) : Z :=
  Z.min (Z.max v 0) (Z.of_nat bound - 1).

(** The mask of one click: flood fill from the clamped seed, then closing,
    then opening. *)
Definition seed_mask {ff : FloodFill} (img : Image) (h w : nat)
    (pt : click_point) : Mask :=
  let x := clamp (pt_x pt) w in
  let y := clamp (pt_y pt) h in
  let result_mask := flood_mask img (x, y) in
  let result_mask := morph_close result_mask in
  morph_open result_mask.

Definition _fallback_segment {cv : Cv2} {ff : FloodFill}
    (image : option Image) (click_points : list click_point)
    : result (dict Mask) :=
  gray <- cvtColor_gray image ;;
  let '(h, w) := shape gray in
  match image with
  | Some img =>
      Ok (fold_left
            (fun masks pt => dict_setitem masks (object_id pt) (seed_mask img h w pt))
            click_points [])
  | None => Raise CvError
  end.

(** The SAM2 image predictor, with the image set: the candidate masks of
    [predictor.predict(point_coords, point_labels, multimask_output=True)],
    each with its score; there is at least one. *)
Class ImagePredictor : Type := {
  predict_point : Image -> Z * Z -> (Mask * Q) * list (Mask * Q)
}.

(** [predictor] is what [get_sam2_image_predictor()] returned and [image]
    what [cv2.imread(image_path)] returned. *)
Definition segment_single_frame {cv : Cv2} {ff : FloodFill}
    (predictor : option ImagePredictor) (image : option Image)
    (click_points : list click_point) : result (dict Mask) :=
  match image with
  | None => Raise CvError
  | Some img =>
      match predictor with
      | Some p =>
          Ok (fold_left
                (fun masks pt =>
                   let '(c0, cs) := predict_point img (pt_x pt, pt_y pt) in
                   let best := py_max snd c0 cs in
                   dict_setitem masks (object_id pt) best.1)
                click_points [])
      | None => _fallback_segment (Some img) click_points
      end
  end.

(** ** tracker.propagate_masks *)

(** [(logits > 0.0).cpu().numpy().squeeze().astype(np.uint8)], where
    [logits] is [mask_logits[i]]: a tensor of shape (1, H, W), taken here as
    its H x W content. [squeeze] drops every axis of length 1: the leading
    one, and for a frame of a single row or column ([H = 1] or [W = 1]) that
    axis too, which leaves an array that is no (H, W) mask. The definition
    is that of the frames with [frame_sized] logits, where only the leading
    axis goes. *)
Definition frame_sized (logits : ndarray Q) : Prop :=
  (1 < (shape logits).1)%nat /\ (1 < (shape logits).2)%nat.

Definition threshold_logits (logits : ndarray Q) : Mask :=
  mk_ndarray (shape logits)
    (map (map (fun v => if Qlt_le_dec 0 v then 1 else 0)) (rows logits)).

(** One item of [predictor.propagate_in_video(inference_state)]:
    [frame_idx, obj_ids, mask_logits]. *)
Record video_item : Type := mk_video_item {
  item_frame : nat;
  item_obj_ids : list Z;
  item_logits : list (ndarray Q)
}.

(** [if obj_id in all_masks: all_masks[obj_id][frame_idx] = mask] *)
Fixpoint store_mask (all_masks : dict (list (option Mask))) (obj_id : Z)
    (frame_idx : nat) (mask : Mask) : result (dict (list (option Mask))) :=
  match all_masks with
  | [] => Ok []
  | kv :: d =>
      if decide (kv.1 = obj_id) then
        l <- setitem kv.2 frame_idx (Some mask) ;; Ok ((kv.1, l) :: d)
      else
        d' <- store_mask d obj_id frame_idx mask ;; Ok (kv :: d')
  end.

(** The body of [for i, obj_id in enumerate(obj_ids)]. *)
Definition store_item_mask (item : video_item)
    (all_masks : dict (list (option Mask))) (io : nat * Z)
    : result (dict (list (option Mask))) :=
  logits <- getitem (item_logits item) io.1 ;;
  store_mask all_masks io.2 (item_frame item) (threshold_logits logits).

(** The body of [for frame_idx, obj_ids, mask_logits in ...]. *)
Definition store_item (all_masks : dict (list (option Mask)))
    (item : video_item) : result (dict (list (option Mask))) :=
  for_each (store_item_mask item) (imap pair (item_obj_ids item)) all_masks.

(** [predictor] is [None] when [get_sam2_predictor()] returned [None], and
    otherwise lists what [propagate_in_video] yields once the click points
    have been added; [frames] lists, for each frame path, what
    [cv2.imread(path, cv2.IMREAD_GRAYSCALE)] reads. *)
Definition propagate_masks {cv : Cv2} (predictor : option (list video_item))
    (frames : list (option (ndarray Z))) (initial_masks : dict (option Mask))
    : result (dict (list (option Mask))) :=
  let total_frames := length frames in
  let all_masks :=
    map (fun kv => (kv.1, replicate total_frames (@None Mask))) initial_masks in
  match predictor with
  | Some items => for_each store_item items all_masks
  | None =>
      r <- _fallback_propagate frames initial_masks total_frames ;; Ok r.1
  end.

(** A flood fill that marks the 3 x 3 block around the seed of a 10 x 10
    frame, with morphology that leaves a block as it is. *)
Definition block_fill : FloodFill :=
  {| flood_mask := fun _ xy => Reference.box_mask xy.1 xy.2;
     morph_close := fun mask => mask;
     morph_open := fun mask => mask |}.

(** Clicks on two objects, the first object clicked twice, the last click
    outside the frame. *)
Definition two_objects : list click_point :=
  [ {| pt_x := 2; pt_y := 2; object_id := 1 |};
    {| pt_x := 7; pt_y := 7; object_id := 0 |};
    {| pt_x := 40; pt_y := -3; object_id := 1 |} ].

(** What a video predictor yields for three frames when it loses object 1
    in the middle frame and also reports an object 9 nobody asked for. *)
Definition yielded : list video_item :=
  let on : ndarray Q := mk_ndarray (1, 2)%nat [[1; -1]]%Q in
  [ {| item_frame := 0; item_obj_ids := [1; 9]; item_logits := [on; on] |};
    {| item_frame := 1; item_obj_ids := [9]; item_logits := [on] |};
    {| item_frame := 2; item_obj_ids := [1]; item_logits := [on] |} ].

(** What a video predictor yields for two frames of 2 x 2 pixels and one
    object, which it sees in the first frame only. *)
Definition yielded_pair : list video_item :=
  [ {| item_frame := 0; item_obj_ids := [1];
       item_logits := [mk_ndarray (2, 2)%nat [[3 # 2; -1]; [0; 1 # 4]]%Q] |};
    {| item_frame := 1; item_obj_ids := []; item_logits := [] |} ].

(** A mask that was yielded for object [obj] at frame [i]: the thresholded
    logits of some item of that frame, at the position of [obj] in its
    [obj_ids]. *)
Definition yielded_for (items : list video_item) (obj : Z) (i : nat)
    (m : Mask) : Prop :=
  exists item j logits,
    item ∈ items /\ item_frame item = i /\
    item_obj_ids item !! j = Some obj /\
    item_logits item !! j = Some logits /\
    m = threshold_logits logits.

(** Every mask held in a slot was yielded for it. *)
Definition slots_yielded (items : list video_item)
    (all_masks : dict (list (option Mask))) : Prop :=
  forall kv i m, kv ∈ all_masks -> kv.2 !! i = Some (Some m) ->
                 yielded_for items kv.1 i m.

(** ** tracker.load_frames *)

(** An entry of a directory: its name, and whether [os.path.isfile] holds
    of its path. *)
Record dir_entry : Type := mk_dir_entry {
  entry_name : string;
  entry_is_file : bool
}.

(** The file system as [glob.glob] reads it. [listdir] gives the entries
    of the directory at a path: none for a path that is no directory, and
    those of the current directory for the empty path. [glob_dirs] gives
    the paths [glob] itself expands a directory path to when that path
    holds glob characters, which [glob] then lists one by one. *)
Record filesystem : Type := mk_filesystem {
  listdir : string -> list dir_entry;
  glob_dirs : string -> list string
}.

Definition ends_with (suffix s : string) : bool :=
  let n := String.length s in
  let m := String.length suffix in
  (m <=? n)%nat && String.eqb (substring (n - m) m s) suffix.

(** [glob.has_magic]: whether the path holds one of [*], [?] and [[]. *)
Fixpoint has_magic (s : string) : bool :=
  match s with
  | EmptyString => false
  | String c rest =>
      Ascii.eqb c "*" || Ascii.eqb c "?" || Ascii.eqb c "[" || has_magic rest
  end.

Fixpoint all_sep (s : string) : bool :=
  match s with
  | EmptyString => true
  | String c rest => Ascii.eqb c "/" && all_sep rest
  end.

(** [s.rstrip("/")] *)
Fixpoint rstrip_sep (s : string) : string :=
  match s with
  | EmptyString => EmptyString
  | String c rest =>
      match rstrip_sep rest with
      | EmptyString =>
          if Ascii.eqb c "/" then EmptyString else String c EmptyString
      | rest' => String c rest'
      end
  end.

(** [os.path.join(a, b)] for a [b] that does not start with a slash. *)
Definition path_join (a b : string) : string :=
  match a with
  | EmptyString => b
  | _ =>
      if ends_with "/" a then String.append a b
      else String.append a (String "/" b)
  end.

(** The directory [glob] looks into for
    [os.path.join(frames_dir, pattern)], the pattern holding no slash:
    the head [os.path.split] gives, which is [frames_dir] without its
    trailing slashes unless it is made of slashes only. *)
Definition pattern_dir (frames_dir : string) : string :=
  if all_sep frames_dir then frames_dir else rstrip_sep frames_dir.

(** Names that [*] does not match: those that start with a dot. *)
Definition hidden (name : string) : bool :=
  match name with
  | String c _ => Ascii.eqb c "."
  | EmptyString => false
  end.

(** [st_frame_*.png] *)
Definition match_st_frame_png (name : string) : bool :=
  String.prefix "st_frame_" name
  && ends_with ".png" (substring 9 (String.length name - 9) name).

(** [st_frame_*] *)
Definition match_st_frame (name : string) : bool :=
  String.prefix "st_frame_" name.

(** [*.png] *)
Definition match_png (name : string) : bool :=
  negb (hidden name) && ends_with ".png" name.

(** [*] *)
Definition match_any (name : string) : bool := negb (hidden name).

(** The entries of one directory that a pattern matches, as paths. *)
Definition glob_in_dir (fs : filesystem) (dirname : string)
    (matches : dir_entry -> bool) : list string :=
  map (fun e => path_join dirname (entry_name e))
      (List.filter matches (listdir fs dirname)).

(** [glob.glob(os.path.join(frames_dir, pattern))], the pattern given by
    the entries it matches: the directory part is expanded first when it
    holds glob characters, and every directory found is then listed. *)
Definition glob (fs : filesystem) (frames_dir : string)
    (matches : dir_entry -> bool) : list string :=
  let dirname := pattern_dir frames_dir in
  let dirs := if has_magic dirname then glob_dirs fs dirname else [dirname] in
  flat_map (fun d => glob_in_dir fs d matches) dirs.

(** The order of [sorted] on strings: by code point, position by
    position. *)
Definition string_le (a b : string) : Prop := String.leb a b = true.

#[global] Instance string_le_dec : RelDecision string_le.
Proof. intros a b. unfold string_le. apply _. Defined.

(** [sorted(glob.glob(os.path.join(frames_dir, pattern)))] *)
Definition sorted_glob (fs : filesystem) (frames_dir : string)
    (matches : dir_entry -> bool) : list string :=
  merge_sort string_le (glob fs frames_dir matches).

Definition load_frames (fs : filesystem) (frames_dir : string) : list string :=
  match sorted_glob fs frames_dir
          (fun e => match_st_frame_png (entry_name e)) with
  | (_ :: _) as paths => paths
  | [] =>
  match sorted_glob fs frames_dir (fun e => match_st_frame (entry_name e)) with
  | (_ :: _) as paths => paths
  | [] =>
  match sorted_glob fs frames_dir (fun e => match_png (entry_name e)) with
  | (_ :: _) as paths => paths
  | [] =>
      sorted_glob fs frames_dir
        (fun e => match_any (entry_name e) && entry_is_file e)
  end end end.

(** A render folder: three frames, a thumbnail and a hidden file. *)
Definition render_folder : list dir_entry :=
  [ {| entry_name := "st_frame_00002.png"; entry_is_file := true |};
    {| entry_name := "thumb.png"; entry_is_file := true |};
    {| entry_name := "st_frame_00000.png"; entry_is_file := true |};
    {| entry_name := ".DS_Store"; entry_is_file := true |};
    {| entry_name := "st_frame_00001.png"; entry_is_file := true |} ].

(** A file system that holds the render folder at [/renders/shot], listed
    in the given order, and beside it a folder with nothing to load: a
    hidden file and a subdirectory. *)
Definition render_fs (shot : list dir_entry) : filesystem :=
  {| listdir := fun path =>
       if String.eqb path "/renders/shot" then shot
       else if String.eqb path "/renders/empty" then
         [ {| entry_name := ".DS_Store"; entry_is_file := true |};
           {| entry_name := "cache"; entry_is_file := false |} ]
       else [];
     glob_dirs := fun _ => [] |}.

(** ** tracker.get_sam2_predictor and tracker.get_sam2_image_predictor *)

Inductive device : Type := cuda | mps | cpu.

(** What [import torch] finds. *)
Record torch_env : Type := mk_torch_env {
  torch_importable : bool;
  cuda_is_available : bool;
  backends_has_mps : bool;
  mps_is_available : bool
}.

Definition _get_device (t : torch_env) : device :=
  if torch_importable t then
    if cuda_is_available t then cuda
    else if backends_has_mps t && mps_is_available t then mps
    else cpu
  else cpu.

Inductive checkpoint : Type := hiera_large | hiera_small.

(** The world outside the process: whether the [sam2] package can be
    imported, and what [from_pretrained] gives for each checkpoint, [None]
    when it raises. [V] is the video predictor, [I] the image predictor. *)
Record sam2_env (V I : Type) : Type := mk_sam2_env {
  torch : torch_env;
  sam2_importable : bool;
  video_from_pretrained : checkpoint -> device -> option V;
  image_from_pretrained : checkpoint -> device -> option I
}.
Arguments torch {V I} s.
Arguments sam2_importable {V I} s.
Arguments video_from_pretrained {V I} s.
Arguments image_from_pretrained {V I} s.

(** [_model_cache]: for each of its two keys, [None] while the key is
    missing and otherwise the value stored, itself [None] or a predictor. *)
Record model_cache (V I : Type) : Type := mk_model_cache {
  cache_predictor : option (option V);
  cache_image_predictor : option (option I)
}.
Arguments mk_model_cache {V I} cache_predictor cache_image_predictor.
Arguments cache_predictor {V I} m.
Arguments cache_image_predictor {V I} m.

(** The large checkpoint, then the small one: the predictor obtained, and
    the checkpoints [from_pretrained] was called with. *)
Definition load_with_fallback {P : Type}
    (from_pretrained : checkpoint -> device -> option P) (d : device)
    : option P * list checkpoint :=
  match from_pretrained hiera_large d with
  | Some p => (Some p, [hiera_large])
  | None =>
      match from_pretrained hiera_small d with
      | Some p => (Some p, [hiera_large; hiera_small])
      | None => (None, [hiera_large; hiera_small])
      end
  end.

(** The value returned, the cache afterwards, and the checkpoints loading
    was attempted for. *)
Definition get_sam2_predictor {V I : Type} (env : sam2_env V I)
    (cache : model_cache V I)
    : option V * model_cache V I * list checkpoint :=
  match cache_predictor cache with
  | Some predictor => (predictor, cache, [])
  | None =>
      let d := _get_device (torch env) in
      let '(predictor, tried) :=
        if sam2_importable env
        then load_with_fallback (video_from_pretrained env) d
        else (None, []) in
      (predictor,
       {| cache_predictor := Some predictor;
          cache_image_predictor := cache_image_predictor cache |},
       tried)
  end.

Definition get_sam2_image_predictor {V I : Type} (env : sam2_env V I)
    (cache : model_cache V I)
    : option I * model_cache V I * list checkpoint :=
  match cache_image_predictor cache with
  | Some predictor => (predictor, cache, [])
  | None =>
      let d := _get_device (torch env) in
      let '(predictor, tried) :=
        if sam2_importable env
        then load_with_fallback (image_from_pretrained env) d
        else (None, []) in
      (predictor,
       {| cache_predictor := cache_predictor cache;
          cache_image_predictor := Some predictor |},
       tried)
  end.

(** A machine without the [sam2] package, and one where only the small
    checkpoint loads. *)
Definition bare_env : sam2_env nat nat :=
  {| torch := {| torch_importable := false; cuda_is_available := false;
                 backends_has_mps := false; mps_is_available := false |};
     sam2_importable := false;
     video_from_pretrained := fun _ _ => None;
     image_from_pretrained := fun _ _ => None |}.

Definition small_env : sam2_env nat nat :=
  {| torch := {| torch_importable := true; cuda_is_available := false;
                 backends_has_mps := true; mps_is_available := true |};
     sam2_importable := true;
     video_from_pretrained :=
       fun c _ => match c with hiera_large => None | hiera_small => Some 1%nat end;
     image_from_pretrained :=
       fun c _ => match c with hiera_large => None | hiera_small => Some 2%nat end |}.

(** ** supertracery.run_segment_and_track, from the frames directory on *)

(** The disk as the run sees it: the file system that [glob] reads, what
    [cv2.imread(path)] reads from a path and what
    [cv2.imread(path, cv2.IMREAD_GRAYSCALE)] reads, [None] for a file that
    cannot be decoded. *)
Record disk : Type := mk_disk {
  files : filesystem;
  imread : string -> option Image;
  imread_gray : string -> option (ndarray Z)
}.

(** The whole of [run_segment_and_track(config)]: [image_predictor] and
    [video_predictor] are what [get_sam2_image_predictor()] and
    [get_sam2_predictor()] return (for the latter, what it yields for this
    run). [Ok None] is a run that printed [ERROR:...] and returned without
    writing results; [Ok (Some objects)] is a run that wrote [objects] to
    [results.json]. *)
Definition run_segment_and_track_config {cv : Cv2} {ff : FloodFill}
    (d : disk) (image_predictor : option ImagePredictor)
    (video_predictor : option (list video_item))
    (frames_dir : string) (click_points : list click_point)
    (comp_width comp_height : Z)
    : result (option (list (Z * list frame_data))) :=
  let frame_paths := load_frames (files d) frames_dir in
  match frame_paths with
  | [] => Ok None
  | first :: _ =>
      initial_masks <- segment_single_frame image_predictor (imread d first)
                         click_points ;;
      match initial_masks with
      | [] => Ok None
      | _ :: _ =>
          all_masks <- propagate_masks video_predictor
                         (map (imread_gray d) frame_paths)
                         (map (fun kv => (kv.1, Some kv.2)) initial_masks) ;;
          run_segment_and_track (map (imread d) frame_paths) initial_masks
            all_masks comp_width comp_height
      end
  end.

(** The render folder on disk: every frame is a uniform 10 x 10 picture,
    and nothing else under [/renders/shot] is a picture. *)
Definition render_disk : disk :=
  {| files := render_fs render_folder;
     imread := fun path =>
       if String.prefix "/renders/shot/st_frame_" path
       then Some (uniform_image 10 10) else None;
     imread_gray := fun path =>
       if String.prefix "/renders/shot/st_frame_" path
       then Some (np_zeros 10 10) else None |}.

(** What the run over the render folder writes, without SAM2. *)
Definition render_objects : list (Z * list frame_data) :=
  match run_segment_and_track_config (cv := Reference.static_scene)
          (ff := block_fill) render_disk None None "/renders/shot/"
          two_objects 10 10 with
  | Ok (Some objects) => objects
  | _ => []
  end.

(** Motion vectors whose components lie between integer bounds. *)
Definition motion_within (lox hix loy hiy : Z) (d : frame_data) : Prop :=
  (inject_Z lox <= (motion_vector d).1 <= inject_Z hix)%Q /\
  (inject_Z loy <= (motion_vector d).2 <= inject_Z hiy)%Q.

(** A 12 x 8 mask of three blocks one above the other: a 2 x 2 block, then
    two 4 x 4 blocks. *)
Definition three_blocks : Mask :=
  mk_ndarray (12, 8)%nat
    [ [1; 1; 0; 0; 0; 0; 0; 0]; [1; 1; 0; 0; 0; 0; 0; 0];
      [0; 0; 0; 0; 0; 0; 0; 0];
      [1; 1; 1; 1; 0; 0; 0; 0]; [1; 1; 1; 1; 0; 0; 0; 0];
      [1; 1; 1; 1; 0; 0; 0; 0]; [1; 1; 1; 1; 0; 0; 0; 0];
      [0; 0; 0; 0; 0; 0; 0; 0];
      [0; 0; 0; 0; 1; 1; 1; 1]; [0; 0; 0; 0; 1; 1; 1; 1];
      [0; 0; 0; 0; 1; 1; 1; 1]; [0; 0; 0; 0; 1; 1; 1; 1] ].

(** Three grayscale frames, the second unreadable. *)
Definition hold_frames : list (option (ndarray Z)) :=
  [Some (np_zeros 4 4); None; Some (np_zeros 4 4)].

(** Two objects over three frames, listed with the larger id first: object
    7 is seen throughout, object 3 only in the last frame. *)
Definition pair_frames : list (option Image) :=
  replicate 3 (Some (uniform_image 1 4)).

Definition pair_masks : dict (list (option Mask)) :=
  [ (7, [Some (dot_mask 0); Some (dot_mask 1); Some (dot_mask 2)]);
    (3, [None; None; Some (dot_mask 3)]) ].

Definition pair_objects : list (Z * list frame_data) :=
  match run_segment_and_track (cv := Reference.static_scene)
          pair_frames [(7, dot_mask 0); (3, dot_mask 3)] pair_masks 4 1 with
  | Ok (Some objects) => objects
  | _ => []
  end.

(** The pixel [(x, y)] of the mask belongs to the object. *)
Definition object_pixel (mask : Mask) (x y : nat) : Prop :=
  exists v, (x, y, v) ∈ pixels mask /\ v <> 0.

(** * Properties *)

(** ** Loops *)

(** An invariant carried through a loop over [range(start, start + len)]. *)
Lemma for_each_seq_inv {St : Type} (body : St -> nat -> result St)
    (P : nat -> St -> Prop) (len start : nat) (st st' : St) :
  P start st ->
  (forall i s s', (start <= i < start + len)%nat ->
                  P i s -> body s i = Ok s' -> P (S i) s') ->
  for_each body (seq start len) st = Ok st' ->
  P (start + len)%nat st'.
Proof.
  revert start st. induction len as [|len IH]; intros start st Hst Hstep Hrun.
  - simpl in Hrun. injection Hrun as <-. by rewrite Nat.add_0_r.
  - simpl in Hrun. destruct (body st start) as [s1|e] eqn:Hb; [|done].
    simpl in Hrun. replace (start + S len)%nat with (S start + len)%nat by lia.
    apply (IH (S start) s1); [|intros i s s' Hi; apply Hstep; lia|done].
    apply (Hstep start st s1); [lia|done..].
Qed.

Lemma fold_left_inv {St X : Type} (f : St -> X -> St) (P : St -> Prop)
    (xs : list X) (st : St) :
  P st -> (forall s x, P s -> P (f s x)) -> P (fold_left f xs st).
Proof.
  revert st. induction xs as [|x xs IH]; intros st Hst Hstep; [done|].
  simpl. apply IH; auto.
Qed.

Lemma map_result_Forall2 {X Y : Type} (f : X -> result Y) (xs : list X)
    (ys : list Y) :
  map_result f xs = Ok ys -> Forall2 (fun x y => f x = Ok y) xs ys.
Proof.
  revert ys. induction xs as [|x xs IH]; intros ys Hrun; simpl in Hrun.
  - injection Hrun as <-. constructor.
  - destruct (f x) as [y|e] eqn:Hf; [|done]. simpl in Hrun.
    destruct (map_result f xs) as [ys'|e] eqn:Hm; [|done]. simpl in Hrun.
    injection Hrun as <-. constructor; auto.
Qed.

(** ** Smoothing keeps everything but the motion vectors *)

Lemma same_but_motion_refl (d : frame_data) : same_but_motion d d.
Proof. by repeat split. Qed.

Lemma same_but_motion_trans (a b c : frame_data) :
  same_but_motion a b -> same_but_motion b c -> same_but_motion a c.
Proof. unfold same_but_motion. intuition congruence. Qed.

Lemma same_but_motion_set (mv : vec2) (d : frame_data) :
  same_but_motion (set_motion_vector mv d) d.
Proof. by repeat split. Qed.

Lemma Forall2_same_but_motion_refl (l : list frame_data) :
  Forall2 same_but_motion l l.
Proof. induction l; constructor; auto using same_but_motion_refl. Qed.

Lemma alter_same_but_motion (mv : vec2) (i : nat) (l : list frame_data) :
  Forall2 same_but_motion (alter (set_motion_vector mv) i l) l.
Proof.
  revert i. induction l as [|d l IH]; intros [|i]; simpl.
  - constructor.
  - constructor.
  - constructor; [apply same_but_motion_set|apply Forall2_same_but_motion_refl].
  - constructor; [apply same_but_motion_refl|apply IH].
Qed.

Lemma Forall2_same_but_motion_trans (l1 l2 l3 : list frame_data) :
  Forall2 same_but_motion l1 l2 -> Forall2 same_but_motion l2 l3 ->
  Forall2 same_but_motion l1 l3.
Proof.
  intros H12. revert l3. induction H12; intros l3 H23; inversion H23; subst;
    constructor; eauto using same_but_motion_trans.
Qed.

Lemma smooth_at_same (n half : Z) (l : list frame_data) (i : nat) :
  Forall2 same_but_motion (smooth_at n half l i) l.
Proof.
  unfold smooth_at.
  destruct (window_sums l _ _) as [[vx vy] count].
  destruct (0 <? count);
    auto using alter_same_but_motion, Forall2_same_but_motion_refl.
Qed.

Lemma smooth_motion_vectors_same (frames_data : list frame_data) (window : Z) :
  Forall2 same_but_motion (smooth_motion_vectors frames_data window) frames_data.
Proof.
  unfold smooth_motion_vectors.
  destruct (_ <? window); [apply Forall2_same_but_motion_refl|].
  apply (fold_left_inv _ (fun l => Forall2 same_but_motion l frames_data)).
  - apply Forall2_same_but_motion_refl.
  - intros l i Hl.
    eapply Forall2_same_but_motion_trans; [apply smooth_at_same|done].
Qed.

Lemma smooth_motion_vectors_length (frames_data : list frame_data) (window : Z) :
  length (smooth_motion_vectors frames_data window) = length frames_data.
Proof. eapply Forall2_length, smooth_motion_vectors_same. Qed.

Lemma smooth_motion_vectors_short (frames_data : list frame_data) (window : Z) :
  Z.of_nat (length frames_data) < window ->
  smooth_motion_vectors frames_data window = frames_data.
Proof.
  intros Hshort. unfold smooth_motion_vectors.
  destruct (Z.ltb_spec (Z.of_nat (length frames_data)) window); [done|lia].
Qed.

(** C8. [smooth_motion_vectors] returns a list as long as its input; a track
    shorter than the window comes back exactly as it went in; and whatever
    the window, every entry keeps all its keys other than [motion_vector]. *)
Theorem smooth_motion_vectors_frame (frames_data : list frame_data)
    (window : Z) :
  length (smooth_motion_vectors frames_data window) = length frames_data /\
  (Z.of_nat (length frames_data) < window ->
   smooth_motion_vectors frames_data window = frames_data) /\
  Forall2 same_but_motion (smooth_motion_vectors frames_data window) frames_data.
Proof.
  split; [apply smooth_motion_vectors_length|].
  split; [|apply smooth_motion_vectors_same].
  apply smooth_motion_vectors_short.
Qed.

(** ** Smoothing reads what it has already written *)

Lemma smooth_at_length (n half : Z) (l : list frame_data) (i : nat) :
  length (smooth_at n half l i) = length l.
Proof. eapply Forall2_length, smooth_at_same. Qed.

Lemma smooth_at_lookup_ne (n half : Z) (l : list frame_data) (i j : nat) :
  i <> j -> smooth_at n half l i !! j = l !! j.
Proof.
  intros Hij. unfold smooth_at.
  destruct (window_sums l _ _) as [[vx vy] count].
  destruct (0 <? count); [|done]. by apply list_lookup_alter_ne.
Qed.

Lemma smooth_fold_lookup (n half : Z) (js : list nat) (l : list frame_data)
    (j : nat) :
  j ∉ js -> fold_left (smooth_at n half) js l !! j = l !! j.
Proof.
  revert l. induction js as [|i js IH]; intros l Hj; [done|].
  apply not_elem_of_cons in Hj as [Hji Hj].
  simpl. rewrite IH by done. apply smooth_at_lookup_ne. congruence.
Qed.

Lemma smooth_fold_length (n half : Z) (js : list nat) (l : list frame_data) :
  length (fold_left (smooth_at n half) js l) = length l.
Proof.
  apply (fold_left_inv _ (fun l' => length l' = length l)); [done|].
  intros l' i Hl'. by rewrite smooth_at_length.
Qed.

(** X1. The turn of the loop at index [i] works on a list whose entries before
    [i] are the smoothed ones and whose entries from [i] on are the original
    ones: a window reaches back into values the loop has already replaced. *)
Theorem smooth_motion_vectors_feedback (frames_data : list frame_data)
    (window : Z) (i : nat) :
  window <= Z.of_nat (length frames_data) ->
  (i < length frames_data)%nat ->
  let out := smooth_motion_vectors frames_data window in
  out !! i
  = smooth_at (Z.of_nat (length frames_data)) (window / 2)
      (take i out ++ drop i frames_data) i !! i.
Proof.
  intros Hwin Hi out. subst out. unfold smooth_motion_vectors.
  destruct (Z.ltb_spec (Z.of_nat (length frames_data)) window) as [?|_]; [lia|].
  set (n := Z.of_nat (length frames_data)). set (half := window / 2).
  set (len := length frames_data).
  assert (Hsplit : seq 0 len = seq 0 i ++ i :: seq (S i) (len - S i)).
  { replace len with (i + S (len - S i))%nat at 1 by lia.
    by rewrite seq_app. }
  rewrite Hsplit, fold_left_app. simpl.
  set (s_i := fold_left (smooth_at n half) (seq 0 i) frames_data).
  assert (Hs : take i (fold_left (smooth_at n half) (seq (S i) (len - S i))
                         (smooth_at n half s_i i))
               ++ drop i frames_data = s_i).
  { apply list_eq. intros j. destruct (decide (j < i)%nat) as [Hlt|Hge].
    - rewrite lookup_app_l by (rewrite length_take, smooth_fold_length,
        smooth_at_length; unfold s_i; rewrite smooth_fold_length; lia).
      rewrite lookup_take_lt by done.
      rewrite smooth_fold_lookup by (rewrite elem_of_seq; lia).
      apply smooth_at_lookup_ne. lia.
    - rewrite lookup_app_r by (rewrite length_take; lia).
      rewrite length_take, smooth_fold_length, smooth_at_length.
      unfold s_i at 1. rewrite smooth_fold_length.
      replace (i `min` length frames_data)%nat with i by lia.
      rewrite lookup_drop. replace (i + (j - i))%nat with j by lia.
      unfold s_i. symmetry. apply smooth_fold_lookup. rewrite elem_of_seq. lia. }
  rewrite Hs. apply smooth_fold_lookup. rewrite elem_of_seq. lia.
Qed.

(** The scenario track at index 2. *)
Lemma smooth_motion_vectors_feedback_witness :
  smooth_motion_vectors scenario_track 3 !! 2%nat
  = smooth_at (Z.of_nat (length scenario_track)) (3 / 2)
      (take 2 (smooth_motion_vectors scenario_track 3) ++ drop 2 scenario_track)
      2 !! 2%nat.
Proof.
  apply (smooth_motion_vectors_feedback scenario_track 3 2).
  - vm_compute. discriminate.
  - vm_compute. lia.
Defined.

(** C1, at the scenario of the specification. Index 1 is smoothed to 2.33
    before index 2 is reached, so index 2 gets round((2.33 + 4 + 2) / 3, 2)
    = 2.78 (139/50), not the 2.67 that the average of the original values
    1..3 rounds to. *)
Theorem smooth_scenario_index_2 :
  motion_vector <$> smooth_motion_vectors scenario_track 3 !! 2%nat
  = Some (139 # 50, 0)%Q /\
  map motion_vector (smooth_motion_vectors scenario_track 3)
  = [(1, 0); (233 # 100, 0); (139 # 50, 0); (159 # 100, 0); (4 # 5, 0)]%Q /\
  py_round ((2 + 4 + 2) / 3) 2 = (267 # 100)%Q.
Proof. vm_compute. auto. Qed.

(** ** The polygon of a mask *)

Lemma squeeze_tolist_vertices (approx : contour) :
  match squeeze_tolist approx with
  | Flat p => [p]
  | Nested ps => ps
  end = vertices approx.
Proof. by destruct approx as [p [|q ps]]. Qed.

Lemma epsilon_at_value (epsilon : Q) (k : nat) :
  (epsilon_at epsilon k == epsilon * (3 # 2) ^ Z.of_nat k)%Q.
Proof.
  revert epsilon. induction k as [|k IH]; intros epsilon.
  - simpl. ring.
  - simpl epsilon_at. rewrite IH, Nat2Z.inj_succ, <- Z.add_1_r.
    rewrite Qpower_plus by done. simpl. ring.
Qed.

Section Polygon.
Context {cv : Cv2}.

(** The loop returns the approximation of the first turn [k] that fits, or
    that of its last turn. *)
Lemma approx_loop_first (c : contour) (max_points : Z) (remaining k : nat)
    (epsilon : Q) :
  (k <= remaining)%nat ->
  (forall j, (j < k)%nat ->
     max_points < Z.of_nat (length (vertices (approxPolyDP c (epsilon_at epsilon j))))) ->
  k = remaining \/
    Z.of_nat (length (vertices (approxPolyDP c (epsilon_at epsilon k)))) <= max_points ->
  approx_loop c max_points epsilon remaining = approxPolyDP c (epsilon_at epsilon k).
Proof.
  revert remaining epsilon.
  induction k as [|k IH]; intros remaining epsilon Hk Hbefore Hfit.
  - destruct remaining as [|r]; [done|].
    destruct Hfit as [?|Hfit]; [done|].
    cbn [approx_loop epsilon_at] in *.
    by destruct (Z.leb_spec (Z.of_nat (length (vertices (approxPolyDP c epsilon))))
                            max_points); [|lia].
  - destruct remaining as [|r]; [lia|].
    pose proof (Hbefore O ltac:(lia)) as H0.
    cbn [approx_loop epsilon_at] in *.
    destruct (Z.leb_spec (Z.of_nat (length (vertices (approxPolyDP c epsilon))))
                         max_points); [lia|].
    apply IH; [lia| |].
    + intros j Hj. apply (Hbefore (S j)). lia.
    + destruct Hfit as [?|?]; [left; lia|by right].
Qed.

(** The polygon is the approximation the loop settles on, vertex for
    vertex. *)
Lemma mask_to_polygon_unfold (mask : Mask) (max_points : Z) (c0 : contour)
    (cs : list contour) :
  findContours mask = c0 :: cs ->
  _mask_to_polygon mask max_points
  = vertices (approx_loop (py_max contourArea c0 cs) max_points 2 19).
Proof.
  intros Hc. unfold _mask_to_polygon. rewrite Hc.
  apply squeeze_tolist_vertices.
Qed.

End Polygon.

(** ** The element [max] picks *)

Lemma py_max_cons {A : Type} (key : A -> Q) (x y : A) (xs : list A) :
  py_max key x (y :: xs)
  = py_max key (if Qlt_le_dec (key x) (key y) then y else x) xs.
Proof. reflexivity. Qed.

(** [max(xs, key=key)] splits the sequence at the element it returns:
    everything before it has a strictly smaller key, nothing after it a
    larger one. *)
Lemma py_max_first {A : Type} (key : A -> Q) (x : A) (xs : list A) :
  exists before after,
    x :: xs = before ++ py_max key x xs :: after /\
    (forall y, y ∈ before -> (key y < key (py_max key x xs))%Q) /\
    (forall y, y ∈ after -> (key y <= key (py_max key x xs))%Q).
Proof.
  revert x. induction xs as [|y xs IH]; intros x.
  - exists [], []. split; [done|]. split; intros z Hz; by apply elem_of_nil in Hz.
  - rewrite py_max_cons.
    destruct (Qlt_le_dec (key x) (key y)) as [Hlt|Hle].
    + destruct (IH y) as (before & after & Hsplit & Hb & Ha).
      exists (x :: before), after. split; [by rewrite Hsplit|]. split; [|done].
      intros z [->|Hz]%elem_of_cons; [|by apply Hb].
      destruct before as [|b before].
      * injection Hsplit as <- _. done.
      * injection Hsplit as <- _.
        eapply Qlt_trans; [done|]. apply Hb. left.
    + destruct (IH x) as (before & after & Hsplit & Hb & Ha).
      destruct before as [|b before].
      * injection Hsplit as Hx Hxs. exists [], (y :: after).
        split; [by rewrite <- Hx, Hxs|]. split; [done|].
        intros z [->|Hz]%elem_of_cons; [by rewrite <- Hx|by apply Ha].
      * injection Hsplit as <- Hxs. exists (x :: y :: before), after.
        split; [simpl; do 2 f_equal; exact Hxs|]. split; [|done].
        intros z [->|[->|Hz]%elem_of_cons]%elem_of_cons.
        -- apply Hb. left.
        -- eapply Qle_lt_trans; [done|]. apply Hb. left.
        -- apply Hb. by right.
Qed.

(** C4. For a mask with at least one contour, [_mask_to_polygon] approximates
    the contour of largest area, the first such in the order
    [cv2.findContours] lists them: every contour before it is strictly
    smaller and none after it is larger. It approximates that contour with
    tolerances 2.0, 2.0 * 1.5, 2.0 * 1.5^2, ... for at most 20 turns, and
    returns the first approximation with at most [max_points] vertices,
    which is then within the cap; when none of the 20 fits it returns the
    last one, whatever its length. *)
Theorem mask_to_polygon_iterates {cv : Cv2} (mask : Mask) (max_points : Z)
    (c0 : contour) (cs : list contour) :
  findContours mask = c0 :: cs ->
  exists before c after,
    c0 :: cs = before ++ c :: after /\
    (forall c', c' ∈ before -> (contourArea c' < contourArea c)%Q) /\
    (forall c', c' ∈ after -> (contourArea c' <= contourArea c)%Q) /\
    let attempt k := vertices (approxPolyDP c (epsilon_at 2 k)) in
    (forall k, (epsilon_at 2 k == 2 * (3 # 2) ^ Z.of_nat k)%Q) /\
    (forall k, (k < 20)%nat ->
       Z.of_nat (length (attempt k)) <= max_points ->
       (forall j, (j < k)%nat -> max_points < Z.of_nat (length (attempt j))) ->
       _mask_to_polygon mask max_points = attempt k /\
       Z.of_nat (length (_mask_to_polygon mask max_points)) <= max_points) /\
    ((forall k, (k < 20)%nat -> max_points < Z.of_nat (length (attempt k))) ->
     _mask_to_polygon mask max_points = attempt 19%nat).
Proof.
  intros Hc.
  destruct (py_max_first contourArea c0 cs) as (before & after & Hs & Hb & Ha).
  exists before, (py_max contourArea c0 cs), after.
  split; [done|]. split; [done|]. split; [done|].
  intros attempt. split; [intros k; apply epsilon_at_value|].
  split.
  - intros k Hk Hfit Hbefore.
    assert (Hp : _mask_to_polygon mask max_points = attempt k).
    { rewrite (mask_to_polygon_unfold _ _ _ _ Hc). unfold attempt. f_equal.
      apply approx_loop_first; [lia|done|by right]. }
    by rewrite Hp.
  - intros Hnone. rewrite (mask_to_polygon_unfold _ _ _ _ Hc).
    unfold attempt. f_equal.
    apply approx_loop_first; [lia| |by left].
    intros j Hj. apply Hnone. lia.
Qed.

(** Three blocks, of areas 1, 9 and 9, capped at 3 vertices: the second
    contour is the one approximated; its four corners survive tolerance 2,
    and at tolerance 3 its diagonal is all that is left. *)
Lemma mask_to_polygon_iterates_witness :
  findContours (Cv2 := Reference.banded_scene) three_blocks
  = [ ((0, 0), [(0, 1); (1, 1); (1, 0)]);
      ((0, 3), [(0, 6); (3, 6); (3, 3)]);
      ((4, 8), [(4, 11); (7, 11); (7, 8)]) ] /\
  _mask_to_polygon (cv := Reference.banded_scene) three_blocks 3
  = [(0, 3); (3, 6)] /\
  Z.of_nat (length (_mask_to_polygon (cv := Reference.banded_scene)
                      three_blocks 3)) <= 3.
Proof.
  split; [reflexivity|].
  destruct (mask_to_polygon_iterates (cv := Reference.banded_scene)
              three_blocks 3 ((0, 0), [(0, 1); (1, 1); (1, 0)])
              [ ((0, 3), [(0, 6); (3, 6); (3, 3)]);
                ((4, 8), [(4, 11); (7, 11); (7, 8)]) ] eq_refl)
    as (before & c & after & Hsplit & Hb & Ha & _ & Hfirst & _).
  assert (Hc : c = ((0, 3), [(0, 6); (3, 6); (3, 3)])).
  { destruct before as [|c1 [|c2 [|c3 before]]]; simpl in Hsplit.
    - injection Hsplit as <- <-. exfalso.
      assert (Hle := Ha ((0, 3), [(0, 6); (3, 6); (3, 3)])
                       ltac:(apply list_elem_of_here)).
      revert Hle. vm_compute. intros Hle. by apply Hle.
    - by injection Hsplit as _ <- _.
    - injection Hsplit as <- <- <- <-. exfalso.
      assert (Hlt := Hb ((0, 3), [(0, 6); (3, 6); (3, 3)])
                       ltac:(apply list_elem_of_further, list_elem_of_here)).
      revert Hlt. vm_compute. discriminate.
    - injection Hsplit as _ _ _ Hnil. by destruct before. }
  subst c. apply (Hfirst 1%nat).
  - lia.
  - vm_compute. discriminate.
  - intros j Hj. destruct j as [|j]; [vm_compute; reflexivity|lia].
Defined.

(** C5, refuted: the contour of the corner block has 4 vertices, well under
    the cap of 64, and yet the polygon returned is a single vertex. *)
Lemma mask_to_polygon_lossy :
  findContours (Cv2 := Reference.static_scene) corner_block
  = [((0, 0), [(0, 1); (1, 1); (1, 0)])] /\
  _mask_to_polygon (cv := Reference.static_scene) corner_block 64 = [(0, 0)].
Proof. split; reflexivity. Qed.

(** C5, amended. When the approximation at tolerance 2.0 of the largest
    contour has at most [max_points] vertices, [_mask_to_polygon] returns
    that approximation; the contour itself comes back exactly when that
    approximation left it unchanged. *)
Theorem mask_to_polygon_first_turn {cv : Cv2} (mask : Mask) (max_points : Z)
    (c0 : contour) (cs : list contour) :
  findContours mask = c0 :: cs ->
  let c := py_max contourArea c0 cs in
  Z.of_nat (length (vertices (approxPolyDP c 2))) <= max_points ->
  _mask_to_polygon mask max_points = vertices (approxPolyDP c 2) /\
  (_mask_to_polygon mask max_points = vertices c <-> approxPolyDP c 2 = c).
Proof.
  intros Hc c Hfit.
  assert (Hp : _mask_to_polygon mask max_points = vertices (approxPolyDP c 2)).
  { rewrite (mask_to_polygon_unfold _ _ _ _ Hc). f_equal.
    apply (approx_loop_first c max_points 19 0 2); [lia|intros j; lia|by right]. }
  split; [done|]. rewrite Hp. split; [|by intros ->].
  unfold vertices. intros Hv. destruct (approxPolyDP c 2), c. simpl in Hv.
  congruence.
Qed.

(** The full mask under the cap of 64: its four corners survive tolerance
    2.0. *)
Lemma mask_to_polygon_first_turn_witness :
  _mask_to_polygon (cv := Reference.static_scene) full_mask 64
  = [(0, 0); (0, 9); (9, 9); (9, 0)] /\
  (_mask_to_polygon (cv := Reference.static_scene) full_mask 64
   = [(0, 0); (0, 9); (9, 9); (9, 0)]
   <-> Reference.ref_approxPolyDP ((0, 0), [(0, 9); (9, 9); (9, 0)]) 2
       = ((0, 0), [(0, 9); (9, 9); (9, 0)])).
Proof.
  apply (mask_to_polygon_first_turn (cv := Reference.static_scene)
           full_mask 64 ((0, 0), [(0, 9); (9, 9); (9, 0)]) [] eq_refl).
  vm_compute. discriminate.
Defined.

(** ** An all-zero mask *)

Lemma concat_imap_Forall {A B : Type} (P : B -> Prop) (Q : A -> Prop)
    (f : nat -> A -> list B) (l : list A) :
  (forall i a, Q a -> Forall P (f i a)) -> Forall Q l ->
  Forall P (concat (imap f l)).
Proof.
  intros Hf Hl. revert f Hf. induction Hl as [|a l Ha Hl IH]; intros f Hf.
  - constructor.
  - simpl. apply Forall_app. split; [by apply Hf|].
    apply IH. intros i b. apply Hf.
Qed.

Lemma imap_Forall {A B : Type} (P : B -> Prop) (Q : A -> Prop)
    (f : nat -> A -> B) (l : list A) :
  (forall i a, Q a -> P (f i a)) -> Forall Q l -> Forall P (imap f l).
Proof.
  intros Hf Hl. revert f Hf. induction Hl as [|a l Ha Hl IH]; intros f Hf.
  - constructor.
  - simpl. constructor; [by apply Hf|]. apply IH. intros i b. apply Hf.
Qed.

Lemma pixels_np_zeros (h w : nat) :
  Forall (fun p => p.2 = 0) (pixels (np_zeros h w)).
Proof.
  unfold pixels, np_zeros. simpl.
  apply (concat_imap_Forall _ (Forall (fun v => v = 0))).
  - intros y row Hrow. by apply (imap_Forall _ (fun v => v = 0)).
  - apply Forall_replicate. by apply Forall_replicate.
Qed.

Lemma sum_Z_zero {A : Type} (f : A -> Z) (l : list A) :
  Forall (fun a => f a = 0) l -> sum_Z (map f l) = 0.
Proof. induction 1 as [|a l Ha Hl IH]; simpl; [done|lia]. Qed.

Lemma filter_none {A : Type} (P : A -> Prop) `{forall a, Decision (P a)}
    (l : list A) :
  Forall (fun a => ~ P a) l -> filter P l = [].
Proof.
  induction 1 as [|a l Ha Hl IH]; [done|].
  rewrite filter_cons. by destruct (decide (P a)).
Qed.

Lemma zip_Forall_r {A B : Type} (P : B -> Prop) (l : list A) (k : list B) :
  Forall P k -> Forall (fun ab => P ab.2) (zip l k).
Proof.
  intros Hk. revert l. induction Hk as [|b k Hb Hk IH]; intros [|a l]; simpl;
    constructor; auto.
Qed.

Lemma moments_np_zeros (h w : nat) :
  moments (np_zeros h w) = {| m00 := 0; m10 := 0; m01 := 0 |}.
Proof.
  pose proof (pixels_np_zeros h w) as Hz. unfold moments. f_equal.
  - apply sum_Z_zero. done.
  - apply sum_Z_zero. eapply Forall_impl; [done|]. simpl. intros p ->. lia.
  - apply sum_Z_zero. eapply Forall_impl; [done|]. simpl. intros p ->. lia.
Qed.

Lemma findNonZero_np_zeros (h w : nat) : findNonZero (np_zeros h w) = None.
Proof.
  unfold findNonZero. rewrite filter_none; [done|].
  eapply Forall_impl; [apply pixels_np_zeros|]. simpl. intros p -> Hp. done.
Qed.

Lemma count_positive_np_zeros (h w : nat) : count_positive (np_zeros h w) = 0.
Proof.
  unfold count_positive. rewrite filter_none; [done|].
  eapply Forall_impl; [apply pixels_np_zeros|]. simpl. intros p ->. lia.
Qed.

Lemma bool_index_np_zeros (gray : ndarray Z) (h w : nat) :
  shape gray = (h, w) -> bool_index gray (np_zeros h w) = Ok [].
Proof.
  intros Hs. unfold bool_index. rewrite decide_True by done.
  rewrite filter_none; [done|].
  eapply Forall_impl; [apply zip_Forall_r, pixels_np_zeros|].
  simpl. intros p ->. lia.
Qed.

(** ** Rounding *)

Lemma round_half_even_Z (q : Q) (z : Z) :
  (q == inject_Z z)%Q -> round_half_even q = z.
Proof.
  intros Hq. unfold round_half_even.
  assert (Hf : Qfloor q = z) by (rewrite Hq; apply Qfloor_Z).
  rewrite Hf.
  assert (Hc : ((q - inject_Z z) ?= (1 # 2))%Q = Lt).
  { rewrite <- Qlt_alt. rewrite Hq. by ring_simplify. }
  by rewrite Hc.
Qed.

(** Rounding a half-integer to 2 decimal places leaves its value. *)
Lemma py_round_half (n : Z) :
  (py_round (inject_Z n / 2) 2 == inject_Z n / 2)%Q.
Proof.
  unfold py_round. rewrite Qred_correct.
  rewrite (round_half_even_Z _ (50 * n)).
  - change (inject_Z (10 ^ Z.of_nat 2)) with (inject_Z 100).
    rewrite inject_Z_mult. field.
  - change (inject_Z (10 ^ Z.of_nat 2)) with (inject_Z 100).
    rewrite inject_Z_mult. field.
Qed.

(** C6. On a readable frame of size H x W and the all-zero mask of that
    size, [analyze_frame] returns centroid (W/2, H/2), bbox (0, 0, W, H),
    area 0 and avg_luma 0.0. *)
Theorem analyze_frame_zero_mask {cv : Cv2} (image : Image) (H W : nat)
    (prev_centroid : option vec2) :
  shape image = (H, W) ->
  exists a,
    analyze_frame (Some image) (np_zeros H W) prev_centroid = Ok a /\
    ((Analysis.centroid a).1 == inject_Z (Z.of_nat W) / 2)%Q /\
    ((Analysis.centroid a).2 == inject_Z (Z.of_nat H) / 2)%Q /\
    Analysis.bbox a = (0, 0, Z.of_nat W, Z.of_nat H) /\
    Analysis.area a = 0 /\
    Analysis.avg_luma a = 0%Q.
Proof.
  intros Hshape. unfold analyze_frame.
  change (shape (np_zeros H W)) with (H, W).
  rewrite moments_np_zeros, findNonZero_np_zeros, count_positive_np_zeros.
  cbn [m00 Z.ltb Z.compare cvtColor_gray bind].
  rewrite bool_index_np_zeros by done.
  cbn [bind length Nat.ltb Nat.leb].
  eexists. split; [reflexivity|]. cbn [Analysis.centroid Analysis.bbox
    Analysis.area Analysis.avg_luma fst snd].
  repeat split; apply py_round_half.
Qed.

(** A 3 x 4 frame and the all-zero mask of its size. *)
Lemma analyze_frame_zero_mask_witness :
  exists a,
    analyze_frame (cv := Reference.static_scene) (Some (uniform_image 3 4))
      (np_zeros 3 4) None = Ok a /\
    ((Analysis.centroid a).1 == inject_Z (Z.of_nat 4) / 2)%Q /\
    ((Analysis.centroid a).2 == inject_Z (Z.of_nat 3) / 2)%Q /\
    Analysis.bbox a = (0, 0, Z.of_nat 4, Z.of_nat 3) /\
    Analysis.area a = 0 /\
    Analysis.avg_luma a = 0%Q.
Proof.
  apply (analyze_frame_zero_mask (cv := Reference.static_scene)
           (uniform_image 3 4) 3 4 None).
  reflexivity.
Defined.

(** ** The analysis loop of the orchestrator *)

Lemma getitem_Ok {A : Type} (l : list A) (i : nat) (a : A) :
  getitem l i = Ok a <-> l !! i = Some a.
Proof. unfold getitem. destruct (l !! i); split; congruence. Qed.

Lemma last_present_lt (masks_list : list (option Mask)) (i j : nat) :
  last_present masks_list i = Some j -> (j < i)%nat.
Proof.
  induction i as [|i IH]; simpl; [done|].
  destruct (masks_list !! i) as [[m|]|]; intros Hj;
    [injection Hj as <-; lia|apply IH in Hj; lia..].
Qed.

Lemma last_present_none (masks_list : list (option Mask)) (i : nat) :
  (forall j, (j < i)%nat -> masks_list !! j = Some None) ->
  last_present masks_list i = None.
Proof.
  induction i as [|i IH]; intros Habs; simpl; [done|].
  rewrite (Habs i) by lia. apply IH. intros j Hj. apply Habs. lia.
Qed.

Lemma last_present_some (masks_list : list (option Mask)) (i j : nat)
    (m : Mask) :
  (j < i)%nat -> masks_list !! j = Some (Some m) ->
  (forall k, (j < k < i)%nat -> masks_list !! k = Some None) ->
  last_present masks_list i = Some j.
Proof.
  induction i as [|i IH]; intros Hj Hm Habs; simpl; [lia|].
  destruct (decide (j = i)) as [->|Hne].
  - by rewrite Hm.
  - rewrite (Habs i) by lia. apply IH; [lia|done|].
    intros k Hk. apply Habs. lia.
Qed.

Section Orchestrator.
Context {cv : Cv2}.

(** [analyze_frame] measures motion from [prev_centroid] to the centroid it
    reports. *)
Lemma analyze_frame_motion (image : option Image) (mask : Mask)
    (prev_centroid : option vec2) (a : analysis) :
  analyze_frame image mask prev_centroid = Ok a ->
  Analysis.motion_vector a = motion_from (Analysis.centroid a) prev_centroid.
Proof.
  unfold analyze_frame. destruct (shape mask) as [h w].
  destruct (0 <? m00 (moments mask));
    (destruct (cvtColor_gray image) as [gray|e]; [|done]; simpl;
     destruct (bool_index gray mask) as [px|e]; [|done]; simpl;
     intros Ha; injection Ha as <-; by destruct prev_centroid).
Qed.

Variable frames : list (option Image).
Variable masks_list : list (option Mask).
Variables comp_width comp_height : Z.

Local Abbreviation reached := (analyzed masks_list comp_width comp_height).

Lemma analyzed_extend (k : nat) (prev : option vec2) (out : list frame_data)
    (e : frame_data) (i : nat) :
  length out = k -> (i <= k)%nat ->
  match last_present masks_list i with
  | Some j => centroid <$> (out ++ [e]) !! j
  | None => None
  end
  = match last_present masks_list i with
    | Some j => centroid <$> out !! j
    | None => None
    end.
Proof.
  intros Hlen Hi. destruct (last_present masks_list i) as [j|] eqn:Hj; [|done].
  apply last_present_lt in Hj. rewrite lookup_app_l by lia. done.
Qed.

Lemma analyze_step_analyzed (k : nat) (st st' : option vec2 * list frame_data) :
  reached k st ->
  analyze_step frames masks_list comp_width comp_height st k = Ok st' ->
  reached (S k) st'.
Proof.
  destruct st as [prev out]. intros (Hlen & Hprev & Hout) Hstep.
  simpl in Hlen, Hprev, Hout. unfold analyze_step in Hstep.
  destruct (getitem masks_list k) as [mask|e] eqn:Hmask; [|done].
  apply getitem_Ok in Hmask. simpl in Hstep.
  assert (Hold : forall e' i, (i < k)%nat ->
            exists e, (out ++ [e']) !! i = Some e /\ frame_index e = i /\
              (masks_list !! i = Some None ->
               e = default_frame comp_width comp_height i) /\
              (forall m, masks_list !! i = Some (Some m) ->
               motion_vector e
               = motion_from (centroid e)
                   (match last_present masks_list i with
                    | Some j => centroid <$> (out ++ [e']) !! j
                    | None => None
                    end))).
  { intros e' i Hi. destruct (Hout i Hi) as (e & He & Hidx & Hdef & Hmv).
    exists e. rewrite lookup_app_l by lia.
    rewrite (analyzed_extend k prev) by (done || lia). done. }
  destruct mask as [mask|].
  - destruct (getitem frames k) as [image|e] eqn:Himg; [|done]. simpl in Hstep.
    destruct (analyze_frame image mask prev) as [a|e] eqn:Ha; [|done].
    simpl in Hstep. injection Hstep as <-.
    set (fd := tracked_frame comp_width comp_height k a).
    assert (Hk : (out ++ [fd]) !! k = Some fd).
    { rewrite lookup_app_r by lia. by replace (k - length out)%nat with O by lia. }
    split; [simpl; rewrite length_app; simpl; lia|]. split.
    + simpl. rewrite Hmask, Hk. done.
    + simpl. intros i Hi. destruct (decide (i = k)) as [->|Hne].
      * exists fd. split; [done|]. split; [done|]. split; [congruence|].
        intros m _. rewrite (analyzed_extend k prev) by (done || lia).
        rewrite <- Hprev. simpl. by apply analyze_frame_motion in Ha.
      * apply Hold. lia.
  - injection Hstep as <-.
    set (fd := default_frame comp_width comp_height k).
    assert (Hk : (out ++ [fd]) !! k = Some fd).
    { rewrite lookup_app_r by lia. by replace (k - length out)%nat with O by lia. }
    split; [simpl; rewrite length_app; simpl; lia|]. split.
    + simpl. rewrite Hmask. rewrite (analyzed_extend k prev) by (done || lia).
      done.
    + simpl. intros i Hi. destruct (decide (i = k)) as [->|Hne].
      * exists fd. split; [done|]. split; [done|]. split; [done|].
        intros m Hm. congruence.
      * apply Hold. lia.
Qed.

Lemma analyze_frames_analyzed (raw : list frame_data) :
  analyze_frames frames masks_list comp_width comp_height = Ok raw ->
  exists prev, reached (length frames) (prev, raw).
Proof.
  unfold analyze_frames. intros Hrun.
  destruct (for_each _ _ _) as [[prev out]|e] eqn:Hloop; [|done].
  simpl in Hrun. injection Hrun as <-. exists prev.
  apply (for_each_seq_inv
           (analyze_step frames masks_list comp_width comp_height)
           reached (length frames) 0 (None, []) (prev, out));
    [|intros i s s' _; apply analyze_step_analyzed|done].
  split; [done|]. split; [done|]. intros i Hi. lia.
Qed.

End Orchestrator.

(** C10, refuted for the track a run returns: the first frame of the jump
    scenario is the first one with a mask, and its entry in the returned
    track has motion vector (1.5, 0.0), the smoothed value. *)
Lemma run_first_motion_smoothed :
  match run_segment_and_track (cv := Reference.static_scene)
          gap_frames [(0, dot_mask 0)] [(0, jump_masks)] 4 1 with
  | Ok (Some [(_, track)]) =>
      motion_vector <$> track !! 0%nat = Some (3 # 2, 0)%Q
  | _ => False
  end.
Proof. vm_compute. reflexivity. Qed.

(** C10, amended. In the entries the analysis loop builds, before they are
    smoothed, a frame with a mask measures its motion from the centroid of
    the latest earlier frame that had a mask, skipping the frames in between
    whose mask is absent (their default centroid is never the reference);
    when no earlier frame had a mask its motion vector is (0.0, 0.0). *)
Theorem analyze_frames_motion_reference {cv : Cv2}
    (frames : list (option Image)) (masks_list : list (option Mask))
    (comp_width comp_height : Z) (raw : list frame_data) (i : nat) (m : Mask) :
  analyze_frames frames masks_list comp_width comp_height = Ok raw ->
  (i < length frames)%nat ->
  masks_list !! i = Some (Some m) ->
  exists e, raw !! i = Some e /\
    ((forall j, (j < i)%nat -> masks_list !! j = Some None) ->
     motion_vector e = (0, 0)%Q) /\
    (forall j mj, (j < i)%nat -> masks_list !! j = Some (Some mj) ->
       (forall k, (j < k < i)%nat -> masks_list !! k = Some None) ->
       exists r, raw !! j = Some r /\
         motion_vector e
         = (py_round ((centroid e).1 - (centroid r).1) 2,
            py_round ((centroid e).2 - (centroid r).2) 2)).
Proof.
  intros Hrun Hi Hm.
  destruct (analyze_frames_analyzed _ _ _ _ _ Hrun) as (prev & Hlen & _ & Hall).
  simpl in Hlen, Hall.
  destruct (Hall i Hi) as (e & He & _ & _ & Hmv). specialize (Hmv m Hm).
  exists e. split; [done|]. split.
  - intros Habs. rewrite Hmv, (last_present_none _ _ Habs). done.
  - intros j mj Hj Hmj Habs.
    rewrite (last_present_some _ _ _ _ Hj Hmj Habs) in Hmv.
    destruct (Hall j ltac:(lia)) as (r & Hr & _). exists r. split; [done|].
    rewrite Hmv, Hr. done.
Qed.

(** The gap scenario: the last frame measures its motion from the first. *)
Lemma analyze_frames_motion_reference_witness :
  exists e, gap_raw !! 2%nat = Some e /\
    ((forall j, (j < 2)%nat -> gap_masks !! j = Some None) ->
     motion_vector e = (0, 0)%Q) /\
    (forall j mj, (j < 2)%nat -> gap_masks !! j = Some (Some mj) ->
       (forall k, (j < k < 2)%nat -> gap_masks !! k = Some None) ->
       exists r, gap_raw !! j = Some r /\
         motion_vector e
         = (py_round ((centroid e).1 - (centroid r).1) 2,
            py_round ((centroid e).2 - (centroid r).2) 2)).
Proof.
  apply (analyze_frames_motion_reference (cv := Reference.static_scene)
           gap_frames gap_masks 4 1 gap_raw 2 (dot_mask 3)).
  - vm_compute. reflexivity.
  - vm_compute. lia.
  - reflexivity.
Defined.

(** ** The tracks of a run *)

Lemma Forall2_elem_of_r {A B : Type} (R : A -> B -> Prop) (l : list A)
    (k : list B) (b : B) :
  Forall2 R l k -> b ∈ k -> exists a, a ∈ l /\ R a b.
Proof.
  induction 1 as [|a b' l k Hab Hlk IH]; intros Hb.
  - by apply elem_of_nil in Hb.
  - apply elem_of_cons in Hb as [->|Hb].
    + exists a. split; [left|done].
    + destruct (IH Hb) as (a' & Ha' & HR). exists a'. split; [by right|done].
Qed.

Lemma analyze_object_id {cv : Cv2} (frames : list (option Image))
    (all_masks : dict (list (option Mask))) (comp_width comp_height : Z)
    (obj_id : Z) (o : Z * list frame_data) :
  analyze_object frames all_masks comp_width comp_height obj_id = Ok o ->
  o.1 = obj_id.
Proof.
  unfold analyze_object.
  destruct (dict_getitem all_masks obj_id) as [ml|e]; [|done]. simpl.
  destruct (analyze_frames frames ml comp_width comp_height) as [raw|e];
    [|done].
  simpl. by intros [= <-].
Qed.

(** C3, refuted as stated: the middle frame of the gap scenario has no mask,
    and the entry the run returns for it has motion vector (1.0, 0.0), the
    smoothed value, not the zero of the default entry. *)
Lemma run_default_motion_smoothed :
  gap_masks !! 1%nat = Some None /\
  match run_segment_and_track (cv := Reference.static_scene)
          gap_frames [(0, dot_mask 0)] [(0, gap_masks)] 4 1 with
  | Ok (Some [(_, track)]) =>
      motion_vector <$> track !! 1%nat = Some (1, 0)%Q /\
      motion_vector (default_frame 4 1 1) = (0, 0)%Q
  | _ => False
  end.
Proof. vm_compute. auto. Qed.

(** C3, amended. A run that completes returns one track per object id of
    [all_masks], in increasing order of id; every track has exactly one
    entry per frame, entry [i] carrying [frame_index] [i]; the entry of a
    frame whose mask is absent equals the default entry in every key other
    than [motion_vector], and in that one too when the run has fewer than 3
    frames (smoothing is then a no-op). *)
Theorem run_segment_and_track_complete {cv : Cv2}
    (frames : list (option Image)) (initial_masks : dict Mask)
    (all_masks : dict (list (option Mask))) (comp_width comp_height : Z)
    (objects : list (Z * list frame_data)) :
  run_segment_and_track frames initial_masks all_masks comp_width comp_height
  = Ok (Some objects) ->
  map fst objects = sorted_keys all_masks /\
  forall obj track, (obj, track) ∈ objects ->
    length track = length frames /\
    exists masks_list,
      dict_getitem all_masks obj = Ok masks_list /\
      forall i, (i < length frames)%nat ->
        exists e, track !! i = Some e /\ frame_index e = i /\
          (masks_list !! i = Some None ->
           same_but_motion e (default_frame comp_width comp_height i) /\
           ((length frames < 3)%nat ->
            e = default_frame comp_width comp_height i)).
Proof.
  intros Hrun.
  assert (Hobjs : Forall2
            (fun k o => analyze_object frames all_masks comp_width comp_height k
                        = Ok o) (sorted_keys all_masks) objects).
  { unfold run_segment_and_track in Hrun. apply map_result_Forall2.
    destruct frames as [|f fs]; [done|].
    destruct initial_masks as [|im ims]; [done|].
    destruct (map_result _ _) as [objs|e]; [|done].
    simpl in Hrun. by injection Hrun as <-. }
  split.
  { clear Hrun. induction Hobjs as [|k o ks os Ho Hos IH]; [done|].
    simpl. f_equal; [by apply analyze_object_id in Ho|done]. }
  intros obj track Hin.
  destruct (Forall2_elem_of_r _ _ _ _ Hobjs Hin) as (k & _ & Hk).
  pose proof (analyze_object_id _ _ _ _ _ _ Hk) as Hid. simpl in Hid. subst k.
  unfold analyze_object in Hk.
  destruct (dict_getitem all_masks obj) as [masks_list|e]; [|done].
  simpl in Hk.
  destruct (analyze_frames frames masks_list comp_width comp_height)
    as [raw|e] eqn:Hraw; [|done].
  simpl in Hk. injection Hk as <-.
  destruct (analyze_frames_analyzed _ _ _ _ _ Hraw) as (prev & Hlen & _ & Hall).
  simpl in Hlen, Hall.
  split; [by rewrite smooth_motion_vectors_length|].
  exists masks_list. split; [done|]. intros i Hi.
  destruct (Hall i Hi) as (r & Hr & Hidx & Hdef & _).
  pose proof (smooth_motion_vectors_same raw 3) as Hsame.
  destruct (Forall2_lookup_r _ _ _ _ _ Hsame Hr) as (e & He & Her).
  exists e. split; [done|]. split.
  { destruct Her as (Hfi & _). congruence. }
  intros Habs. rewrite <- (Hdef Habs). split; [done|].
  intros Hshort. rewrite smooth_motion_vectors_short in He by lia. congruence.
Qed.

(** The run over the gap scenario. *)
Lemma run_segment_and_track_complete_witness :
  exists objects,
    run_segment_and_track (cv := Reference.static_scene)
      gap_frames [(0, dot_mask 0)] [(0, gap_masks)] 4 1 = Ok (Some objects) /\
    map fst objects = sorted_keys [(0, gap_masks)] /\
    forall obj track, (obj, track) ∈ objects ->
      length track = length gap_frames /\
      exists masks_list,
        dict_getitem [(0, gap_masks)] obj = Ok masks_list /\
        forall i, (i < length gap_frames)%nat ->
          exists e, track !! i = Some e /\ frame_index e = i /\
            (masks_list !! i = Some None ->
             same_but_motion e (default_frame 4 1 i) /\
             ((length gap_frames < 3)%nat -> e = default_frame 4 1 i)).
Proof.
  eexists. split; [vm_compute; reflexivity|].
  apply (run_segment_and_track_complete (cv := Reference.static_scene)
           gap_frames [(0, dot_mask 0)] [(0, gap_masks)] 4 1).
  vm_compute. reflexivity.
Defined.

(** ** Fallback propagation *)

Lemma setitem_Ok {A : Type} (l l' : list A) (i : nat) (v : A) :
  setitem l i v = Ok l' -> (i < length l)%nat /\ l' = <[i := v]> l.
Proof. unfold setitem. destruct (decide _); [|done]. by intros [= <-]. Qed.

Lemma map_values_Forall2 {V W : Type} (f : V -> result W) (d : dict V)
    (d' : dict W) :
  map_values f d = Ok d' ->
  Forall2 (fun kv kv' => kv'.1 = kv.1 /\ f kv.2 = Ok kv'.2) d d'.
Proof.
  intros Hrun. apply map_result_Forall2 in Hrun.
  eapply Forall2_impl; [done|]. simpl. intros kv kv' Hkv.
  destruct (f kv.2) as [w|e]; [|done]. simpl in Hkv. by injection Hkv as <-.
Qed.

Section Fallback.
Context {cv : Cv2}.
Variable frames : list (option (ndarray Z)).
Variable total_frames : nat.

(** A turn that only writes index [k] keeps what earlier turns left. *)
Lemma step_done_insert (i k : nat) (v : option Mask) (l : list (option Mask)) :
  (1 <= i < k)%nat -> step_done frames i l -> step_done frames i (<[k := v]> l).
Proof.
  intros Hi. unfold step_done.
  rewrite !list_lookup_insert_ne by lia. done.
Qed.

Lemma copy_previous_done (k : nat) (l l' : list (option Mask)) :
  (1 <= k)%nat -> frames !! k = Some None ->
  copy_previous k l = Ok l' ->
  length l' = length l /\ step_done frames k l' /\
  exists v, l' = <[k := v]> l.
Proof.
  intros Hk Hframe. unfold copy_previous.
  destruct (getitem l (k - 1)) as [m|e] eqn:Hm; [|done].
  apply getitem_Ok in Hm. simpl. intros (Hlt & ->)%setitem_Ok.
  split; [by rewrite length_insert|]. split; [|by exists m].
  unfold step_done. rewrite Hframe. exists m.
  rewrite list_lookup_insert_eq by done.
  rewrite list_lookup_insert_ne by lia. done.
Qed.

Lemma propagate_object_done (k : nat) (pg g : ndarray Z)
    (l l' : list (option Mask)) :
  (1 <= k)%nat -> frames !! k = Some (Some g) ->
  gray_before frames k = Some pg ->
  propagate_object (calcOpticalFlowFarneback pg g) (shape pg).1 (shape pg).2 k l
  = Ok l' ->
  length l' = length l /\ step_done frames k l' /\
  exists v, l' = <[k := v]> l.
Proof.
  intros Hk Hframe Hpg. unfold propagate_object.
  destruct (getitem l (k - 1)) as [m|e] eqn:Hm; [|done].
  apply getitem_Ok in Hm. simpl.
  destruct m as [pm|]; intros (Hlt & ->)%setitem_Ok;
    (split; [by rewrite length_insert|]; split; [|by eexists]);
    unfold step_done; rewrite Hframe; exists pg; (split; [done|]);
    rewrite list_lookup_insert_ne by lia; rewrite Hm;
    by rewrite list_lookup_insert_eq.
Qed.

Lemma propagate_step_propagated (k : nat) (st st' : propagation) :
  (1 <= k)%nat ->
  propagated frames total_frames k st ->
  propagate_step frames total_frames st k = Ok st' ->
  propagated frames total_frames (S k) st'.
Proof.
  intros Hk (Hprev & Hmasks & Hev) Hstep. unfold propagate_step in Hstep.
  destruct (getitem frames k) as [curr|e] eqn:Hcurr; [|done].
  apply getitem_Ok in Hcurr. simpl in Hstep.
  assert (Hprinted : forall i, FLOW i ∈ events st ++ [PROGRESS (k + 1) total_frames] ->
            (i < S k)%nat /\ exists g, frames !! i = Some (Some g)).
  { intros i [Hi|Hi]%elem_of_app.
    - destruct (Hev i Hi) as [? ?]. split; [lia|done].
    - apply list_elem_of_singleton in Hi. done. }
  destruct curr as [g|].
  - destruct (prev_gray st) as [pg|] eqn:Hpg; [|done].
    destruct (shape pg) as [h w] eqn:Hshape.
    destruct (map_values _ (all_masks st)) as [masks|e] eqn:Hmap; [|done].
    simpl in Hstep. injection Hstep as <-.
    apply map_values_Forall2 in Hmap.
    split; [simpl; by rewrite Hcurr|]. split.
    + simpl. intros kv' Hin.
      destruct (Forall2_elem_of_r _ _ _ _ Hmap Hin) as (kv & Hkv & _ & Hobj).
      destruct (Hmasks kv Hkv) as [Hlen Hdone].
      replace h with (shape pg).1 in Hobj by (by rewrite Hshape).
      replace w with (shape pg).2 in Hobj by (by rewrite Hshape).
      apply (propagate_object_done k pg g) in Hobj as (Hlen' & Hnew & v & Hv);
        [|done|done|congruence].
      split; [congruence|]. intros i Hi.
      destruct (decide (i = k)) as [->|Hne]; [done|].
      rewrite Hv. apply step_done_insert; [lia|]. apply Hdone. lia.
    + simpl. intros i [Hi|Hi]%elem_of_app; [by apply Hprinted|].
      apply list_elem_of_singleton in Hi. injection Hi as ->.
      split; [lia|by exists g].
  - destruct (map_values _ (all_masks st)) as [masks|e] eqn:Hmap; [|done].
    simpl in Hstep. injection Hstep as <-.
    apply map_values_Forall2 in Hmap.
    split; [simpl; by rewrite Hcurr|]. split; [|done].
    simpl. intros kv' Hin.
    destruct (Forall2_elem_of_r _ _ _ _ Hmap Hin) as (kv & Hkv & _ & Hobj).
    destruct (Hmasks kv Hkv) as [Hlen Hdone].
    apply copy_previous_done in Hobj as (Hlen' & Hnew & v & Hv); [|done..].
    split; [congruence|]. intros i Hi.
    destruct (decide (i = k)) as [->|Hne]; [done|].
    rewrite Hv. apply step_done_insert; [lia|]. apply Hdone. lia.
Qed.

(** Every turn of the loop has left its mark on the masks returned. *)
Lemma fallback_propagate_done (initial_masks : dict (option Mask))
    (masks : dict (list (option Mask))) (evs : list event) :
  _fallback_propagate frames initial_masks total_frames = Ok (masks, evs) ->
  (forall kv, kv ∈ masks ->
     length kv.2 = total_frames /\
     forall i, (1 <= i < total_frames)%nat -> step_done frames i kv.2) /\
  (forall i, FLOW i ∈ evs -> exists g, frames !! i = Some (Some g)).
Proof.
  unfold _fallback_propagate. intros Hrun.
  destruct (map_values _ initial_masks) as [masks0|e] eqn:Hinit; [|done].
  simpl in Hrun.
  destruct (getitem frames 0) as [first|e] eqn:Hfirst; [|done].
  apply getitem_Ok in Hfirst. simpl in Hrun.
  destruct (for_each _ _ _) as [st|e] eqn:Hloop; [|done].
  simpl in Hrun. injection Hrun as <- <-.
  apply map_values_Forall2 in Hinit.
  apply (for_each_seq_inv (propagate_step frames total_frames)
           (propagated frames total_frames)) in Hloop.
  - destruct Hloop as (_ & Hmasks & Hev). split.
    + intros kv Hkv. destruct (Hmasks kv Hkv) as [Hlen Hdone].
      split; [done|]. intros i Hi. apply Hdone. lia.
    + intros i Hi. by destruct (Hev i Hi).
  - split; [|split].
    + simpl. rewrite Hfirst. by destruct first.
    + simpl. intros kv' Hin.
      destruct (Forall2_elem_of_r _ _ _ _ Hinit Hin) as (kv & _ & _ & Hset).
      apply setitem_Ok in Hset as [_ ->].
      rewrite length_insert, length_replicate. split; [done|]. intros i Hi. lia.
    + simpl. intros i Hi. by apply elem_of_nil in Hi.
  - intros i s s' Hi. apply propagate_step_propagated. lia.
Qed.

End Fallback.

(** ** What every turn of the propagation loop leaves alone *)

Lemma Forall2_compose {A B C : Type} (R : A -> B -> Prop) (S' : B -> C -> Prop)
    (T : A -> C -> Prop) (l : list A) (k : list B) (m : list C) :
  (forall a b c, R a b -> S' b c -> T a c) ->
  Forall2 R l k -> Forall2 S' k m -> Forall2 T l m.
Proof.
  intros HT Hlk. revert m. induction Hlk; intros m Hkm; inversion Hkm; subst;
    constructor; eauto.
Qed.

Lemma copy_previous_insert (k : nat) (l l' : list (option Mask)) :
  copy_previous k l = Ok l' -> exists v, l' = <[k := v]> l.
Proof.
  unfold copy_previous. destruct (getitem l (k - 1)) as [m|e]; [|done].
  simpl. intros (_ & ->)%setitem_Ok. by exists m.
Qed.

Lemma propagate_object_insert {cv : Cv2} (flow : Flow) (h w k : nat)
    (l l' : list (option Mask)) :
  propagate_object flow h w k l = Ok l' -> exists v, l' = <[k := v]> l.
Proof.
  unfold propagate_object. destruct (getitem l (k - 1)) as [[m|]|e]; [| |done];
    simpl; intros (_ & ->)%setitem_Ok; by eexists.
Qed.

(** Every turn of the loop rewrites one slot of every list and nothing
    else. *)
Lemma propagate_step_insert {cv : Cv2} (frames : list (option (ndarray Z)))
    (total_frames k : nat) (st st' : propagation) :
  propagate_step frames total_frames st k = Ok st' ->
  Forall2 (fun kv kv' => kv'.1 = kv.1 /\ exists v, kv'.2 = <[k := v]> kv.2)
          (all_masks st) (all_masks st') /\
  events st' = events st ++ turn_events frames total_frames k.
Proof.
  unfold propagate_step, turn_events. intros Hstep.
  destruct (getitem frames k) as [curr|e] eqn:Hcurr; [|done].
  apply getitem_Ok in Hcurr. rewrite Hcurr. simpl in Hstep.
  destruct curr as [g|].
  - destruct (prev_gray st) as [pg|]; [|done]. destruct (shape pg) as [h w].
    destruct (map_values _ (all_masks st)) as [masks|e] eqn:Hmap; [|done].
    simpl in Hstep. injection Hstep as <-. simpl.
    split; [|by rewrite <- app_assoc].
    apply map_values_Forall2 in Hmap. eapply Forall2_impl; [done|].
    simpl. intros kv kv' [Hk Hobj]. split; [done|].
    by apply propagate_object_insert in Hobj.
  - destruct (map_values _ (all_masks st)) as [masks|e] eqn:Hmap; [|done].
    simpl in Hstep. injection Hstep as <-. simpl. split; [|done].
    apply map_values_Forall2 in Hmap. eapply Forall2_impl; [done|].
    simpl. intros kv kv' [Hk Hobj]. split; [done|].
    by apply copy_previous_insert in Hobj.
Qed.

Lemma fallback_propagate_slot0 {cv : Cv2}
    (frames : list (option (ndarray Z))) (initial_masks : dict (option Mask))
    (total_frames : nat) (masks : dict (list (option Mask)))
    (evs : list event) :
  _fallback_propagate frames initial_masks total_frames = Ok (masks, evs) ->
  Forall2 (fun kv kv' => kv'.1 = kv.1 /\ kv'.2 !! 0%nat = Some kv.2)
          initial_masks masks.
Proof.
  unfold _fallback_propagate. intros Hrun.
  destruct (map_values _ initial_masks) as [masks0|e] eqn:Hinit; [|done].
  simpl in Hrun. destruct (getitem frames 0) as [first|e]; [|done].
  simpl in Hrun. destruct (for_each _ _ _) as [st|e] eqn:Hloop; [|done].
  simpl in Hrun. injection Hrun as <- <-.
  apply map_values_Forall2 in Hinit.
  apply (for_each_seq_inv (propagate_step frames total_frames)
           (fun _ st => Forall2
              (fun kv kv' => kv'.1 = kv.1 /\ kv'.2 !! 0%nat = Some kv.2)
              initial_masks (all_masks st))) in Hloop; [done| |].
  - simpl. eapply Forall2_impl; [done|]. simpl. intros kv kv' [Hk Hset].
    apply setitem_Ok in Hset as [Hlt ->]. split; [done|].
    by rewrite list_lookup_insert_eq.
  - intros i s s' Hi Hinv Hstep.
    apply propagate_step_insert in Hstep as [Hstep _].
    eapply Forall2_compose; [|done..]. simpl.
    intros a b c [Hk H0] [Hk' [v ->]]. split; [congruence|].
    rewrite list_lookup_insert_ne by lia. done.
Qed.

(** C2. Fallback propagation returns a list of masks for every object of
    [initial_masks], in the same order, that starts with the object's
    initial mask; and where frame [i >= 1] is unreadable, every object's
    mask at [i] is its mask at [i - 1], be it a mask or the absent one, and
    no optical flow is computed in that turn of the loop. *)
Theorem fallback_propagate_holds_last {cv : Cv2}
    (frames : list (option (ndarray Z))) (initial_masks : dict (option Mask))
    (total_frames : nat) (masks : dict (list (option Mask)))
    (evs : list event) (i : nat) :
  _fallback_propagate frames initial_masks total_frames = Ok (masks, evs) ->
  (1 <= i < total_frames)%nat ->
  frames !! i = Some None ->
  Forall2 (fun kv kv' =>
             kv'.1 = kv.1 /\ kv'.2 !! 0%nat = Some kv.2 /\
             exists m, kv'.2 !! i = Some m /\ kv'.2 !! (i - 1)%nat = Some m)
          initial_masks masks /\
  (forall obj l, (obj, l) ∈ masks ->
     exists m, l !! i = Some m /\ l !! (i - 1)%nat = Some m) /\
  FLOW i ∉ evs.
Proof.
  intros Hrun Hi Hframe.
  destruct (fallback_propagate_done _ _ _ _ _ Hrun) as [Hmasks Hev].
  assert (Hheld : forall obj l, (obj, l) ∈ masks ->
            exists m, l !! i = Some m /\ l !! (i - 1)%nat = Some m).
  { intros obj l Hin. destruct (Hmasks _ Hin) as [_ Hdone].
    specialize (Hdone i Hi). unfold step_done in Hdone.
    by rewrite Hframe in Hdone. }
  split; [|split; [done|]].
  - pose proof (fallback_propagate_slot0 _ _ _ _ _ Hrun) as Hslot.
    clear Hrun Hmasks Hev.
    induction Hslot as [|kv kv' d d' [Hk H0] Hrest IH]; constructor.
    + split; [done|]. split; [done|].
      apply (Hheld kv'.1 kv'.2). destruct kv'. left.
    + apply IH. intros obj l Hin. apply (Hheld obj l). by right.
  - intros Hflow. destruct (Hev i Hflow) as [g Hg]. congruence.
Qed.

(** Three frames, the second unreadable, and two objects, the second one
    without an initial mask: at index 1 the first object keeps its mask and
    the second stays absent, and the only optical flow is that of index 2. *)
Lemma fallback_propagate_holds_last_witness :
  Forall2 (fun kv kv' =>
             kv'.1 = kv.1 /\ kv'.2 !! 0%nat = Some kv.2 /\
             exists m, kv'.2 !! 1%nat = Some m /\
                       kv'.2 !! (1 - 1)%nat = Some m)
          [(7, Some corner_block); (3, None)]
          [(7, [Some corner_block; Some corner_block; Some corner_block]);
           (3, [None; None; Some (np_zeros 4 4)])] /\
  (forall obj l,
     (obj, l) ∈ [(7, [Some corner_block; Some corner_block; Some corner_block]);
                 (3, [None; None; Some (np_zeros 4 4)])] ->
     exists m, l !! 1%nat = Some m /\ l !! (1 - 1)%nat = Some m) /\
  FLOW 1 ∉ [PROGRESS 2 3; PROGRESS 3 3; FLOW 2].
Proof.
  apply (fallback_propagate_holds_last (cv := Reference.static_scene)
           hold_frames [(7, Some corner_block); (3, None)] 3
           [(7, [Some corner_block; Some corner_block; Some corner_block]);
            (3, [None; None; Some (np_zeros 4 4)])]
           [PROGRESS 2 3; PROGRESS 3 3; FLOW 2] 1).
  - vm_compute. reflexivity.
  - lia.
  - reflexivity.
Defined.



(** ** The query loop of the preview server *)

(** C9, refuted as stated: an empty input line gets no response line at all;
    of two input lines, one empty, one reply comes back. *)
Lemma query_loop_skips_blank :
  query_loop (cv := Reference.static_scene) (pr := Reference.digits_predictor)
    [empty_line] = ([], Closed) /\
  length (query_loop (cv := Reference.static_scene)
            (pr := Reference.digits_predictor) [empty_line; "45"%string]).1
  = 1%nat.
Proof. split; reflexivity. Qed.

(** C9, amended. With every line stripped of surrounding whitespace, the
    loop answers the non-blank lines that precede the first [QUIT], one
    reply each and in order, a failing request getting an error reply like
    any other; blank lines get no reply; and the loop ends on [QUIT] exactly
    when some line is [QUIT], otherwise when the input is exhausted. *)
Theorem query_loop_replies {cv : Cv2} {pr : Predictor} (stdin : list string) :
  let lines := map strip stdin in
  (query_loop stdin).1
  = map respond (List.filter nonblank (before_quit lines)) /\
  ((query_loop stdin).2 = Quit <-> "QUIT"%string ∈ lines) /\
  ((query_loop stdin).2 = Closed <-> "QUIT"%string ∉ lines) /\
  (forall line,
     (exists r, answer line = inr r /\ respond line = Reply r) \/
     (exists e, answer line = inl e /\ respond line = ErrorReply e)).
Proof.
  cbv zeta. split; [|split; [|split]].
  - induction stdin as [|line rest IH]; [done|].
    cbn [query_loop map before_quit].
    destruct (String.eqb_spec (strip line) EmptyString) as [Hblank|Hblank].
    + rewrite Hblank. cbn. apply IH.
    + destruct (String.eqb_spec (strip line) "QUIT") as [Hquit|Hquit]; [done|].
      destruct (query_loop rest) as [out e]. cbn [fst List.filter].
      unfold nonblank at 1.
      destruct (String.eqb_spec (strip line) EmptyString); [done|].
      cbn. f_equal. apply IH.
  - induction stdin as [|line rest IH].
    + cbn. split; [done|]. intros Hin. by apply elem_of_nil in Hin.
    + cbn [query_loop map].
      destruct (String.eqb_spec (strip line) EmptyString) as [Hblank|Hblank].
      * rewrite IH, elem_of_cons. rewrite Hblank.
        split; [by right|]. by intros [?|?].
      * destruct (String.eqb_spec (strip line) "QUIT") as [Hquit|Hquit].
        { rewrite Hquit. split; [intros _; left|done]. }
        destruct (query_loop rest) as [out e]. cbn [snd] in *.
        rewrite IH, elem_of_cons. split; [by right|]. by intros [?|?].
  - induction stdin as [|line rest IH].
    + cbn. split; [|done]. intros _ Hin. by apply elem_of_nil in Hin.
    + cbn [query_loop map].
      destruct (String.eqb_spec (strip line) EmptyString) as [Hblank|Hblank].
      * rewrite IH, not_elem_of_cons. rewrite Hblank.
        split; [done|]. by intros [_ ?].
      * destruct (String.eqb_spec (strip line) "QUIT") as [Hquit|Hquit].
        { rewrite Hquit, not_elem_of_cons. split; [done|]. by intros [? _]. }
        destruct (query_loop rest) as [out e]. cbn [snd] in *.
        rewrite IH, not_elem_of_cons. split; [done|]. by intros [_ ?].
  - intros line. unfold respond. destruct (answer line) as [e|r]; eauto.
Qed.

(** ** Further properties of a run *)

Lemma confidence_of_clamped (comp_width comp_height area : Z) :
  0 <= area ->
  (0 <= confidence_of comp_width comp_height area <= 1)%Q.
Proof.
  intros Harea. unfold confidence_of. split; [|apply Q.le_min_l].
  apply Q.min_glb; [done|].
  set (d := Qmax 1 _).
  assert (Hd : (0 < d)%Q).
  { apply Qlt_le_trans with 1%Q; [done|apply Q.le_max_l]. }
  apply Qle_shift_div_l; [done|]. rewrite Qmult_0_l.
  change 0%Q with (inject_Z 0). by rewrite <- Zle_Qle.
Qed.

Lemma analyze_frame_area {cv : Cv2} (image : option Image) (mask : Mask)
    (prev_centroid : option vec2) (a : analysis) :
  analyze_frame image mask prev_centroid = Ok a ->
  Analysis.area a = count_positive mask.
Proof.
  unfold analyze_frame. destruct (shape mask) as [h w].
  destruct (0 <? m00 (moments mask));
    (destruct (cvtColor_gray image) as [gray|e]; [|done]; simpl;
     destruct (bool_index gray mask) as [px|e]; [|done]; simpl;
     by intros [= <-]).
Qed.

Lemma analyze_frames_confidence {cv : Cv2} (frames : list (option Image))
    (masks_list : list (option Mask)) (comp_width comp_height : Z)
    (raw : list frame_data) :
  analyze_frames frames masks_list comp_width comp_height = Ok raw ->
  Forall (fun e => (0 <= confidence e <= 1)%Q) raw.
Proof.
  unfold analyze_frames. intros Hrun.
  destruct (for_each _ _ _) as [[prev out]|e] eqn:Hloop; [|done].
  simpl in Hrun. injection Hrun as <-.
  apply (for_each_seq_inv
           (analyze_step frames masks_list comp_width comp_height)
           (fun _ st => Forall (fun e => (0 <= confidence e <= 1)%Q) st.2)
           (length frames) 0 (None, []) (prev, out)); [by constructor| |done].
  intros i [p o] s' _ Hgood Hstep. simpl in Hgood. unfold analyze_step in Hstep.
  destruct (getitem masks_list i) as [[mask|]|e]; [| |done]; simpl in Hstep.
  - destruct (getitem frames i) as [image|e]; [|done]. simpl in Hstep.
    destruct (analyze_frame image mask p) as [a|e] eqn:Ha; [|done].
    simpl in Hstep. injection Hstep as <-. simpl.
    apply Forall_app. split; [done|]. constructor; [|constructor].
    simpl. apply confidence_of_clamped.
    rewrite (analyze_frame_area _ _ _ _ Ha). unfold count_positive. lia.
  - injection Hstep as <-. simpl. apply Forall_app. split; [done|].
    constructor; [|constructor]. simpl. done.
Qed.

(** X2. Every entry of every track a run returns has its confidence within
    [0, 1]. *)
Theorem run_confidence_clamped {cv : Cv2} (frames : list (option Image))
    (initial_masks : dict Mask) (all_masks : dict (list (option Mask)))
    (comp_width comp_height : Z) (objects : list (Z * list frame_data))
    (obj : Z) (track : list frame_data) (e : frame_data) :
  run_segment_and_track frames initial_masks all_masks comp_width comp_height
  = Ok (Some objects) ->
  (obj, track) ∈ objects -> e ∈ track ->
  (0 <= confidence e <= 1)%Q.
Proof.
  intros Hrun Hin He.
  assert (Hobjs : Forall2
            (fun k o => analyze_object frames all_masks comp_width comp_height k
                        = Ok o) (sorted_keys all_masks) objects).
  { unfold run_segment_and_track in Hrun. apply map_result_Forall2.
    destruct frames as [|f fs]; [done|].
    destruct initial_masks as [|im ims]; [done|].
    destruct (map_result _ _) as [objs|err]; [|done].
    simpl in Hrun. by injection Hrun as <-. }
  destruct (Forall2_elem_of_r _ _ _ _ Hobjs Hin) as (k & _ & Hk).
  unfold analyze_object in Hk.
  destruct (dict_getitem all_masks k) as [masks_list|err]; [|done].
  simpl in Hk.
  destruct (analyze_frames frames masks_list comp_width comp_height)
    as [raw|err] eqn:Hraw; [|done].
  simpl in Hk. injection Hk as <- <-.
  apply analyze_frames_confidence in Hraw.
  apply list_elem_of_lookup_1 in He as [i Hi].
  pose proof (smooth_motion_vectors_same raw 3) as Hsame.
  destruct (Forall2_lookup_l _ _ _ _ _ Hsame Hi) as (r & Hr & Her).
  apply list_elem_of_lookup_2 in Hr.
  rewrite Forall_forall in Hraw. specialize (Hraw r Hr).
  destruct Her as (_ & _ & _ & _ & _ & _ & _ & Hconf). by rewrite Hconf.
Qed.

(** The tracks of the gap scenario. *)
Lemma run_confidence_clamped_witness :
  Forall (fun ot => Forall (fun e => (0 <= confidence e <= 1)%Q) ot.2)
         gap_objects.
Proof.
  apply Forall_forall. intros [obj track] Hin.
  apply Forall_forall. intros e He.
  apply (run_confidence_clamped (cv := Reference.static_scene)
           gap_frames [(0, dot_mask 0)] [(0, gap_masks)] 4 1
           gap_objects obj track e); [|done..].
  vm_compute. reflexivity.
Defined.

(** X3. Fallback propagation returns, for every object, one mask slot per
    frame. *)
Theorem fallback_propagate_lengths {cv : Cv2}
    (frames : list (option (ndarray Z))) (initial_masks : dict (option Mask))
    (total_frames : nat) (masks : dict (list (option Mask)))
    (evs : list event) (obj : Z) (l : list (option Mask)) :
  _fallback_propagate frames initial_masks total_frames = Ok (masks, evs) ->
  (obj, l) ∈ masks ->
  length l = total_frames.
Proof.
  intros Hrun Hin.
  destruct (fallback_propagate_done _ _ _ _ _ Hrun) as [Hmasks _].
  by destruct (Hmasks _ Hin).
Qed.

(** The masks of the four-frame scenario. *)
Lemma fallback_propagate_lengths_witness :
  Forall (fun ol => length ol.2 = 4%nat) held_masks.
Proof.
  apply Forall_forall. intros [obj l] Hin.
  apply (fallback_propagate_lengths (cv := Reference.static_scene)
           held_frames held_initial 4 held_masks held_events obj l); [|done].
  vm_compute. reflexivity.
Defined.

(** X4. The contour [_mask_to_polygon] simplifies is one of largest area
    among those [cv2.findContours] returned, and the first such: every
    contour listed before it is strictly smaller, none after it is larger. *)
Theorem mask_to_polygon_largest {cv : Cv2} (mask : Mask) (max_points : Z)
    (c0 : contour) (cs : list contour) :
  findContours mask = c0 :: cs ->
  exists before c after,
    c0 :: cs = before ++ c :: after /\
    (forall c', c' ∈ before -> (contourArea c' < contourArea c)%Q) /\
    (forall c', c' ∈ after -> (contourArea c' <= contourArea c)%Q) /\
    _mask_to_polygon mask max_points
    = vertices (approx_loop c max_points 2 19).
Proof.
  intros Hc.
  destruct (py_max_first contourArea c0 cs) as (before & after & Hs & Hb & Ha).
  exists before, (py_max contourArea c0 cs), after.
  split; [done|]. split; [done|]. split; [done|].
  by apply mask_to_polygon_unfold.
Qed.

(** Three blocks, of areas 1, 9 and 9: the contour simplified is the
    second, the first of the two largest. *)
Lemma mask_to_polygon_largest_witness :
  exists before c after,
    [ ((0, 0), [(0, 1); (1, 1); (1, 0)]);
      ((0, 3), [(0, 6); (3, 6); (3, 3)]);
      ((4, 8), [(4, 11); (7, 11); (7, 8)]) ] = before ++ c :: after /\
    (forall c', c' ∈ before ->
       (contourArea (Cv2 := Reference.banded_scene) c'
        < contourArea (Cv2 := Reference.banded_scene) c)%Q) /\
    (forall c', c' ∈ after ->
       (contourArea (Cv2 := Reference.banded_scene) c'
        <= contourArea (Cv2 := Reference.banded_scene) c)%Q) /\
    _mask_to_polygon (cv := Reference.banded_scene) three_blocks 64
    = vertices (approx_loop (cv := Reference.banded_scene) c 64 2 19).
Proof.
  apply (mask_to_polygon_largest (cv := Reference.banded_scene) three_blocks 64
           ((0, 0), [(0, 1); (1, 1); (1, 0)])
           [ ((0, 3), [(0, 6); (3, 6); (3, 3)]);
             ((4, 8), [(4, 11); (7, 11); (7, 8)]) ]).
  reflexivity.
Defined.

(** X5. The masks fallback propagation returns are those of the objects of
    [initial_masks], in the same order, and slot 0 of each is the object's
    initial mask. *)
Theorem fallback_propagate_initial {cv : Cv2}
    (frames : list (option (ndarray Z))) (initial_masks : dict (option Mask))
    (total_frames : nat) (masks : dict (list (option Mask)))
    (evs : list event) :
  _fallback_propagate frames initial_masks total_frames = Ok (masks, evs) ->
  Forall2 (fun kv kv' => kv'.1 = kv.1 /\ kv'.2 !! 0%nat = Some kv.2)
          initial_masks masks.
Proof. apply fallback_propagate_slot0. Qed.

(** The four-frame scenario keeps both objects and their initial masks. *)
Lemma fallback_propagate_initial_witness :
  Forall2 (fun kv kv' => kv'.1 = kv.1 /\ kv'.2 !! 0%nat = Some kv.2)
          held_initial held_masks.
Proof.
  apply (fallback_propagate_initial (cv := Reference.static_scene)
           held_frames held_initial 4 held_masks held_events).
  vm_compute. reflexivity.
Defined.

(** X6. What fallback propagation prints and computes, turn by turn: for
    every index 1 .. total_frames - 1 in increasing order one progress line
    [PROGRESS:i+1/total], followed by one optical-flow computation exactly
    when frame [i] is readable. *)
Theorem fallback_propagate_trace {cv : Cv2}
    (frames : list (option (ndarray Z))) (initial_masks : dict (option Mask))
    (total_frames : nat) (masks : dict (list (option Mask)))
    (evs : list event) :
  _fallback_propagate frames initial_masks total_frames = Ok (masks, evs) ->
  evs = flat_map (turn_events frames total_frames) (seq 1 (total_frames - 1)).
Proof.
  unfold _fallback_propagate. intros Hrun.
  destruct (map_values _ initial_masks) as [masks0|e]; [|done].
  simpl in Hrun. destruct (getitem frames 0) as [first|e]; [|done].
  simpl in Hrun. destruct (for_each _ _ _) as [st|e] eqn:Hloop; [|done].
  simpl in Hrun. injection Hrun as <- <-.
  apply (for_each_seq_inv (propagate_step frames total_frames)
           (fun k st => events st
              = flat_map (turn_events frames total_frames) (seq 1 (k - 1))))
    in Hloop.
  - by replace (1 + (total_frames - 1) - 1)%nat with (total_frames - 1)%nat
      in Hloop by lia.
  - done.
  - intros i s s' Hi Hinv Hstep.
    apply propagate_step_insert in Hstep as [_ ->]. rewrite Hinv.
    replace (S i - 1)%nat with (S (i - 1)) by lia.
    rewrite seq_S, flat_map_app.
    replace (1 + (i - 1))%nat with i by lia.
    cbn [flat_map]. by rewrite app_nil_r.
Qed.

(** The four-frame scenario: flows at 1 and 3, none at the unreadable 2. *)
Lemma fallback_propagate_trace_witness :
  held_events
  = [PROGRESS 2 4; FLOW 1; PROGRESS 3 4; PROGRESS 4 4; FLOW 3].
Proof.
  rewrite (fallback_propagate_trace (cv := Reference.static_scene)
             held_frames held_initial 4 held_masks held_events).
  - reflexivity.
  - vm_compute. reflexivity.
Defined.

Lemma gray_before_Some (frames : list (option (ndarray Z))) (i : nat)
    (g : ndarray Z) :
  gray_before frames i = Some g ->
  exists j, (j < i)%nat /\ frames !! j = Some (Some g).
Proof.
  induction i as [|i IH]; simpl; [done|].
  destruct (frames !! i) as [[g'|]|] eqn:Hi.
  - intros [= <-]. exists i. split; [lia|done].
  - intros (j & Hj & Hg)%IH. exists j. split; [lia|done].
  - intros (j & Hj & Hg)%IH. exists j. split; [lia|done].
Qed.

(** X7. Fallback propagation cannot get past a readable frame that no
    readable frame precedes: when frames 0 .. i-1 are all unreadable and
    frame [i >= 1] is readable, the call raises instead of returning. *)
Theorem fallback_propagate_needs_first_frame {cv : Cv2}
    (frames : list (option (ndarray Z))) (initial_masks : dict (option Mask))
    (total_frames i : nat) (g : ndarray Z) :
  (1 <= i < total_frames)%nat ->
  frames !! i = Some (Some g) ->
  (forall j, (j < i)%nat -> frames !! j = Some None) ->
  exists e, _fallback_propagate frames initial_masks total_frames = Raise e.
Proof.
  intros Hi Hframe Hnone.
  destruct (_fallback_propagate frames initial_masks total_frames)
    as [[masks evs]|e] eqn:Hrun; [exfalso|by exists e].
  unfold _fallback_propagate in Hrun.
  destruct (map_values _ initial_masks) as [masks0|e] eqn:Hinit; [|done].
  simpl in Hrun. destruct (getitem frames 0) as [first|e] eqn:Hfirst; [|done].
  apply getitem_Ok in Hfirst.
  simpl in Hrun. destruct (for_each _ _ _) as [st|e] eqn:Hloop; [|done].
  apply map_values_Forall2 in Hinit.
  apply (for_each_seq_inv (propagate_step frames total_frames)
           (fun k st => prev_gray st = gray_before frames k /\
              forall i' g', (1 <= i' < k)%nat ->
                frames !! i' = Some (Some g') ->
                exists pg, gray_before frames i' = Some pg)) in Hloop.
  - destruct Hloop as [_ Hloop].
    destruct (Hloop i g ltac:(lia) Hframe) as [pg Hpg].
    apply gray_before_Some in Hpg as (j & Hj & Hg).
    rewrite (Hnone j Hj) in Hg. done.
  - split; [|intros i' g' Hi'; lia]. simpl. rewrite Hfirst. by destruct first.
  - intros k s s' Hk [Hprev Hseen] Hstep. unfold propagate_step in Hstep.
    destruct (getitem frames k) as [curr|e] eqn:Hcurr; [|done].
    apply getitem_Ok in Hcurr. simpl in Hstep. destruct curr as [gk|].
    + destruct (prev_gray s) as [pg|] eqn:Hpg; [|done].
      destruct (shape pg) as [h w].
      destruct (map_values _ (all_masks s)) as [masks'|e]; [|done].
      simpl in Hstep. injection Hstep as <-. simpl. split; [by rewrite Hcurr|].
      intros i' g' Hi' Hg'. destruct (decide (i' = k)) as [->|Hne].
      * exists pg. congruence.
      * apply (Hseen i' g'); [lia|done].
    + destruct (map_values _ (all_masks s)) as [masks'|e]; [|done].
      simpl in Hstep. injection Hstep as <-. simpl. split; [by rewrite Hcurr|].
      intros i' g' Hi' Hg'. destruct (decide (i' = k)) as [->|Hne];
        [congruence|]. apply (Hseen i' g'); [lia|done].
Qed.

(** Two frames, the first unreadable: the call raises. *)
Lemma fallback_propagate_needs_first_frame_witness :
  exists e,
    _fallback_propagate (cv := Reference.static_scene) late_frames
      held_initial 2 = Raise e.
Proof.
  apply (fallback_propagate_needs_first_frame (cv := Reference.static_scene)
           late_frames held_initial 2 1 (np_zeros 4 4)).
  - lia.
  - reflexivity.
  - intros j Hj. destruct j as [|j]; [reflexivity|lia].
Defined.

(** ** More on a run *)

Lemma for_each_Ok_steps {St X : Type} (body : St -> X -> result St)
    (xs : list X) (st st' : St) (x : X) :
  for_each body xs st = Ok st' -> x ∈ xs ->
  exists s s', body s x = Ok s'.
Proof.
  revert st. induction xs as [|y xs IH]; intros st Hrun Hx.
  - by apply elem_of_nil in Hx.
  - simpl in Hrun. destruct (body st y) as [s1|e] eqn:Hb; [|done].
    simpl in Hrun. apply elem_of_cons in Hx as [->|Hx]; [eauto|].
    by apply (IH s1).
Qed.

Lemma dict_getitem_key {V : Type} (d : dict V) (k : Z) (v : V) :
  dict_getitem d k = Ok v -> k ∈ map fst d.
Proof.
  unfold dict_getitem.
  destruct (filter (fun kv => kv.1 = k) d) as [|kv kvs] eqn:Hf; [done|].
  intros _. assert (Hin : kv ∈ filter (fun kv => kv.1 = k) d) by (rewrite Hf; left).
  apply list_elem_of_filter in Hin as [<- Hin].
  apply list_elem_of_In, in_map, list_elem_of_In. done.
Qed.

Lemma run_objects {cv : Cv2} (frames : list (option Image))
    (initial_masks : dict Mask) (all_masks : dict (list (option Mask)))
    (comp_width comp_height : Z) (objects : list (Z * list frame_data)) :
  run_segment_and_track frames initial_masks all_masks comp_width comp_height
  = Ok (Some objects) ->
  Forall2 (fun k o => analyze_object frames all_masks comp_width comp_height k
                      = Ok o) (sorted_keys all_masks) objects.
Proof.
  intros Hrun. unfold run_segment_and_track in Hrun. apply map_result_Forall2.
  destruct frames as [|f fs]; [done|].
  destruct initial_masks as [|im ims]; [done|].
  destruct (map_result _ _) as [objs|e]; [|done].
  simpl in Hrun. by injection Hrun as <-.
Qed.

(** X8. A frame that cannot be read aborts the whole run as soon as one
    object has a mask for it: [analyze_frame] hands the missing image to
    OpenCV. No track is returned, for any object. *)
Theorem run_unreadable_frame_aborts {cv : Cv2}
    (frames : list (option Image)) (initial_masks : dict Mask)
    (all_masks : dict (list (option Mask))) (comp_width comp_height : Z)
    (obj : Z) (masks_list : list (option Mask)) (i : nat) (m : Mask) :
  initial_masks <> [] ->
  dict_getitem all_masks obj = Ok masks_list ->
  frames !! i = Some None ->
  masks_list !! i = Some (Some m) ->
  exists e,
    run_segment_and_track frames initial_masks all_masks comp_width comp_height
    = Raise e.
Proof.
  intros Hinit Hobj Hframe Hmask.
  destruct (run_segment_and_track frames initial_masks all_masks comp_width
              comp_height) as [[objects|]|e] eqn:Hrun; [exfalso|exfalso|eauto].
  - apply run_objects in Hrun.
    assert (Hkey : obj ∈ sorted_keys all_masks).
    { unfold sorted_keys. rewrite merge_sort_Permutation.
      by apply dict_getitem_key in Hobj. }
    apply list_elem_of_lookup_1 in Hkey as [n Hn].
    destruct (Forall2_lookup_l _ _ _ _ _ Hrun Hn) as (o & _ & Ho).
    unfold analyze_object in Ho. rewrite Hobj in Ho. simpl in Ho.
    destruct (analyze_frames frames masks_list comp_width comp_height)
      as [raw|e] eqn:Hraw; [|done].
    unfold analyze_frames in Hraw.
    destruct (for_each _ _ _) as [st|e] eqn:Hloop; [|done].
    assert (Hi : i ∈ seq 0 (length frames)).
    { apply elem_of_seq. apply lookup_lt_Some in Hframe. lia. }
    destruct (for_each_Ok_steps _ _ _ _ _ Hloop Hi) as ([prev out] & s' & Hstep).
    unfold analyze_step in Hstep.
    rewrite (proj2 (getitem_Ok _ _ _) Hmask) in Hstep. simpl in Hstep.
    rewrite (proj2 (getitem_Ok _ _ _) Hframe) in Hstep. simpl in Hstep.
    unfold analyze_frame in Hstep. destruct (shape m) as [h w].
    by destruct (0 <? m00 (moments m)).
  - unfold run_segment_and_track in Hrun.
    destruct frames as [|f fs]; [done|].
    destruct initial_masks as [|im ims]; [done|].
    by destruct (map_result _ _).
Qed.

(** The gap scenario with its last frame unreadable. *)
Lemma run_unreadable_frame_aborts_witness :
  exists e,
    run_segment_and_track (cv := Reference.static_scene) torn_frames
      [(0, dot_mask 0)] [(0, gap_masks)] 4 1 = Raise e.
Proof.
  apply (run_unreadable_frame_aborts (cv := Reference.static_scene)
           torn_frames [(0, dot_mask 0)] [(0, gap_masks)] 4 1
           0 gap_masks 2 (dot_mask 3)); done.
Defined.

(** X9. A completed run returns exactly one track per object id of
    [all_masks], in increasing order of id, whatever the order the masks
    were produced in. *)
Theorem run_objects_sorted {cv : Cv2} (frames : list (option Image))
    (initial_masks : dict Mask) (all_masks : dict (list (option Mask)))
    (comp_width comp_height : Z) (objects : list (Z * list frame_data)) :
  run_segment_and_track frames initial_masks all_masks comp_width comp_height
  = Ok (Some objects) ->
  Sorted Z.le (map fst objects) /\
  map fst objects ≡ₚ map fst all_masks.
Proof.
  intros Hrun. apply run_objects in Hrun.
  assert (Hids : map fst objects = sorted_keys all_masks).
  { induction Hrun as [|k o ks os Ho Hos IH]; [done|].
    simpl. f_equal; [by apply analyze_object_id in Ho|done]. }
  rewrite Hids. unfold sorted_keys. split.
  - apply (Sorted_merge_sort Z.le).
  - apply merge_sort_Permutation.
Qed.

(** Two objects produced in the order 7, 3 come back in the order 3, 7. *)
Lemma run_objects_sorted_witness :
  Sorted Z.le [3; 7] /\ [3; 7] ≡ₚ [7; 3].
Proof.
  apply (run_objects_sorted (cv := Reference.static_scene)
           pair_frames [(7, dot_mask 0); (3, dot_mask 3)] pair_masks 4 1
           pair_objects).
  vm_compute. reflexivity.
Defined.

(** ** Smoothing a steady track *)

Lemma round_half_even_comp (p q : Q) :
  (p == q)%Q -> round_half_even p = round_half_even q.
Proof.
  intros Hpq. unfold round_half_even.
  rewrite (Qfloor_comp _ _ Hpq).
  assert (Hc : ((p - inject_Z (Qfloor q)) ?= (1 # 2))%Q
               = ((q - inject_Z (Qfloor q)) ?= (1 # 2))%Q)
    by (by rewrite Hpq).
  by rewrite Hc.
Qed.

(** [round] sees the value of its argument, not the way it is written. *)
Lemma py_round_comp (p q : Q) (ndigits : nat) :
  (p == q)%Q -> py_round p ndigits = py_round q ndigits.
Proof.
  intros Hpq. unfold py_round.
  rewrite (round_half_even_comp (p * _) (q * inject_Z (10 ^ Z.of_nat ndigits)));
    [done|by rewrite Hpq].
Qed.

Lemma alter_fixed {A : Type} (f : A -> A) (i : nat) (l : list A) :
  (forall a, a ∈ l -> f a = a) -> alter f i l = l.
Proof.
  revert i. induction l as [|a l IH]; intros i Hf; [done|].
  destruct i as [|i]; simpl.
  - f_equal. apply Hf. left.
  - f_equal. apply IH. intros b Hb. apply Hf. by right.
Qed.

Lemma set_motion_vector_same (d : frame_data) :
  set_motion_vector (motion_vector d) d = d.
Proof. by destruct d. Qed.

(** Over entries that all move by [c], the window sums are [count] times
    [c]. *)
Lemma window_acc_steady (l : list frame_data) (c : vec2) (js : list nat)
    (vx vy : Q) (count : Z) :
  (forall d, d ∈ l -> motion_vector d = c) ->
  0 <= count ->
  (vx == inject_Z count * c.1)%Q -> (vy == inject_Z count * c.2)%Q ->
  exists vx' vy' count',
    fold_left (window_acc l) js (vx, vy, count) = (vx', vy', count') /\
    0 <= count' /\
    (vx' == inject_Z count' * c.1)%Q /\ (vy' == inject_Z count' * c.2)%Q.
Proof.
  intros Hc. revert vx vy count.
  induction js as [|j js IH]; intros vx vy count Hcount Hvx Hvy.
  - exists vx, vy, count. done.
  - cbn [fold_left window_acc]. destruct (l !! j) as [d|] eqn:Hd.
    + apply IH; [lia| |].
      * rewrite (Hc d) by (by eapply list_elem_of_lookup_2).
        rewrite Hvx, inject_Z_plus. ring.
      * rewrite (Hc d) by (by eapply list_elem_of_lookup_2).
        rewrite Hvy, inject_Z_plus. ring.
    + by apply IH.
Qed.

Lemma smooth_at_steady (n half : Z) (l : list frame_data) (c : vec2) (i : nat) :
  (forall d, d ∈ l -> motion_vector d = c) ->
  c = (py_round c.1 2, py_round c.2 2) ->
  smooth_at n half l i = l.
Proof.
  intros Hc Hround. unfold smooth_at, window_sums.
  destruct (window_acc_steady l c (py_range (Z.max 0 (Z.of_nat i - half))
              (Z.min n (Z.of_nat i + half + 1))) 0 0 0 Hc)
    as (vx & vy & count & -> & Hcount & Hvx & Hvy);
    [lia|simpl; ring|simpl; ring|].
  destruct (Z.ltb_spec 0 count) as [Hpos|_]; [|done].
  apply alter_fixed. intros d Hd.
  assert (Hnz : ~ (inject_Z count == 0)%Q).
  { change 0%Q with (inject_Z 0). rewrite inject_Z_injective. lia. }
  rewrite (py_round_comp (vx / inject_Z count) c.1) by (rewrite Hvx; by field).
  rewrite (py_round_comp (vy / inject_Z count) c.2) by (rewrite Hvy; by field).
  rewrite <- Hround, <- (Hc d Hd). apply set_motion_vector_same.
Qed.

(** X10. A track whose entries all carry the same motion vector, itself a
    value with two decimals, is a fixed point of [smooth_motion_vectors],
    for every window: the feedback of the loop does not disturb a steady
    motion. *)
Theorem smooth_motion_vectors_steady (frames_data : list frame_data)
    (window : Z) (c : vec2) :
  (forall d, d ∈ frames_data -> motion_vector d = c) ->
  c = (py_round c.1 2, py_round c.2 2) ->
  smooth_motion_vectors frames_data window = frames_data.
Proof.
  intros Hc Hround. unfold smooth_motion_vectors.
  destruct (_ <? window); [done|].
  apply (fold_left_inv _ (fun l => l = frames_data)); [done|].
  intros l i ->. by apply (smooth_at_steady _ _ _ c).
Qed.

(** Four frames moving by (1.5, 0) each. *)
Lemma smooth_motion_vectors_steady_witness :
  smooth_motion_vectors steady_track 3 = steady_track.
Proof.
  apply (smooth_motion_vectors_steady steady_track 3 (3 # 2, 0)%Q).
  - intros d Hd. apply elem_of_replicate in Hd as [-> _]. reflexivity.
  - reflexivity.
Defined.

(** ** More on the analysis of a frame *)

Lemma max_list_ge (l : list nat) (x : nat) : x ∈ l -> (x <= max_list l)%nat.
Proof.
  induction l as [|y l IH]; intros Hx; [by apply elem_of_nil in Hx|].
  apply elem_of_cons in Hx as [->|Hx]; simpl; [lia|].
  specialize (IH Hx). lia.
Qed.

Lemma min_list_le (d : nat) (l : list nat) (x : nat) :
  x ∈ l -> (min_list d l <= x)%nat.
Proof.
  induction l as [|y l IH]; intros Hx; [by apply elem_of_nil in Hx|].
  apply elem_of_cons in Hx as [->|Hx]; simpl; [lia|].
  specialize (IH Hx). lia.
Qed.

Lemma min_list_le_default (d : nat) (l : list nat) : (min_list d l <= d)%nat.
Proof. induction l as [|y l IH]; simpl; lia. Qed.

Lemma elem_of_map {A B : Type} (f : A -> B) (l : list A) (a : A) :
  a ∈ l -> f a ∈ map f l.
Proof. rewrite !list_elem_of_In. apply in_map. Qed.

(** The box of [cv2.boundingRect], as corners with the far ones exclusive,
    holds every point it was computed from. *)
Lemma boundingRect_covers (coords : list (nat * nat)) (x y : nat) :
  (x, y) ∈ coords ->
  let '(x1, y1, bw, bh) := boundingRect coords in
  x1 <= Z.of_nat x < x1 + bw /\ y1 <= Z.of_nat y < y1 + bh.
Proof.
  intros Hin. unfold boundingRect.
  assert (Hx : x ∈ map fst coords) by apply (elem_of_map fst _ _ Hin).
  assert (Hy : y ∈ map snd coords) by apply (elem_of_map snd _ _ Hin).
  pose proof (max_list_ge _ _ Hx). pose proof (max_list_ge _ _ Hy).
  pose proof (min_list_le (max_list (map fst coords)) _ _ Hx).
  pose proof (min_list_le (max_list (map snd coords)) _ _ Hy).
  pose proof (min_list_le_default (max_list (map fst coords)) (map fst coords)).
  pose proof (min_list_le_default (max_list (map snd coords)) (map snd coords)).
  lia.
Qed.

Lemma analyze_frame_bbox {cv : Cv2} (image : option Image) (mask : Mask)
    (prev_centroid : option vec2) (a : analysis) :
  analyze_frame image mask prev_centroid = Ok a ->
  Analysis.bbox a
  = match findNonZero mask with
    | Some coords =>
        let '(x1, y1, bw, bh) := boundingRect coords in
        (x1, y1, x1 + bw, y1 + bh)
    | None => (0, 0, Z.of_nat (shape mask).2, Z.of_nat (shape mask).1)
    end.
Proof.
  unfold analyze_frame. destruct (shape mask) as [h w].
  destruct (0 <? m00 (moments mask));
    (destruct (cvtColor_gray image) as [gray|e]; [|done]; simpl;
     destruct (bool_index gray mask) as [px|e]; [|done]; simpl;
     by intros [= <-]).
Qed.

(** X11. The bbox [analyze_frame] reports, [x1, y1, x2, y2] with [x2] and
    [y2] exclusive, contains every nonzero pixel of the mask. *)
Theorem analyze_frame_bbox_covers {cv : Cv2} (image : option Image)
    (mask : Mask) (prev_centroid : option vec2) (a : analysis)
    (x y : nat) (v : Z) :
  analyze_frame image mask prev_centroid = Ok a ->
  (x, y, v) ∈ pixels mask -> v <> 0 ->
  let '(x1, y1, x2, y2) := Analysis.bbox a in
  x1 <= Z.of_nat x < x2 /\ y1 <= Z.of_nat y < y2.
Proof.
  intros Ha Hin Hv. rewrite (analyze_frame_bbox _ _ _ _ Ha).
  unfold findNonZero.
  assert (Hf : (x, y, v) ∈ filter (fun p => p.2 <> 0) (pixels mask))
    by (by apply list_elem_of_filter).
  destruct (filter (fun p => p.2 <> 0) (pixels mask)) as [|p ps] eqn:Hps;
    [by apply elem_of_nil in Hf|].
  assert (Hxy : (x, y) ∈ map fst (p :: ps))
    by apply (elem_of_map fst _ _ Hf).
  pose proof (boundingRect_covers _ _ _ Hxy) as Hbox.
  destruct (boundingRect (map fst (p :: ps))) as [[[x1 y1] bw] bh]. done.
Qed.

(** The corner block: its pixel (1, 1) lies in the reported box. *)
Lemma analyze_frame_bbox_covers_witness :
  let '(x1, y1, x2, y2) := (0, 0, 2, 2) in
  x1 <= Z.of_nat 1 < x2 /\ y1 <= Z.of_nat 1 < y2.
Proof.
  apply (analyze_frame_bbox_covers (cv := Reference.static_scene)
           (Some (uniform_image 4 4)) corner_block None
           {| Analysis.centroid := (1 # 2, 1 # 2)%Q;
              Analysis.bbox := (0, 0, 2, 2);
              Analysis.polygon := [(0, 0)];
              Analysis.area := 4;
              Analysis.avg_luma := (7843 # 10000)%Q;
              Analysis.motion_vector := (0, 0)%Q |} 1 1 1).
  - vm_compute. reflexivity.
  - apply list_elem_of_In. vm_compute. tauto.
  - done.
Defined.

(** ** Luminance stays within [0, 1] *)

Lemma round_half_even_bounds (q : Q) (a b : Z) :
  (inject_Z a <= q)%Q -> (q <= inject_Z b)%Q ->
  a <= round_half_even q <= b.
Proof.
  intros Ha Hb.
  assert (Hfa : a <= Qfloor q).
  { rewrite <- (Qfloor_Z a). by apply Qfloor_resp_le. }
  assert (Hfb : Qfloor q <= b).
  { rewrite <- (Qfloor_Z b). by apply Qfloor_resp_le. }
  assert (Hup : (0 < q - inject_Z (Qfloor q))%Q -> Qfloor q + 1 <= b).
  { intros Hpos. destruct (decide (Qfloor q = b)) as [Heq|Hne]; [|lia].
    exfalso. rewrite Heq in Hpos. apply Qlt_minus_iff in Hpos.
    by apply Qlt_not_le in Hpos. }
  unfold round_half_even.
  destruct (Qcompare_spec (q - inject_Z (Qfloor q)) (1 # 2)) as [He|Hl|Hg].
  - destruct (Z.even (Qfloor q)); [lia|].
    split; [lia|]. apply Hup. by rewrite He.
  - lia.
  - split; [lia|]. apply Hup. eapply Qlt_trans; [|exact Hg]. done.
Qed.

Lemma py_round_unit (x : Q) (ndigits : nat) :
  (0 <= x <= 1)%Q -> (0 <= py_round x ndigits <= 1)%Q.
Proof.
  intros [H0 H1]. unfold py_round. rewrite Qred_correct.
  set (s := 10 ^ Z.of_nat ndigits).
  assert (Hs : 0 < s) by (apply Z.pow_pos_nonneg; lia).
  assert (HsQ : (0 < inject_Z s)%Q).
  { change 0%Q with (inject_Z 0). by rewrite <- Zlt_Qlt. }
  destruct (round_half_even_bounds (x * inject_Z s) 0 s) as [Hlo Hhi].
  - change (inject_Z 0) with 0%Q. apply Qmult_le_0_compat; [done|].
    by apply Qlt_le_weak.
  - rewrite <- (Qmult_1_l (inject_Z s)) at 2.
    apply Qmult_le_compat_r; [done|by apply Qlt_le_weak].
  - split.
    + apply Qle_shift_div_l; [done|]. rewrite Qmult_0_l.
      change 0%Q with (inject_Z 0). by rewrite <- Zle_Qle.
    + apply Qle_shift_div_r; [done|]. rewrite Qmult_1_l. by rewrite <- Zle_Qle.
Qed.

Lemma sum_Z_bounds (l : list Z) (b : Z) :
  Forall (fun v => 0 <= v <= b) l ->
  0 <= sum_Z l <= b * Z.of_nat (length l).
Proof. induction 1 as [|v l Hv Hl IH]; simpl; lia. Qed.

Lemma mean_Q_bounds (l : list Z) (b : Z) :
  l <> [] -> 0 <= b -> Forall (fun v => 0 <= v <= b) l ->
  (0 <= mean_Q l / inject_Z b)%Q /\ (mean_Q l <= inject_Z b)%Q.
Proof.
  intros Hne Hb Hl. pose proof (sum_Z_bounds _ _ Hl) as [Hlo Hhi].
  assert (Hlen : 0 < Z.of_nat (length l)) by (destruct l; [done|simpl; lia]).
  assert (HlenQ : (0 < inject_Z (Z.of_nat (length l)))%Q).
  { change 0%Q with (inject_Z 0). by rewrite <- Zlt_Qlt. }
  assert (Hmean : (0 <= mean_Q l)%Q).
  { unfold mean_Q. apply Qle_shift_div_l; [done|]. rewrite Qmult_0_l.
    change 0%Q with (inject_Z 0). by rewrite <- Zle_Qle. }
  split.
  - destruct (decide (b = 0)) as [->|Hb0].
    + unfold Qdiv. change (/ inject_Z 0)%Q with 0%Q. by rewrite Qmult_0_r.
    + apply Qle_shift_div_l; [|by rewrite Qmult_0_l].
      change 0%Q with (inject_Z 0). rewrite <- Zlt_Qlt. lia.
  - unfold mean_Q. apply Qle_shift_div_r; [done|].
    rewrite <- inject_Z_mult. by rewrite <- Zle_Qle.
Qed.

Lemma zip_Forall_l {A B : Type} (P : A -> Prop) (l : list A) (k : list B) :
  Forall P l -> Forall (fun ab => P ab.1) (zip l k).
Proof.
  intros Hl. revert k. induction Hl as [|a l Ha Hl IH]; intros [|b k]; simpl;
    constructor; auto.
Qed.

Lemma filter_Forall {A : Type} (P Q : A -> Prop) `{forall a, Decision (P a)}
    (l : list A) :
  Forall Q l -> Forall Q (filter P l).
Proof.
  induction 1 as [|a l Ha Hl IH]; [constructor|].
  rewrite filter_cons. destruct (decide (P a)); [by constructor|done].
Qed.

Lemma bool_index_range {cv : Cv2} (img : Image) (mask : Mask) (px : list Z) :
  Forall (Forall (fun p => 0 <= luma p <= 255)) (rows img) ->
  bool_index (mk_ndarray (shape img) (map (map luma) (rows img))) mask = Ok px ->
  Forall (fun v => 0 <= v <= 255) px.
Proof.
  intros Hluma. unfold bool_index. destruct (decide _); [|done].
  intros [= <-]. apply Forall_fmap. apply filter_Forall.
  apply (zip_Forall_l (fun p => 0 <= p.2 <= 255)).
  unfold pixels. simpl.
  apply (concat_imap_Forall _ (Forall (fun v => 0 <= v <= 255))).
  - intros y row Hrow. by apply (imap_Forall _ (fun v => 0 <= v <= 255)).
  - apply Forall_fmap. eapply Forall_impl; [done|]. simpl. intros row Hrow.
    by apply Forall_fmap.
Qed.

(** X12. When the grayscale conversion of the frame yields 8-bit values, the
    [avg_luma] [analyze_frame] reports lies within [0, 1], rounding
    included. *)
Theorem analyze_frame_luma_range {cv : Cv2} (img : Image)
    (mask : Mask) (prev_centroid : option vec2) (a : analysis) :
  Forall (Forall (fun p => 0 <= luma p <= 255)) (rows img) ->
  analyze_frame (Some img) mask prev_centroid = Ok a ->
  (0 <= Analysis.avg_luma a <= 1)%Q.
Proof.
  intros Hluma. unfold analyze_frame. destruct (shape mask) as [h w].
  assert (Hgoal : forall px,
    Forall (fun v => 0 <= v <= 255) px ->
    (0 <= (if (0 <? length px)%nat
           then py_round (mean_Q px / 255) 4 else 0) <= 1)%Q).
  { intros px Hpx. destruct px as [|v px]; [done|].
    cbn [length Nat.ltb Nat.leb]. apply py_round_unit.
    destruct (mean_Q_bounds (v :: px) 255) as [Hlo Hhi]; [done|lia|done|].
    split; [done|]. apply Qle_shift_div_r; [done|]. by rewrite Qmult_1_l. }
  destruct (0 <? m00 (moments mask));
    (cbn [cvtColor_gray bind];
     destruct (bool_index _ mask) as [px|e] eqn:Hpx; [|done];
     cbn [bind]; intros [= <-]; cbn [Analysis.avg_luma];
     apply Hgoal; by apply (bool_index_range img mask)).
Qed.

(** The corner block on a uniform frame, with the reference luma. *)
Lemma analyze_frame_luma_range_witness :
  (0 <= 7843 # 10000 <= 1)%Q.
Proof.
  apply (analyze_frame_luma_range (cv := Reference.static_scene)
           (uniform_image 4 4) corner_block None
           {| Analysis.centroid := (1 # 2, 1 # 2)%Q;
              Analysis.bbox := (0, 0, 2, 2);
              Analysis.polygon := [(0, 0)];
              Analysis.area := 4;
              Analysis.avg_luma := (7843 # 10000)%Q;
              Analysis.motion_vector := (0, 0)%Q |}).
  - unfold uniform_image. cbn [rows].
    apply Forall_replicate, Forall_replicate. vm_compute. split; discriminate.
  - vm_compute. reflexivity.
Defined.

(** ** The answer to a preview query *)

(** Rounding an integer leaves its value. *)
Lemma py_round_Z (n : Z) (ndigits : nat) :
  (py_round (inject_Z n) ndigits == inject_Z n)%Q.
Proof.
  unfold py_round. rewrite Qred_correct.
  set (s := 10 ^ Z.of_nat ndigits).
  assert (Hs : 0 < s) by (apply Z.pow_pos_nonneg; lia).
  rewrite (round_half_even_Z _ (n * s)) by (by rewrite inject_Z_mult).
  rewrite inject_Z_mult. field.
  change 0%Q with (inject_Z 0). rewrite inject_Z_injective. lia.
Qed.

(** X13. When the best candidate mask of a preview query is all zero, the
    reply's bbox is the whole mask and its centroid is the clicked point
    itself (not the centre of the frame, as in the batch analysis). *)
Theorem answer_empty_mask {cv : Cv2} {pr : Predictor} (line : string)
    (x y : Z) (c0 : Mask * Q) (cs : list (Mask * Q)) (h w : nat) :
  read_query line = inr (x, y) ->
  predict (x, y) = inr (c0 :: cs) ->
  (py_max snd c0 cs).1 = np_zeros h w ->
  exists r,
    answer line = inr r /\
    p_bbox r = (0, 0, Z.of_nat w, Z.of_nat h) /\
    ((p_centroid r).1 == inject_Z x)%Q /\
    ((p_centroid r).2 == inject_Z y)%Q.
Proof.
  intros Hread Hpred Hzero. unfold answer. rewrite Hread, Hpred, Hzero.
  rewrite findNonZero_np_zeros, moments_np_zeros.
  change (shape (np_zeros h w)) with (h, w).
  cbn [m00 Z.ltb Z.compare]. eexists. split; [reflexivity|].
  cbn [p_bbox p_centroid fst snd]. split; [done|]. split; apply py_round_Z.
Qed.

(** A click at (4, 5) answered by a predictor that finds nothing. *)
Lemma answer_empty_mask_witness :
  exists r,
    answer (cv := Reference.static_scene) (pr := blind_predictor) "45" = inr r /\
    p_bbox r = (0, 0, Z.of_nat 10, Z.of_nat 10) /\
    ((p_centroid r).1 == inject_Z 4)%Q /\
    ((p_centroid r).2 == inject_Z 5)%Q.
Proof.
  apply (answer_empty_mask (cv := Reference.static_scene)
           (pr := blind_predictor) "45" 4 5 (np_zeros 10 10, 1 # 10)%Q []
           10 10); reflexivity.
Defined.

(** X14. A successful preview reply is computed from the first candidate of
    highest score: its score is that score rounded to 4 decimals, no
    candidate scores higher, and its polygon is that candidate's mask
    simplified under the cap of 32 vertices. *)
Theorem answer_best_candidate {cv : Cv2} {pr : Predictor} (line : string)
    (r : preview) :
  answer line = inr r ->
  exists xy before best after,
    read_query line = inr xy /\
    predict xy = inr (before ++ best :: after) /\
    (forall c, c ∈ before -> (c.2 < best.2)%Q) /\
    (forall c, c ∈ after -> (c.2 <= best.2)%Q) /\
    p_score r = py_round best.2 4 /\
    p_polygon r = _mask_to_polygon best.1 32.
Proof.
  unfold answer. destruct (read_query line) as [e|[x y]] eqn:Hread; [done|].
  destruct (predict (x, y)) as [e|[|c0 cs]] eqn:Hpred; [done|done|].
  destruct (py_max_first snd c0 cs) as (before & after & Hsplit & Hb & Ha).
  set (best := py_max snd c0 cs) in *.
  assert (Hdone : forall bbox centroid,
    @inr string preview
      {| p_bbox := bbox; p_polygon := _mask_to_polygon best.1 32;
         p_score := py_round best.2 4; p_centroid := centroid |} = inr r ->
    exists xy before0 best0 after0,
      @inr string (Z * Z) (x, y) = inr xy /\
      predict xy = inr (before0 ++ best0 :: after0) /\
      (forall c, c ∈ before0 -> (c.2 < best0.2)%Q) /\
      (forall c, c ∈ after0 -> (c.2 <= best0.2)%Q) /\
      p_score r = py_round best0.2 4 /\
      p_polygon r = _mask_to_polygon best0.1 32).
  { intros bbox centroid [= <-]. exists (x, y), before, best, after.
    split; [done|]. split; [by rewrite Hpred, Hsplit|done]. }
  destruct (findNonZero best.1) as [coords|].
  - destruct (boundingRect coords) as [[[bx by_] bw] bh].
    destruct (0 <? m00 (moments best.1)); apply Hdone.
  - destruct (shape best.1) as [h w].
    destruct (0 <? m00 (moments best.1)); apply Hdone.
Qed.

(** The click at (4, 5) answered from three candidates scored 0.5, 0.9 and
    0.9: the reply is computed from the second one. *)
Lemma answer_best_candidate_witness :
  exists xy before best after,
    read_query (Predictor := Reference.multimask_predictor) "45" = inr xy /\
    predict (Predictor := Reference.multimask_predictor) xy
    = inr (before ++ best :: after) /\
    (forall c, c ∈ before -> (c.2 < best.2)%Q) /\
    (forall c, c ∈ after -> (c.2 <= best.2)%Q) /\
    (9 # 10)%Q = py_round best.2 4 /\
    [(3, 4); (5, 6)]
    = _mask_to_polygon (cv := Reference.static_scene) best.1 32.
Proof.
  apply (answer_best_candidate (cv := Reference.static_scene)
           (pr := Reference.multimask_predictor) "45"
           {| p_bbox := (3, 4, 6, 7); p_polygon := [(3, 4); (5, 6)];
              p_score := (9 # 10)%Q; p_centroid := (4, 5)%Q |}).
  vm_compute. reflexivity.
Defined.

(** ** Dicts *)

Lemma dict_getitem_setitem {V : Type} (d : dict V) (k k' : Z) (v : V) :
  dict_getitem (dict_setitem d k v) k'
  = if decide (k = k') then Ok v else dict_getitem d k'.
Proof.
  unfold dict_getitem, dict in *.
  induction d as [|kv d IH]; cbn [dict_setitem].
  - rewrite filter_cons, filter_nil. cbn [fst].
    destruct (decide (k = k')); done.
  - destruct (decide (kv.1 = k)) as [Hk|Hk].
    + rewrite !filter_cons. cbn [fst]. subst k.
      destruct (decide (kv.1 = k')); done.
    + rewrite !filter_cons. destruct (decide (kv.1 = k')) as [Hk'|Hk'].
      * destruct (decide (k = k')); [congruence|done].
      * apply IH.
Qed.

Lemma dict_setitem_keys {V : Type} (d : dict V) (k : Z) (v : V) :
  map fst (dict_setitem d k v)
  = if decide (k ∈ map fst d) then map fst d else map fst d ++ [k].
Proof.
  induction d as [|kv d IH]; cbn [dict_setitem map].
  - rewrite decide_False; [done|]. apply not_elem_of_nil.
  - destruct (decide (kv.1 = k)) as [Hk|Hk]; cbn [map].
    + rewrite decide_True by (rewrite Hk; left). by rewrite Hk.
    + rewrite IH. destruct (decide (k ∈ map fst d)) as [Hin|Hin].
      * rewrite decide_True; [done|by right].
      * rewrite decide_False; [done|].
        intros [?|?]%elem_of_cons; congruence.
Qed.

(** Filling a dict key by key, as both segmentations do. *)
Lemma dict_fill_keys {V X : Type} (key : X -> Z) (val : X -> V)
    (xs : list X) (d : dict V) :
  NoDup (map fst d) ->
  let d' := fold_left (fun masks x => dict_setitem masks (key x) (val x)) xs d in
  NoDup (map fst d') /\
  (forall k, k ∈ map fst d' <-> k ∈ map fst d \/ exists x, x ∈ xs /\ key x = k).
Proof.
  revert d. induction xs as [|x xs IH]; intros d Hd; cbn [fold_left].
  - split; [done|]. intros k. split; [by left|].
    intros [?|(x & Hx & _)]; [done|by apply elem_of_nil in Hx].
  - assert (Hd' : NoDup (map fst (dict_setitem d (key x) (val x)))).
    { rewrite dict_setitem_keys.
      destruct (decide (key x ∈ map fst d)); [done|].
      apply NoDup_app. split; [done|]. split; [|apply NoDup_singleton].
      intros k Hk Hk'%list_elem_of_singleton. by subst k. }
    destruct (IH _ Hd') as [Hnd Hkeys]. split; [done|].
    intros k. rewrite Hkeys, dict_setitem_keys.
    destruct (decide (key x ∈ map fst d)) as [Hin|Hin].
    + split.
      * intros [?|(y & Hy & Hk)]; [by left|]. right. exists y.
        split; [by right|done].
      * intros [?|(y & [->|Hy]%elem_of_cons & Hk)]; [by left| |].
        -- left. by rewrite <- Hk.
        -- right. by exists y.
    + rewrite elem_of_app, list_elem_of_singleton. split.
      * intros [[? | ->] | (y & Hy & Hk)]; [by left| |].
        -- right. exists x. split; [left|done].
        -- right. exists y. split; [by right|done].
      * intros [?|(y & [->|Hy]%elem_of_cons & Hk)]; [by left;left| |].
        -- left. by right.
        -- right. by exists y.
Qed.

(** The last write to a key is the one that is read back. *)
Lemma dict_fill_last {V X : Type} (key : X -> Z) (val : X -> V)
    (before : list X) (x : X) (after : list X) (d : dict V) :
  (forall y, y ∈ after -> key y <> key x) ->
  dict_getitem
    (fold_left (fun masks x => dict_setitem masks (key x) (val x))
               (before ++ x :: after) d) (key x)
  = Ok (val x).
Proof.
  intros Hafter. rewrite fold_left_app. cbn [fold_left].
  set (d1 := fold_left _ before d).
  assert (H1 : dict_getitem (dict_setitem d1 (key x) (val x)) (key x)
               = Ok (val x))
    by (rewrite dict_getitem_setitem; by rewrite decide_True).
  revert H1. generalize (dict_setitem d1 (key x) (val x)). clear d1.
  induction after as [|y after IH]; intros d2 H2; [done|].
  cbn [fold_left]. apply IH.
  - intros z Hz. apply Hafter. by right.
  - rewrite dict_getitem_setitem. rewrite decide_False; [done|].
    apply Hafter. left.
Qed.

Lemma fold_left_ext {St X : Type} (f g : St -> X -> St) (xs : list X) (st : St) :
  (forall s x, f s x = g s x) -> fold_left f xs st = fold_left g xs st.
Proof.
  intros Hfg. revert st. induction xs as [|x xs IH]; intros st; [done|].
  simpl. by rewrite Hfg, IH.
Qed.

(** ** Segmenting the first frame *)

(** X15. On a readable frame, with the SAM2 predictor or with the flood-fill
    fallback, [segment_single_frame] returns one mask per distinct
    [object_id] among the click points: the keys are without repetition,
    they are exactly the ids clicked, and there is no mask at all exactly
    when there is no click point. *)
Theorem segment_single_frame_objects {cv : Cv2} {ff : FloodFill}
    (predictor : option ImagePredictor) (img : Image)
    (click_points : list click_point) :
  exists masks,
    segment_single_frame predictor (Some img) click_points = Ok masks /\
    NoDup (map fst masks) /\
    (forall k, k ∈ map fst masks <->
               exists pt, pt ∈ click_points /\ object_id pt = k) /\
    (masks = [] <-> click_points = []).
Proof.
  assert (Hfill : forall val : click_point -> Mask,
    let masks := fold_left
      (fun masks pt => dict_setitem masks (object_id pt) (val pt))
      click_points [] in
    NoDup (map fst masks) /\
    (forall k, k ∈ map fst masks <->
               exists pt, pt ∈ click_points /\ object_id pt = k) /\
    (masks = [] <-> click_points = [])).
  { intros val masks.
    destruct (dict_fill_keys object_id val click_points [])
      as [Hnd Hkeys]; [constructor|].
    fold masks in Hnd, Hkeys. split; [done|].
    assert (Hk : forall k, k ∈ map fst masks <->
              exists pt, pt ∈ click_points /\ object_id pt = k).
    { intros k. rewrite Hkeys. split; [|by right].
      intros [Hk|?]; [by apply elem_of_nil in Hk|done]. }
    split; [done|]. split.
    - intros Hempty. destruct click_points as [|pt pts]; [done|].
      assert (Hin : object_id pt ∈ map fst masks)
        by (apply Hk; exists pt; split; [left|done]).
      rewrite Hempty in Hin. by apply elem_of_nil in Hin.
    - intros ->. done. }
  unfold segment_single_frame. destruct predictor as [p|].
  - eexists. split; [reflexivity|].
    rewrite (fold_left_ext _
      (fun masks pt => dict_setitem masks (object_id pt)
         (py_max snd (predict_point img (pt_x pt, pt_y pt)).1
                     (predict_point img (pt_x pt, pt_y pt)).2).1)).
    + apply Hfill.
    + intros masks pt. by destruct (predict_point img (pt_x pt, pt_y pt)).
  - unfold _fallback_segment. cbn [cvtColor_gray bind shape].
    destruct (shape img) as [h w]. eexists. split; [reflexivity|].
    apply (Hfill (seed_mask img h w)).
Qed.

(** Three clicks on two objects. *)
Lemma segment_single_frame_objects_witness :
  exists masks,
    segment_single_frame (cv := Reference.static_scene) (ff := block_fill)
      None (Some (uniform_image 10 10)) two_objects = Ok masks /\
    NoDup (map fst masks) /\
    (forall k, k ∈ map fst masks <->
               exists pt, pt ∈ two_objects /\ object_id pt = k) /\
    (masks = [] <-> two_objects = []).
Proof.
  apply (segment_single_frame_objects (cv := Reference.static_scene)
           (ff := block_fill) None (uniform_image 10 10) two_objects).
Defined.

Lemma clamp_range (v : Z) (bound : nat) :
  (0 < bound)%nat ->
  0 <= clamp v bound < Z.of_nat bound /\
  (0 <= v < Z.of_nat bound -> clamp v bound = v).
Proof. unfold clamp. lia. Qed.

(** X16. With the flood-fill fallback on a non-empty frame, the mask kept
    for an object is the one grown from its last click: the flood fill
    starts from the click itself when the click is inside the frame, and
    otherwise from the click moved to the nearest edge, coordinate by
    coordinate (0 for a negative coordinate, the last column or row for one
    past it); its result is closed and then opened. *)
Theorem fallback_segment_last_click {cv : Cv2} {ff : FloodFill}
    (img : Image) (h w : nat) (before : list click_point) (pt : click_point)
    (after : list click_point) :
  shape img = (h, w) -> (0 < h)%nat -> (0 < w)%nat ->
  (forall q, q ∈ after -> object_id q <> object_id pt) ->
  exists masks x y,
    _fallback_segment (Some img) (before ++ pt :: after) = Ok masks /\
    0 <= x < Z.of_nat w /\ 0 <= y < Z.of_nat h /\
    (pt_x pt < 0 -> x = 0) /\
    (0 <= pt_x pt < Z.of_nat w -> x = pt_x pt) /\
    (Z.of_nat w <= pt_x pt -> x = Z.of_nat w - 1) /\
    (pt_y pt < 0 -> y = 0) /\
    (0 <= pt_y pt < Z.of_nat h -> y = pt_y pt) /\
    (Z.of_nat h <= pt_y pt -> y = Z.of_nat h - 1) /\
    dict_getitem masks (object_id pt)
    = Ok (morph_open (morph_close (flood_mask img (x, y)))).
Proof.
  intros Hshape Hh Hw Hafter.
  unfold _fallback_segment. cbn [cvtColor_gray bind shape]. rewrite Hshape.
  eexists. exists (clamp (pt_x pt) w), (clamp (pt_y pt) h).
  split; [reflexivity|].
  destruct (clamp_range (pt_x pt) w Hw) as [Hx Hx'].
  destruct (clamp_range (pt_y pt) h Hh) as [Hy Hy'].
  split; [done|]. split; [done|].
  split; [unfold clamp; lia|]. split; [done|]. split; [unfold clamp; lia|].
  split; [unfold clamp; lia|]. split; [done|]. split; [unfold clamp; lia|].
  apply (dict_fill_last object_id (seed_mask img h w)). done.
Qed.

(** Object 1 was clicked last outside the frame, at (40, -3): its mask grows
    from the corner (9, 0). *)
Lemma fallback_segment_last_click_witness :
  exists masks,
    _fallback_segment (cv := Reference.static_scene) (ff := block_fill)
      (Some (uniform_image 10 10)) two_objects = Ok masks /\
    dict_getitem masks 1
    = Ok (morph_open (FloodFill := block_fill)
            (morph_close (FloodFill := block_fill)
               (flood_mask (FloodFill := block_fill) (uniform_image 10 10)
                  (9, 0)))).
Proof.
  destruct (fallback_segment_last_click (cv := Reference.static_scene)
              (ff := block_fill) (uniform_image 10 10) 10 10
              [ {| pt_x := 2; pt_y := 2; object_id := 1 |};
                {| pt_x := 7; pt_y := 7; object_id := 0 |} ]
              {| pt_x := 40; pt_y := -3; object_id := 1 |} []
              eq_refl ltac:(lia) ltac:(lia)
              ltac:(intros q Hq; by apply elem_of_nil in Hq))
    as (masks & x & y & Hrun & _ & _ & _ & _ & Hx & Hy & _ & _ & Hget).
  exists masks. split; [exact Hrun|].
  rewrite (Hx ltac:(simpl; lia)), (Hy ltac:(simpl; lia)) in Hget.
  exact Hget.
Defined.

(** ** No mask goes missing in the fallback pipeline *)

(** X17. When every object starts with a mask, as after
    [_fallback_segment], fallback propagation leaves no slot absent: every
    object has a mask at every frame index, unreadable frames included. *)
Theorem fallback_propagate_all_present {cv : Cv2}
    (frames : list (option (ndarray Z))) (initial_masks : dict Mask)
    (total_frames : nat) (masks : dict (list (option Mask)))
    (evs : list event) (obj : Z) (l : list (option Mask)) (i : nat) :
  _fallback_propagate frames (map (fun kv => (kv.1, Some kv.2)) initial_masks)
    total_frames = Ok (masks, evs) ->
  (obj, l) ∈ masks -> (i < total_frames)%nat ->
  exists m, l !! i = Some (Some m).
Proof.
  intros Hrun Hin Hi.
  destruct (fallback_propagate_done _ _ _ _ _ Hrun) as [Hmasks _].
  destruct (Hmasks _ Hin) as [_ Hdone]. simpl in Hdone.
  pose proof (fallback_propagate_slot0 _ _ _ _ _ Hrun) as Hslot0.
  assert (H0 : exists m, l !! 0%nat = Some (Some m)).
  { apply list_elem_of_lookup_1 in Hin as [n Hn].
    destruct (Forall2_lookup_r _ _ _ _ _ Hslot0 Hn) as (kv & Hkv & _ & Hl).
    simpl in Hl. apply list_lookup_fmap_Some in Hkv as (kv0 & -> & _).
    simpl in Hl. eauto. }
  induction i as [|i IH]; [done|].
  destruct (IH ltac:(lia)) as [pm Hpm].
  specialize (Hdone (S i) ltac:(lia)). unfold step_done in Hdone.
  replace (S i - 1)%nat with i in Hdone by lia. rewrite Hpm in Hdone.
  destruct (frames !! S i) as [[g|]|]; [| |done].
  - destruct Hdone as (pg & _ & Hd). eauto.
  - destruct Hdone as (m' & Hd1 & Hd2). injection Hd2 as <-. eauto.
Qed.

(** Frame 2 of the four-frame scenario is unreadable and still has a mask. *)
Lemma fallback_propagate_all_present_witness :
  exists m,
    [Some corner_block; Some corner_block; Some corner_block; Some corner_block]
      !! 2%nat = Some (Some m).
Proof.
  apply (fallback_propagate_all_present (cv := Reference.static_scene)
           held_frames [(7, corner_block)] 4
           [(7, replicate 4 (Some corner_block))]
           [PROGRESS 2 4; FLOW 1; PROGRESS 3 4; PROGRESS 4 4; FLOW 3] 7).
  - vm_compute. reflexivity.
  - left.
  - lia.
Defined.

(** ** Propagation by the video predictor *)

Lemma for_each_inv {St X : Type} (body : St -> X -> result St)
    (P : St -> Prop) (xs : list X) (st st' : St) :
  P st ->
  (forall s x s', x ∈ xs -> P s -> body s x = Ok s' -> P s') ->
  for_each body xs st = Ok st' -> P st'.
Proof.
  revert st. induction xs as [|x xs IH]; intros st Hst Hstep Hrun.
  - simpl in Hrun. by injection Hrun as <-.
  - simpl in Hrun. destruct (body st x) as [s1|e] eqn:Hb; [|done].
    simpl in Hrun. apply (IH s1); [|intros s y s' Hy; apply Hstep; by right|done].
    apply (Hstep st x s1); [left|done..].
Qed.

Lemma Forall2_diag {A : Type} (R : A -> A -> Prop) (l : list A) :
  (forall a, R a a) -> Forall2 R l l.
Proof. intros HR. induction l; constructor; auto. Qed.

(** Storing a mask rewrites one slot of the lists of the object named, and
    nothing when the object is not tracked. *)
Lemma store_mask_slots (all_masks d' : dict (list (option Mask))) (obj_id : Z)
    (frame_idx : nat) (mask : Mask) :
  store_mask all_masks obj_id frame_idx mask = Ok d' ->
  Forall2 (fun kv kv' =>
             kv'.1 = kv.1 /\
             (kv'.2 = kv.2 \/
              kv.1 = obj_id /\ kv'.2 = <[frame_idx := Some mask]> kv.2))
          all_masks d'.
Proof.
  revert d'. induction all_masks as [|kv d IH]; intros d' Hrun; simpl in Hrun.
  - injection Hrun as <-. constructor.
  - destruct (decide (kv.1 = obj_id)) as [Hk|Hk].
    + destruct (setitem kv.2 frame_idx (Some mask)) as [l|e] eqn:Hset; [|done].
      simpl in Hrun. injection Hrun as <-.
      apply setitem_Ok in Hset as [_ ->].
      constructor; [split; [done|by right]|].
      apply Forall2_diag. intros a. split; [done|by left].
    + destruct (store_mask d obj_id frame_idx mask) as [d1|e]; [|done].
      simpl in Hrun. injection Hrun as <-.
      constructor; [split; [done|by left]|by apply IH].
Qed.

Lemma store_item_yielded (items : list video_item) (item : video_item)
    (all_masks d' : dict (list (option Mask))) :
  item ∈ items -> slots_yielded items all_masks ->
  store_item all_masks item = Ok d' -> slots_yielded items d'.
Proof.
  intros Hitem Hinv Hrun. unfold store_item in Hrun.
  apply (for_each_inv (store_item_mask item) (slots_yielded items)) in Hrun;
    [done|done|].
  clear Hinv Hrun d' all_masks. intros d [j obj] d' Hjo Hinv Hstep.
  apply elem_of_lookup_imap in Hjo as (j' & obj' & [= -> ->] & Hobj).
  unfold store_item_mask in Hstep. simpl in Hstep.
  destruct (getitem (item_logits item) j') as [logits|e] eqn:Hlog; [|done].
  apply getitem_Ok in Hlog. simpl in Hstep.
  apply store_mask_slots in Hstep.
  intros kv' i m Hin Hslot.
  destruct (Forall2_elem_of_r _ _ _ _ Hstep Hin) as (kv & Hkv & Hk & Hl).
  rewrite Hk. destruct Hl as [Hl|[Hobj' Hl]].
  - rewrite Hl in Hslot. by apply (Hinv kv).
  - rewrite Hl in Hslot.
    destruct (decide (i = item_frame item)) as [->|Hne].
    + apply list_lookup_insert_Some in Hslot as [(_ & Hm & _)|[? _]]; [|done].
      injection Hm as <-. rewrite Hobj'.
      exists item, j', logits. done.
    + rewrite list_lookup_insert_ne in Hslot by done. by apply (Hinv kv).
Qed.

Lemma store_item_shape (item : video_item)
    (all_masks d' : dict (list (option Mask))) :
  store_item all_masks item = Ok d' ->
  Forall2 (fun kv kv' => kv'.1 = kv.1 /\ length kv'.2 = length kv.2)
          all_masks d'.
Proof.
  unfold store_item. intros Hrun.
  apply (for_each_inv (store_item_mask item)
           (fun d => Forall2 (fun kv kv' => kv'.1 = kv.1 /\
                                length kv'.2 = length kv.2) all_masks d))
    in Hrun; [done| |].
  - by apply Forall2_diag.
  - intros d io d1 _ Hinv Hstep. unfold store_item_mask in Hstep.
    destruct (getitem (item_logits item) io.1) as [logits|e]; [|done].
    simpl in Hstep. apply store_mask_slots in Hstep.
    eapply Forall2_compose; [|done..]. simpl.
    intros a b c [Hk Hl] [Hk' [Hl'|[_ Hl']]]; rewrite Hl'.
    + split; congruence.
    + rewrite length_insert. split; congruence.
Qed.

Lemma propagate_masks_lengths {cv : Cv2} (items : list video_item)
    (frames : list (option (ndarray Z))) (initial_masks : dict (option Mask))
    (masks : dict (list (option Mask))) :
  propagate_masks (Some items) frames initial_masks = Ok masks ->
  Forall2 (fun kv kv' => kv'.1 = kv.1 /\ length kv'.2 = length frames)
          initial_masks masks.
Proof.
  unfold propagate_masks. intros Hrun.
  apply (for_each_inv store_item
           (fun d => Forall2 (fun kv kv' => kv'.1 = kv.1 /\
                                length kv'.2 = length frames) initial_masks d))
    in Hrun; [done| |].
  - clear Hrun. induction initial_masks as [|kv d IH]; simpl; constructor;
      [|done]. simpl. by rewrite length_replicate.
  - intros d item d1 _ Hinv Hstep. apply store_item_shape in Hstep.
    eapply Forall2_compose; [|done..]. simpl.
    intros a b c [Hk Hl] [Hk' Hl']. split; congruence.
Qed.

(** X18. With the video predictor, [propagate_masks] returns the objects of
    [initial_masks], in the same order and no other, whatever objects the
    predictor reports, each with one slot per frame. *)
Theorem propagate_masks_shape {cv : Cv2} (items : list video_item)
    (frames : list (option (ndarray Z))) (initial_masks : dict (option Mask))
    (masks : dict (list (option Mask))) :
  propagate_masks (Some items) frames initial_masks = Ok masks ->
  map fst masks = map fst initial_masks /\
  forall obj l, (obj, l) ∈ masks -> length l = length frames.
Proof.
  intros Hrun%propagate_masks_lengths. split.
  - induction Hrun as [|kv kv' d d' [Hk _] _ IH]; [done|].
    simpl. by rewrite Hk, IH.
  - intros obj l Hin.
    destruct (Forall2_elem_of_r _ _ _ _ Hrun Hin) as (kv & _ & _ & Hl). done.
Qed.

(** Object 9, which the predictor reports unasked, is not in the result. *)
Lemma propagate_masks_shape_witness :
  map fst [(1, [Some (mk_ndarray (1, 2)%nat [[1; 0]]); None;
                Some (mk_ndarray (1, 2)%nat [[1; 0]])])]
  = map fst [(1, @None Mask)] /\
  forall obj l,
    (obj, l) ∈ [(1, [Some (mk_ndarray (1, 2)%nat [[1; 0]]); None;
                     Some (mk_ndarray (1, 2)%nat [[1; 0]])])] ->
    length l = length (replicate 3 (@None (ndarray Z))).
Proof.
  apply (propagate_masks_shape (cv := Reference.static_scene) yielded
           (replicate 3 None) [(1, None)]).
  vm_compute. reflexivity.
Defined.

(** X19. With the video predictor, on frames of at least two rows and two
    columns, every mask in the result is the thresholded logits ([> 0]) the
    predictor yielded for that object at that frame, and a slot the
    predictor yielded nothing for stays absent: neither the initial masks
    nor the frames fill any slot, not even slot 0. *)
Theorem propagate_masks_slots {cv : Cv2} (items : list video_item)
    (frames : list (option (ndarray Z))) (initial_masks : dict (option Mask))
    (masks : dict (list (option Mask))) (obj : Z) (l : list (option Mask))
    (i : nat) :
  Forall (fun item => Forall frame_sized (item_logits item)) items ->
  propagate_masks (Some items) frames initial_masks = Ok masks ->
  (obj, l) ∈ masks -> (i < length frames)%nat ->
  (forall m, l !! i = Some (Some m) ->
     yielded_for items obj i m /\
     (1 < (shape m).1)%nat /\ (1 < (shape m).2)%nat) /\
  ((forall item, item ∈ items -> item_frame item = i ->
      obj ∉ item_obj_ids item) ->
   l !! i = Some None).
Proof.
  intros Hsized Hrun Hin Hi.
  pose proof (propagate_masks_lengths _ _ _ _ Hrun) as Hlen.
  assert (Hl : length l = length frames).
  { destruct (Forall2_elem_of_r _ _ _ _ Hlen Hin) as (kv & _ & _ & Hl). done. }
  assert (Hy : slots_yielded items masks).
  { unfold propagate_masks in Hrun.
    apply (for_each_inv store_item (slots_yielded items)) in Hrun; [done| |].
    - intros kv j m Hkv Hslot. exfalso.
      apply list_elem_of_fmap in Hkv as (kv0 & -> & _). simpl in Hslot.
      apply lookup_replicate in Hslot as [? _]. done.
    - intros d item d1 Hitem Hinv Hstep.
      by apply (store_item_yielded items item d). }
  assert (Hm : forall m, l !! i = Some (Some m) -> yielded_for items obj i m)
    by (intros m Hslot; by apply (Hy (obj, l))).
  split.
  { intros m Hslot. split; [by apply Hm|].
    destruct (Hm m Hslot) as (item & j & logits & Hitem & _ & _ & Hlg & ->).
    assert (Hfs : frame_sized logits).
    { apply (proj1 (Forall_forall _ _)
               (proj1 (Forall_forall _ _) Hsized item Hitem)).
      by eapply list_elem_of_lookup_2. }
    exact Hfs. }
  intros Hnone.
  destruct (lookup_lt_is_Some_2 l i ltac:(lia)) as [[m|] Hslot]; [|done].
  exfalso. destruct (Hm m Hslot) as (item & j & logits & Hitem & Hf & Hobj & _).
  apply (Hnone item Hitem Hf). by eapply list_elem_of_lookup_2.
Qed.

(** Object 1 starts from the corner block; the predictor yields other
    logits for frame 0, and the mask of slot 0 is those logits thresholded,
    not the initial mask. *)
Lemma propagate_masks_slots_witness :
  (forall m, [Some (mk_ndarray (2, 2)%nat [[1; 0]; [0; 1]]); None] !! 0%nat
             = Some (Some m) ->
             yielded_for yielded_pair 1 0 m /\
             (1 < (shape m).1)%nat /\ (1 < (shape m).2)%nat) /\
  ((forall item, item ∈ yielded_pair -> item_frame item = 0%nat ->
      1 ∉ item_obj_ids item) ->
   [Some (mk_ndarray (2, 2)%nat [[1; 0]; [0; 1]]); None] !! 0%nat = Some None).
Proof.
  apply (propagate_masks_slots (cv := Reference.static_scene) yielded_pair
           (replicate 2 None) [(1, Some corner_block)]
           [(1, [Some (mk_ndarray (2, 2)%nat [[1; 0]; [0; 1]]); None])] 1).
  - repeat constructor.
  - vm_compute. reflexivity.
  - left.
  - vm_compute. lia.
Defined.

(** ** The order of strings *)

Lemma ascii_compare_refl (c : ascii) : Ascii.compare c c = Eq.
Proof. unfold Ascii.compare. apply N.compare_refl. Qed.

Lemma ascii_compare_lt_trans (a b c : ascii) :
  Ascii.compare a b = Lt -> Ascii.compare b c = Lt -> Ascii.compare a c = Lt.
Proof.
  unfold Ascii.compare. rewrite !N.compare_lt_iff. apply N.lt_trans.
Qed.

Lemma string_compare_trans (s1 s2 s3 : string) :
  String.compare s1 s2 <> Gt -> String.compare s2 s3 <> Gt ->
  String.compare s1 s3 <> Gt.
Proof.
  revert s2 s3. induction s1 as [|c1 s1 IH]; intros [|c2 s2] [|c3 s3];
    simpl; try done.
  destruct (Ascii.compare c1 c2) eqn:H12; [| |done].
  - apply Ascii.compare_eq_iff in H12 as ->.
    destruct (Ascii.compare c2 c3); [apply IH|done..].
  - destruct (Ascii.compare c2 c3) eqn:H23; [| |done].
    + apply Ascii.compare_eq_iff in H23 as <-. by rewrite H12.
    + by rewrite (ascii_compare_lt_trans _ _ _ H12 H23).
Qed.

Lemma string_le_compare (a b : string) :
  string_le a b <-> String.compare a b <> Gt.
Proof. unfold string_le, String.leb. by destruct (String.compare a b). Qed.

#[global] Instance string_le_total : Total string_le.
Proof. intros a b. apply String.leb_total. Qed.

#[global] Instance string_le_trans : Transitive string_le.
Proof.
  intros a b c. rewrite !string_le_compare. apply string_compare_trans.
Qed.

#[global] Instance string_le_antisymm : AntiSymm (=) string_le.
Proof. intros a b. apply String.leb_antisym. Qed.

(** ** Finding the frames *)

Lemma has_magic_rstrip_sep (s : string) :
  has_magic (rstrip_sep s) = has_magic s.
Proof.
  induction s as [|c s IH]; [done|]. cbn [rstrip_sep has_magic].
  destruct (rstrip_sep s) as [|c' s'] eqn:Hs.
  - simpl in IH. rewrite <- IH.
    destruct (Ascii.eqb_spec c "/") as [->|_]; [done|].
    simpl. by rewrite !orb_false_r.
  - cbn [has_magic]. cbn [has_magic] in IH. by rewrite IH.
Qed.

Lemma has_magic_pattern_dir (frames_dir : string) :
  has_magic (pattern_dir frames_dir) = has_magic frames_dir.
Proof.
  unfold pattern_dir. destruct (all_sep frames_dir); [done|].
  apply has_magic_rstrip_sep.
Qed.

(** Without glob characters in the directory path, one directory is
    listed. *)
Lemma glob_plain (fs : filesystem) (frames_dir : string)
    (matches : dir_entry -> bool) :
  has_magic frames_dir = false ->
  glob fs frames_dir matches
  = glob_in_dir fs (pattern_dir frames_dir) matches.
Proof.
  intros Hplain. unfold glob. rewrite has_magic_pattern_dir, Hplain.
  simpl. apply app_nil_r.
Qed.

Lemma sorted_glob_Sorted (fs : filesystem) (frames_dir : string)
    (matches : dir_entry -> bool) :
  Sorted string_le (sorted_glob fs frames_dir matches).
Proof. apply (Sorted_merge_sort string_le). Qed.

Lemma sorted_glob_Permutation (fs : filesystem) (frames_dir : string)
    (matches : dir_entry -> bool) :
  has_magic frames_dir = false ->
  sorted_glob fs frames_dir matches
  ≡ₚ map (fun e => path_join (pattern_dir frames_dir) (entry_name e))
         (List.filter matches (listdir fs (pattern_dir frames_dir))).
Proof.
  intros Hplain. unfold sorted_glob. rewrite merge_sort_Permutation.
  by rewrite glob_plain.
Qed.

Lemma List_filter_Permutation {A : Type} (f : A -> bool) (l l' : list A) :
  l ≡ₚ l' -> List.filter f l ≡ₚ List.filter f l'.
Proof.
  induction 1 as [|x l l' _ IH|x y l|l1 l2 l3 _ IH1 _ IH2]; simpl.
  - done.
  - destruct (f x); [by constructor|done].
  - destruct (f x), (f y); try done. apply perm_swap.
  - by etrans.
Qed.

Lemma sorted_glob_listing (fs fs' : filesystem) (frames_dir : string)
    (matches : dir_entry -> bool) :
  has_magic frames_dir = false ->
  listdir fs' (pattern_dir frames_dir) ≡ₚ listdir fs (pattern_dir frames_dir) ->
  sorted_glob fs' frames_dir matches = sorted_glob fs frames_dir matches.
Proof.
  intros Hplain Hperm. apply (Sorted_unique string_le);
    [apply sorted_glob_Sorted..|].
  rewrite !sorted_glob_Permutation by done.
  apply Permutation_map. by apply List_filter_Permutation.
Qed.

Lemma sorted_glob_nil (fs : filesystem) (frames_dir : string)
    (matches : dir_entry -> bool) :
  has_magic frames_dir = false ->
  sorted_glob fs frames_dir matches = [] <->
  forall e, e ∈ listdir fs (pattern_dir frames_dir) -> matches e = false.
Proof.
  intros Hplain.
  pose proof (sorted_glob_Permutation fs frames_dir matches Hplain) as Hperm.
  split.
  - intros Hnil e He. destruct (matches e) eqn:Hm; [exfalso|done].
    rewrite Hnil in Hperm. symmetry in Hperm. apply Permutation_nil_r in Hperm.
    assert (Hin : In e (List.filter matches
                          (listdir fs (pattern_dir frames_dir)))).
    { apply filter_In. split; [by apply list_elem_of_In|done]. }
    apply (in_map (fun e => path_join (pattern_dir frames_dir) (entry_name e)))
      in Hin.
    rewrite Hperm in Hin. done.
  - intros Hnone. apply Permutation_nil_r. symmetry. rewrite Hperm.
    assert (Hf : List.filter matches (listdir fs (pattern_dir frames_dir))
                 = []); [|by rewrite Hf].
    clear Hperm. revert Hnone.
    generalize (listdir fs (pattern_dir frames_dir)). intros l.
    induction l as [|e l IH]; intros Hnone; [done|].
    simpl. rewrite (Hnone e) by left.
    apply IH. intros e' He'. apply Hnone. by right.
Qed.

(** [load_frames] is one of its four globs. *)
Lemma load_frames_tier (fs : filesystem) (frames_dir : string) :
  exists matches, load_frames fs frames_dir = sorted_glob fs frames_dir matches.
Proof.
  unfold load_frames.
  destruct (sorted_glob fs frames_dir
              (fun e => match_st_frame_png (entry_name e)))
    eqn:H1; [|by eexists].
  destruct (sorted_glob fs frames_dir (fun e => match_st_frame (entry_name e)))
    eqn:H2; [|by eexists].
  destruct (sorted_glob fs frames_dir (fun e => match_png (entry_name e)))
    eqn:H3; [|by eexists].
  by eexists.
Qed.

(** X20. For a frames directory whose path holds no glob character ([*],
    [?], [[]), the paths [load_frames] returns are in ascending string
    order, each is the path of an entry of that directory, and they do not
    depend on the order in which the system lists the directory: two
    listings of the same entries give the same sequence. *)
Theorem load_frames_sorted (fs fs' : filesystem) (frames_dir : string) :
  has_magic frames_dir = false ->
  listdir fs' (pattern_dir frames_dir) ≡ₚ listdir fs (pattern_dir frames_dir) ->
  Sorted string_le (load_frames fs frames_dir) /\
  (forall p, p ∈ load_frames fs frames_dir ->
     exists e, e ∈ listdir fs (pattern_dir frames_dir) /\
               p = path_join (pattern_dir frames_dir) (entry_name e)) /\
  load_frames fs' frames_dir = load_frames fs frames_dir.
Proof.
  intros Hplain Hperm. split; [|split].
  - destruct (load_frames_tier fs frames_dir) as [m ->].
    apply sorted_glob_Sorted.
  - destruct (load_frames_tier fs frames_dir) as [m ->]. intros p Hp.
    rewrite sorted_glob_Permutation in Hp by done.
    apply list_elem_of_In, in_map_iff in Hp as (e & He & Hin).
    apply filter_In in Hin as [Hin _]. exists e.
    split; [by apply list_elem_of_In|done].
  - unfold load_frames.
    by rewrite !(sorted_glob_listing fs fs' frames_dir _ Hplain Hperm).
Qed.

(** The render folder at [/renders/shot/], listed in two orders: the three
    frames come back in the order of their names, with their paths. *)
Lemma load_frames_sorted_witness :
  Sorted string_le
    [ "/renders/shot/st_frame_00000.png"; "/renders/shot/st_frame_00001.png";
      "/renders/shot/st_frame_00002.png" ]%string /\
  (forall p,
     p ∈ [ "/renders/shot/st_frame_00000.png";
           "/renders/shot/st_frame_00001.png";
           "/renders/shot/st_frame_00002.png" ]%string ->
     exists e, e ∈ render_folder /\
               p = path_join "/renders/shot" (entry_name e)) /\
  load_frames (render_fs (reverse render_folder)) "/renders/shot/"
  = [ "/renders/shot/st_frame_00000.png"; "/renders/shot/st_frame_00001.png";
      "/renders/shot/st_frame_00002.png" ]%string.
Proof.
  apply (load_frames_sorted (render_fs render_folder)
           (render_fs (reverse render_folder)) "/renders/shot/").
  - reflexivity.
  - apply (reverse_Permutation render_folder).
Defined.

(** X21. For a frames directory whose path holds no glob character, as
    soon as one of its entries is named [st_frame_*.png], [load_frames]
    returns exactly the paths of the entries so named, each once per entry,
    and nothing else from the directory. *)
Theorem load_frames_prefers_st_frame_png (fs : filesystem)
    (frames_dir : string) (e : dir_entry) :
  has_magic frames_dir = false ->
  e ∈ listdir fs (pattern_dir frames_dir) ->
  match_st_frame_png (entry_name e) = true ->
  load_frames fs frames_dir
  ≡ₚ map (fun e => path_join (pattern_dir frames_dir) (entry_name e))
       (List.filter (fun e => match_st_frame_png (entry_name e))
          (listdir fs (pattern_dir frames_dir))).
Proof.
  intros Hplain He Hm. unfold load_frames.
  destruct (sorted_glob fs frames_dir
              (fun e => match_st_frame_png (entry_name e))) eqn:H1.
  - pose proof (proj1 (sorted_glob_nil _ _ _ Hplain) H1 e He) as Hno.
    simpl in Hno. by rewrite Hno in Hm.
  - rewrite <- H1. by apply sorted_glob_Permutation.
Qed.

(** The render folder: the thumbnail and the hidden file are left out. *)
Lemma load_frames_prefers_st_frame_png_witness :
  [ "/renders/shot/st_frame_00000.png"; "/renders/shot/st_frame_00001.png";
    "/renders/shot/st_frame_00002.png" ]%string
  ≡ₚ [ "/renders/shot/st_frame_00002.png"; "/renders/shot/st_frame_00000.png";
       "/renders/shot/st_frame_00001.png" ]%string.
Proof.
  apply (load_frames_prefers_st_frame_png (render_fs render_folder)
           "/renders/shot/"
           {| entry_name := "st_frame_00002.png"; entry_is_file := true |}).
  - reflexivity.
  - left.
  - reflexivity.
Defined.

(** X22. For a frames directory whose path holds no glob character,
    [load_frames] returns no path exactly when the directory has no entry
    named [st_frame_*], no visible entry named [*.png] and no visible
    regular file; entries whose name starts with a dot never count. *)
Theorem load_frames_empty (fs : filesystem) (frames_dir : string) :
  has_magic frames_dir = false ->
  load_frames fs frames_dir = [] <->
  forall e, e ∈ listdir fs (pattern_dir frames_dir) ->
    match_st_frame (entry_name e) = false /\
    match_png (entry_name e) = false /\
    (entry_is_file e = true -> hidden (entry_name e) = true).
Proof.
  intros Hplain. unfold load_frames.
  destruct (sorted_glob fs frames_dir
              (fun e => match_st_frame_png (entry_name e)))
    as [|p1 ps1] eqn:H1.
  2:{ split; [done|]. intros Hnone. exfalso.
      assert (Hne : sorted_glob fs frames_dir
                      (fun e => match_st_frame_png (entry_name e)) <> [])
        by (by rewrite H1).
      apply Hne, sorted_glob_nil; [done|]. intros e He.
      destruct (Hnone e He) as (H2 & _). unfold match_st_frame_png.
      unfold match_st_frame in H2. by rewrite H2. }
  destruct (sorted_glob fs frames_dir (fun e => match_st_frame (entry_name e)))
    as [|p2 ps2] eqn:H2.
  2:{ split; [done|]. intros Hnone. exfalso.
      assert (Hne : sorted_glob fs frames_dir
                      (fun e => match_st_frame (entry_name e)) <> [])
        by (by rewrite H2).
      apply Hne, sorted_glob_nil; [done|]. intros e He.
      by destruct (Hnone e He). }
  destruct (sorted_glob fs frames_dir (fun e => match_png (entry_name e)))
    as [|p3 ps3] eqn:H3.
  2:{ split; [done|]. intros Hnone. exfalso.
      assert (Hne : sorted_glob fs frames_dir
                      (fun e => match_png (entry_name e)) <> [])
        by (by rewrite H3).
      apply Hne, sorted_glob_nil; [done|]. intros e He.
      by destruct (Hnone e He) as (_ & ? & _). }
  rewrite sorted_glob_nil in H2, H3 by done. rewrite sorted_glob_nil by done.
  split.
  - intros H4 e He. split; [by apply H2|]. split; [by apply H3|].
    intros Hfile. specialize (H4 e He). unfold match_any in H4.
    rewrite Hfile, andb_true_r in H4. by apply negb_false_iff.
  - intros Hnone e He. destruct (Hnone e He) as (_ & _ & Hhid).
    unfold match_any. destruct (entry_is_file e); [|apply andb_false_r].
    by rewrite Hhid.
Qed.

(** A folder that holds a hidden file and a subdirectory has nothing to
    load; the render folder has. *)
Lemma load_frames_empty_witness :
  (load_frames (render_fs render_folder) "/renders/empty" = [] <->
   forall e,
     e ∈ [ {| entry_name := ".DS_Store"; entry_is_file := true |};
           {| entry_name := "cache"; entry_is_file := false |} ] ->
     match_st_frame (entry_name e) = false /\
     match_png (entry_name e) = false /\
     (entry_is_file e = true -> hidden (entry_name e) = true)) /\
  load_frames (render_fs render_folder) "/renders/empty" = [] /\
  load_frames (render_fs render_folder) "/renders/shot" <> [].
Proof.
  split; [|split; [reflexivity|discriminate]].
  apply (load_frames_empty (render_fs render_folder) "/renders/empty").
  reflexivity.
Defined.

(** ** The model cache *)

(** X23. Each predictor is loaded at most once per process: whatever the
    first call of [get_sam2_predictor] returned, a predictor or [None] after
    a failed load, every later call returns that same value without
    attempting any load and without touching the cache, whatever has become
    of the machine in between; the same holds of
    [get_sam2_image_predictor], and neither call disturbs the other's
    entry. *)
Theorem model_cache_memoised {V I : Type} (env env1 env2 : sam2_env V I)
    (cache c1 c2 : model_cache V I) (v : option V) (i : option I)
    (t1 t2 : list checkpoint) :
  get_sam2_predictor env cache = (v, c1, t1) ->
  get_sam2_image_predictor env1 c1 = (i, c2, t2) ->
  get_sam2_predictor env2 c2 = (v, c2, []) /\
  get_sam2_image_predictor env2 c2 = (i, c2, []).
Proof.
  unfold get_sam2_predictor, get_sam2_image_predictor.
  destruct cache as [[p|] [q|]]; simpl.
  - intros [= <- <- <-]. simpl. by intros [= <- <- <-].
  - intros [= <- <- <-]. simpl.
    destruct (if sam2_importable env1 then _ else _) as [q tried].
    by intros [= <- <- <-].
  - destruct (if sam2_importable env then _ else _) as [p tried].
    intros [= <- <- <-]. simpl. by intros [= <- <- <-].
  - destruct (if sam2_importable env then _ else _) as [p tried].
    intros [= <- <- <-]. simpl.
    destruct (if sam2_importable env1 then _ else _) as [q tried'].
    by intros [= <- <- <-].
Qed.

(** The video predictor is loaded where only the small checkpoint loads,
    the image predictor is then asked for on a machine without [sam2], and
    fails; both answers stay. *)
Lemma model_cache_memoised_witness :
  get_sam2_predictor small_env
    {| cache_predictor := Some (Some 1%nat);
       cache_image_predictor := Some None |}
  = (Some 1%nat,
     {| cache_predictor := Some (Some 1%nat);
        cache_image_predictor := Some None |}, []) /\
  get_sam2_image_predictor small_env
    {| cache_predictor := Some (Some 1%nat);
       cache_image_predictor := Some None |}
  = (None,
     {| cache_predictor := Some (Some 1%nat);
        cache_image_predictor := Some None |}, []).
Proof.
  apply (model_cache_memoised small_env bare_env small_env
           (mk_model_cache None None)
           {| cache_predictor := Some (Some 1%nat);
              cache_image_predictor := None |}
           {| cache_predictor := Some (Some 1%nat);
              cache_image_predictor := Some None |}
           (Some 1%nat) None [hiera_large; hiera_small] []);
    reflexivity.
Defined.

(** ** The run, from the frames directory on *)

(** On a readable frame both segmentations fill the dict click by click. *)
Lemma segment_single_frame_fill {cv : Cv2} {ff : FloodFill}
    (predictor : option ImagePredictor) (img : Image)
    (click_points : list click_point) :
  exists val : click_point -> Mask,
    segment_single_frame predictor (Some img) click_points
    = Ok (fold_left
            (fun masks pt => dict_setitem masks (object_id pt) (val pt))
            click_points []).
Proof.
  unfold segment_single_frame. destruct predictor as [p|].
  - exists (fun pt =>
      (py_max snd (predict_point img (pt_x pt, pt_y pt)).1
                  (predict_point img (pt_x pt, pt_y pt)).2).1).
    f_equal. apply fold_left_ext.
    intros masks pt. by destruct (predict_point img (pt_x pt, pt_y pt)).
  - unfold _fallback_segment. cbn [cvtColor_gray bind shape].
    destruct (shape img) as [h w]. by exists (seed_mask img h w).
Qed.

Lemma dict_fill_nil {V X : Type} (key : X -> Z) (val : X -> V) (xs : list X) :
  fold_left (fun masks x => dict_setitem masks (key x) (val x)) xs [] = [] ->
  xs = [].
Proof.
  intros Hempty. destruct xs as [|x xs]; [done|].
  destruct (dict_fill_keys key val (x :: xs) []) as [_ Hkeys]; [constructor|].
  simpl in Hkeys. assert (Hin : key x ∈ map fst
    (fold_left (fun masks x => dict_setitem masks (key x) (val x)) (x :: xs)
       [])).
  { apply Hkeys. right. exists x. split; [left|done]. }
  rewrite Hempty in Hin. by apply elem_of_nil in Hin.
Qed.

(** Propagation, with SAM2 or without, keeps the objects it was given. *)
Lemma propagate_masks_keys {cv : Cv2} (predictor : option (list video_item))
    (frames : list (option (ndarray Z))) (initial_masks : dict (option Mask))
    (masks : dict (list (option Mask))) :
  propagate_masks predictor frames initial_masks = Ok masks ->
  map fst masks = map fst initial_masks.
Proof.
  destruct predictor as [items|].
  - intros Hrun%propagate_masks_lengths.
    induction Hrun as [|kv kv' d d' [Hk _] _ IH]; [done|].
    simpl. by rewrite Hk, IH.
  - unfold propagate_masks.
    destruct (_fallback_propagate _ _ _) as [[masks' evs]|e] eqn:Hrun; [|done].
    simpl. intros [= <-]. apply fallback_propagate_slot0 in Hrun.
    induction Hrun as [|kv kv' d d' [Hk _] _ IH]; [done|].
    simpl. by rewrite Hk, IH.
Qed.

(** The tracks of a completed analysis: one entry per frame, in order. *)
Lemma run_tracks {cv : Cv2} (frames : list (option Image))
    (initial_masks : dict Mask) (all_masks : dict (list (option Mask)))
    (comp_width comp_height : Z) (objects : list (Z * list frame_data)) :
  run_segment_and_track frames initial_masks all_masks comp_width comp_height
  = Ok (Some objects) ->
  map fst objects = sorted_keys all_masks /\
  forall obj track, (obj, track) ∈ objects ->
    length track = length frames /\
    forall i, (i < length frames)%nat ->
      exists e, track !! i = Some e /\ frame_index e = i.
Proof.
  intros Hobjs%run_objects. split.
  { induction Hobjs as [|k o ks os Ho Hos IH]; [done|].
    simpl. f_equal; [by apply analyze_object_id in Ho|done]. }
  intros obj track Hin.
  destruct (Forall2_elem_of_r _ _ _ _ Hobjs Hin) as (k & _ & Hk).
  unfold analyze_object in Hk.
  destruct (dict_getitem all_masks k) as [masks_list|e]; [|done].
  simpl in Hk.
  destruct (analyze_frames frames masks_list comp_width comp_height)
    as [raw|e] eqn:Hraw; [|done].
  simpl in Hk. injection Hk as <- <-.
  destruct (analyze_frames_analyzed _ _ _ _ _ Hraw) as (prev & Hlen & _ & Hall).
  simpl in Hlen, Hall.
  split; [by rewrite smooth_motion_vectors_length|].
  intros i Hi. destruct (Hall i Hi) as (r & Hr & Hidx & _).
  pose proof (smooth_motion_vectors_same raw 3) as Hsame.
  destruct (Forall2_lookup_r _ _ _ _ _ Hsame Hr) as (e & He & Her).
  exists e. split; [done|]. destruct Her as (Hfi & _). congruence.
Qed.

(** X24. A run ends without results, on an [ERROR:] line, in exactly two
    cases: the frames directory holds no frame, or the first frame is
    readable and there is no click point. In particular a run with click
    points on a directory with frames either writes results or raises. *)
Theorem run_config_no_results {cv : Cv2} {ff : FloodFill} (d : disk)
    (image_predictor : option ImagePredictor)
    (video_predictor : option (list video_item))
    (frames_dir : string) (click_points : list click_point)
    (comp_width comp_height : Z) :
  run_segment_and_track_config d image_predictor video_predictor frames_dir
    click_points comp_width comp_height = Ok None
  <->
  load_frames (files d) frames_dir = [] \/
  (click_points = [] /\
   exists first img,
     head (load_frames (files d) frames_dir) = Some first /\
     imread d first = Some img).
Proof.
  unfold run_segment_and_track_config.
  destruct (load_frames (files d) frames_dir) as [|first rest].
  { split; [by left|done]. }
  destruct (imread d first) as [img|] eqn:Him.
  2:{ split; [done|]. intros [?|(_ & f & img & [= <-] & Hf)]; [done|].
      congruence. }
  destruct (segment_single_frame_fill image_predictor img click_points)
    as [val ->]. simpl.
  destruct (fold_left (fun masks pt => dict_setitem masks (object_id pt) (val pt))
              click_points [])
    as [|kv initial] eqn:Hfill.
  - apply dict_fill_nil in Hfill. split; [|done]. intros _. right.
    split; [done|]. by exists first, img.
  - split.
    + destruct (propagate_masks _ _ _) as [all_masks|e]; [|done]. simpl.
      unfold run_segment_and_track. simpl.
      by destruct (map_result _ _).
    + intros [?|(-> & _)]; done.
Qed.

(** X25. A run that writes results writes one track per distinct object id
    among the click points and no other, in increasing order of id, with
    SAM2 or without; every track has exactly one entry per frame
    [load_frames] found, entry [i] carrying [frame_index] [i]. *)
Theorem run_config_tracks {cv : Cv2} {ff : FloodFill} (d : disk)
    (image_predictor : option ImagePredictor)
    (video_predictor : option (list video_item))
    (frames_dir : string) (click_points : list click_point)
    (comp_width comp_height : Z) (objects : list (Z * list frame_data)) :
  run_segment_and_track_config d image_predictor video_predictor frames_dir
    click_points comp_width comp_height = Ok (Some objects) ->
  Sorted Z.le (map fst objects) /\
  NoDup (map fst objects) /\
  (forall k, k ∈ map fst objects <->
             exists pt, pt ∈ click_points /\ object_id pt = k) /\
  forall obj track, (obj, track) ∈ objects ->
    length track = length (load_frames (files d) frames_dir) /\
    forall i, (i < length (load_frames (files d) frames_dir))%nat ->
      exists e, track !! i = Some e /\ frame_index e = i.
Proof.
  unfold run_segment_and_track_config.
  destruct (load_frames (files d) frames_dir) as [|first rest]; [done|].
  destruct (imread d first) as [img|]; [|done].
  destruct (segment_single_frame_fill image_predictor img click_points)
    as [val ->]. simpl.
  destruct (dict_fill_keys object_id val click_points [])
    as [Hnd Hkeys]; [constructor|]. simpl in Hnd, Hkeys.
  destruct (fold_left (fun masks pt => dict_setitem masks (object_id pt) (val pt))
              click_points [])
    as [|kv initial]; [done|].
  destruct (propagate_masks _ _ _) as [all_masks|e] eqn:Hprop; [|done].
  simpl. intros Hrun. apply propagate_masks_keys in Hprop.
  rewrite map_map in Hprop. simpl in Hprop.
  change (kv.1 :: map (fun x => x.1) initial)
    with (map fst (kv :: initial)) in Hprop.
  destruct (run_tracks (map (imread d) (first :: rest)) (kv :: initial)
              all_masks comp_width comp_height objects Hrun)
    as [Hobjs Htracks].
  assert (Hperm : map fst objects ≡ₚ map fst (kv :: initial)).
  { rewrite Hobjs. unfold sorted_keys. rewrite merge_sort_Permutation.
    by rewrite Hprop. }
  split; [|split; [|split]].
  - rewrite Hobjs. apply (Sorted_merge_sort Z.le).
  - by rewrite Hperm.
  - intros k. rewrite Hperm, Hkeys. split; [|by right].
    intros [Hk|?]; [by apply elem_of_nil in Hk|done].
  - intros obj track Hin. destruct (Htracks obj track Hin) as [Hlen Hall].
    rewrite length_map in Hlen, Hall. done.
Qed.

(** The render folder, two objects clicked, without SAM2. *)
Lemma run_config_tracks_witness :
  Sorted Z.le (map fst render_objects) /\
  NoDup (map fst render_objects) /\
  (forall k, k ∈ map fst render_objects <->
             exists pt, pt ∈ two_objects /\ object_id pt = k) /\
  forall obj track, (obj, track) ∈ render_objects ->
    length track = length (load_frames (files render_disk) "/renders/shot/") /\
    forall i,
      (i < length (load_frames (files render_disk) "/renders/shot/"))%nat ->
      exists e, track !! i = Some e /\ frame_index e = i.
Proof.
  apply (run_config_tracks (cv := Reference.static_scene) (ff := block_fill)
           render_disk None None "/renders/shot/" two_objects 10 10
           render_objects).
  vm_compute. reflexivity.
Defined.

(** ** The centroid lies in the box *)

Lemma py_round_between (x : Q) (a b : Z) (ndigits : nat) :
  (inject_Z a <= x)%Q -> (x <= inject_Z b)%Q ->
  (inject_Z a <= py_round x ndigits)%Q /\
  (py_round x ndigits <= inject_Z b)%Q.
Proof.
  intros Ha Hb. unfold py_round. rewrite Qred_correct.
  set (s := 10 ^ Z.of_nat ndigits).
  assert (Hs : 0 < s) by (apply Z.pow_pos_nonneg; lia).
  assert (HsQ : (0 < inject_Z s)%Q).
  { change 0%Q with (inject_Z 0). by rewrite <- Zlt_Qlt. }
  destruct (round_half_even_bounds (x * inject_Z s) (a * s) (b * s))
    as [Hlo Hhi].
  - rewrite inject_Z_mult.
    apply Qmult_le_compat_r; [done|by apply Qlt_le_weak].
  - rewrite inject_Z_mult.
    apply Qmult_le_compat_r; [done|by apply Qlt_le_weak].
  - split.
    + apply Qle_shift_div_l; [done|].
      rewrite <- inject_Z_mult. by rewrite <- Zle_Qle.
    + apply Qle_shift_div_r; [done|].
      rewrite <- inject_Z_mult. by rewrite <- Zle_Qle.
Qed.

(** A sum of coordinates weighted by non-negative values lies between the
    least and the greatest coordinate of a nonzero value, times the sum of
    the values. *)
Lemma weighted_sum_bounds {A : Type} (coord val : A -> Z) (lo hi : Z)
    (ps : list A) :
  Forall (fun p => 0 <= val p) ps ->
  Forall (fun p => val p <> 0 -> lo <= coord p <= hi) ps ->
  lo * sum_Z (map val ps) <= sum_Z (map (fun p => coord p * val p) ps)
  <= hi * sum_Z (map val ps).
Proof.
  induction 1 as [|p ps Hp Hps IH]; intros Hc; simpl; [lia|].
  apply Forall_cons in Hc as [Hcp Hc]. specialize (IH Hc).
  destruct (decide (val p = 0)) as [Hz|Hnz]; [rewrite Hz; lia|].
  specialize (Hcp Hnz). nia.
Qed.

Lemma sum_Z_nonneg_zero {A : Type} (val : A -> Z) (ps : list A) :
  Forall (fun p => 0 <= val p) ps ->
  sum_Z (map val ps) <= 0 ->
  filter (fun p => val p <> 0) ps = [].
Proof.
  induction 1 as [|p ps Hp Hps IH]; intros Hsum; [done|].
  simpl in Hsum.
  assert (Hrest : 0 <= sum_Z (map val ps)).
  { clear -Hps. induction Hps; simpl; lia. }
  rewrite filter_cons. rewrite decide_False by lia. apply IH. lia.
Qed.

Lemma analyze_frame_centroid {cv : Cv2} (image : option Image) (mask : Mask)
    (prev_centroid : option vec2) (a : analysis) :
  analyze_frame image mask prev_centroid = Ok a ->
  Analysis.centroid a
  = if 0 <? m00 (moments mask) then
      (py_round (inject_Z (m10 (moments mask)) / inject_Z (m00 (moments mask))) 2,
       py_round (inject_Z (m01 (moments mask)) / inject_Z (m00 (moments mask))) 2)
    else
      (py_round (inject_Z (Z.of_nat (shape mask).2) / 2) 2,
       py_round (inject_Z (Z.of_nat (shape mask).1) / 2) 2).
Proof.
  unfold analyze_frame. destruct (shape mask) as [h w].
  destruct (0 <? m00 (moments mask));
    (destruct (cvtColor_gray image) as [gray|e]; [|done]; simpl;
     destruct (bool_index gray mask) as [px|e]; [|done]; simpl;
     by intros [= <-]).
Qed.

Lemma Qdiv_between (n d lo hi : Z) :
  0 < d -> lo * d <= n <= hi * d ->
  (inject_Z lo <= inject_Z n / inject_Z d)%Q /\
  (inject_Z n / inject_Z d <= inject_Z hi)%Q.
Proof.
  intros Hd [Hlo Hhi].
  assert (HdQ : (0 < inject_Z d)%Q).
  { change 0%Q with (inject_Z 0). by rewrite <- Zlt_Qlt. }
  split.
  - apply Qle_shift_div_l; [done|]. rewrite <- inject_Z_mult.
    by rewrite <- Zle_Qle.
  - apply Qle_shift_div_r; [done|]. rewrite <- inject_Z_mult.
    by rewrite <- Zle_Qle.
Qed.

Lemma max_list_elem (l : list nat) : l <> [] -> max_list l ∈ l.
Proof.
  induction l as [|x l IH]; [done|]. intros _. simpl.
  destruct l as [|y l]; [simpl; rewrite Nat.max_0_r; left|].
  destruct (Nat.max_spec x (max_list (y :: l))) as [[_ ->]|[_ ->]];
    [right; by apply IH|left].
Qed.

Lemma min_list_elem (d : nat) (l : list nat) :
  d ∈ l -> min_list d l ∈ l.
Proof.
  intros Hd.
  assert (H : min_list d l ∈ l \/ min_list d l = d); [|by destruct H as [?| ->]].
  clear Hd. induction l as [|x l IH]; [by right|]. simpl.
  destruct (Nat.min_spec x (min_list d l)) as [[_ ->]|[_ ->]]; [left; left|].
  destruct IH as [?|?]; [left; by right|by right].
Qed.

(** The box of [cv2.boundingRect] is tight: each of its sides passes
    through a point it was computed from. *)
Lemma boundingRect_tight (coords : list (nat * nat)) :
  coords <> [] ->
  let '(x1, y1, bw, bh) := boundingRect coords in
  (exists q, q ∈ coords /\ Z.of_nat q.1 = x1) /\
  (exists q, q ∈ coords /\ Z.of_nat q.1 = x1 + bw - 1) /\
  (exists q, q ∈ coords /\ Z.of_nat q.2 = y1) /\
  (exists q, q ∈ coords /\ Z.of_nat q.2 = y1 + bh - 1).
Proof.
  intros Hne. unfold boundingRect.
  assert (Hxs : map fst coords <> []) by (by destruct coords).
  assert (Hys : map snd coords <> []) by (by destruct coords).
  pose proof (max_list_elem _ Hxs) as Hxmax.
  pose proof (max_list_elem _ Hys) as Hymax.
  pose proof (min_list_elem _ _ Hxmax) as Hxmin.
  pose proof (min_list_elem _ _ Hymax) as Hymin.
  pose proof (min_list_le_default (max_list (map fst coords)) (map fst coords)).
  pose proof (min_list_le_default (max_list (map snd coords)) (map snd coords)).
  apply list_elem_of_fmap in Hxmax as (qx2 & Hx2 & ?).
  apply list_elem_of_fmap in Hymax as (qy2 & Hy2 & ?).
  apply list_elem_of_fmap in Hxmin as (qx1 & Hx1 & ?).
  apply list_elem_of_fmap in Hymin as (qy1 & Hy1 & ?).
  split; [exists qx1; split; [done|by rewrite <- Hx1]|].
  split; [exists qx2; split; [done|rewrite <- Hx2; lia]|].
  split; [exists qy1; split; [done|by rewrite <- Hy1]|].
  exists qy2. split; [done|]. rewrite <- Hy2. lia.
Qed.

(** X26. For a mask without negative values that has an object pixel, the
    bbox [analyze_frame] reports is tight, each of its sides passing
    through an object pixel, and the centroid it reports lies between the
    least and the greatest coordinates of the object pixels, rounding
    included: [x1 <= cx <= x2 - 1] and [y1 <= cy <= y2 - 1]. For a mask
    without any object pixel the bbox is the whole mask and the centroid
    its centre. *)
Theorem analyze_frame_centroid_in_bbox {cv : Cv2} (image : option Image)
    (mask : Mask) (prev_centroid : option vec2) (a : analysis) :
  Forall (Forall (fun v => 0 <= v)) (rows mask) ->
  analyze_frame image mask prev_centroid = Ok a ->
  let '(x1, y1, x2, y2) := Analysis.bbox a in
  let c := Analysis.centroid a in
  ((exists x y, object_pixel mask x y) ->
     (exists x y, object_pixel mask x y /\ Z.of_nat x = x1) /\
     (exists x y, object_pixel mask x y /\ Z.of_nat x = x2 - 1) /\
     (exists x y, object_pixel mask x y /\ Z.of_nat y = y1) /\
     (exists x y, object_pixel mask x y /\ Z.of_nat y = y2 - 1) /\
     (inject_Z x1 <= c.1 <= inject_Z (x2 - 1))%Q /\
     (inject_Z y1 <= c.2 <= inject_Z (y2 - 1))%Q) /\
  ((forall x y, ~ object_pixel mask x y) ->
     (x1, y1, x2, y2)
     = (0, 0, Z.of_nat (shape mask).2, Z.of_nat (shape mask).1) /\
     (c.1 == inject_Z (Z.of_nat (shape mask).2) / 2)%Q /\
     (c.2 == inject_Z (Z.of_nat (shape mask).1) / 2)%Q).
Proof.
  intros Hrows Ha.
  rewrite (analyze_frame_bbox _ _ _ _ Ha), (analyze_frame_centroid _ _ _ _ Ha).
  assert (Hps : Forall (fun p : nat * nat * Z => 0 <= p.2) (pixels mask)).
  { unfold pixels.
    apply (concat_imap_Forall _ (Forall (fun v => 0 <= v))); [|done].
    intros y row Hrow. by apply (imap_Forall _ (fun v => 0 <= v)). }
  assert (Hobj : forall q, q ∈ filter (fun p : nat * nat * Z => p.2 <> 0)
                               (pixels mask) ->
                 object_pixel mask q.1.1 q.1.2).
  { intros [[x y] v] [Hv Hq]%list_elem_of_filter. by exists v. }
  unfold findNonZero.
  destruct (filter (fun p => p.2 <> 0) (pixels mask)) as [|p ps] eqn:Hnz.
  - assert (Hall : Forall (fun p : nat * nat * Z => p.2 = 0) (pixels mask)).
    { apply Forall_forall. intros q Hq.
      destruct (decide (q.2 = 0)) as [?|Hne]; [done|].
      assert (Hin : q ∈ filter (fun p : nat * nat * Z => p.2 <> 0)
                      (pixels mask)) by (by apply list_elem_of_filter).
      rewrite Hnz in Hin. by apply elem_of_nil in Hin. }
    assert (Hm00 : m00 (moments mask) = 0).
    { unfold moments. simpl. clear -Hall.
      induction Hall as [|q l Hq Hl IH]; [done|]. simpl. by rewrite Hq, IH. }
    rewrite Hm00. simpl. split.
    + intros (x & y & v & Hin & Hv). exfalso.
      by apply (proj1 (Forall_forall _ _) Hall (x, y, v)) in Hin.
    + intros _. split; [done|]. split; apply py_round_half.
  - assert (Hm00 : 0 < m00 (moments mask)).
    { destruct (Z.lt_ge_cases 0 (m00 (moments mask))) as [?|Hle]; [done|].
      unfold moments in Hle. simpl in Hle.
      by rewrite (sum_Z_nonneg_zero (fun p : nat * nat * Z => p.2) _ Hps Hle)
        in Hnz. }
    rewrite (proj2 (Z.ltb_lt _ _) Hm00).
    assert (Hbox : Forall (fun q : nat * nat * Z => q.2 <> 0 ->
              let '(x1, y1, bw, bh) := boundingRect (map fst (p :: ps)) in
              x1 <= Z.of_nat q.1.1 <= x1 + bw - 1 /\
              y1 <= Z.of_nat q.1.2 <= y1 + bh - 1) (pixels mask)).
    { apply Forall_forall. intros [[x y] v] Hq Hv. simpl in Hv. simpl.
      assert (Hin : (x, y, v) ∈ filter (fun p : nat * nat * Z => p.2 <> 0)
                      (pixels mask)) by (by apply list_elem_of_filter).
      rewrite Hnz in Hin.
      pose proof (boundingRect_covers _ _ _ (elem_of_map fst _ _ Hin)) as Hc.
      simpl in Hc.
      destruct (boundingRect (map fst (p :: ps))) as [[[x1 y1] bw] bh]. lia. }
    assert (Htight := boundingRect_tight (map fst (p :: ps)) ltac:(done)).
    assert (Hcoord : forall q, q ∈ map fst (p :: ps) ->
              object_pixel mask q.1 q.2).
    { intros q (q' & -> & Hq')%list_elem_of_fmap. by apply Hobj. }
    destruct (boundingRect (map fst (p :: ps))) as [[[x1 y1] bw] bh].
    pose proof (weighted_sum_bounds (fun q : nat * nat * Z => Z.of_nat q.1.1)
                  (fun q => q.2) x1 (x1 + bw - 1) (pixels mask) Hps) as Hx.
    pose proof (weighted_sum_bounds (fun q : nat * nat * Z => Z.of_nat q.1.2)
                  (fun q => q.2) y1 (y1 + bh - 1) (pixels mask) Hps) as Hy.
    assert (Hx' := Hx ltac:(eapply Forall_impl; [exact Hbox|]; simpl;
                              intros q Hq Hv; by destruct (Hq Hv))).
    assert (Hy' := Hy ltac:(eapply Forall_impl; [exact Hbox|]; simpl;
                              intros q Hq Hv; by destruct (Hq Hv))).
    simpl in Hx', Hy'.
    destruct (Qdiv_between _ _ _ _ Hm00 Hx') as [Hxl Hxh].
    destruct (Qdiv_between _ _ _ _ Hm00 Hy') as [Hyl Hyh].
    destruct Htight as ((qa & Hqa & Ha1) & (qb & Hqb & Hb1) &
                        (qc & Hqc & Hc1) & (qd & Hqd & Hd1)).
    simpl. split.
    + intros _.
      split; [exists qa.1, qa.2; split; [by apply Hcoord|done]|].
      split; [exists qb.1, qb.2; split; [by apply Hcoord|lia]|].
      split; [exists qc.1, qc.2; split; [by apply Hcoord|done]|].
      split; [exists qd.1, qd.2; split; [by apply Hcoord|lia]|].
      split; by apply py_round_between.
    + intros Hno. exfalso. apply (Hno p.1.1 p.1.2), Hobj. left.
Qed.

(** The corner block: its box is [0, 0, 2, 2] and its centroid (0.5, 0.5),
    between the columns 0 and 1 and the rows 0 and 1. *)
Lemma analyze_frame_centroid_in_bbox_witness :
  (exists x y, object_pixel corner_block x y /\ Z.of_nat x = 0) /\
  (exists x y, object_pixel corner_block x y /\ Z.of_nat x = 2 - 1) /\
  (exists x y, object_pixel corner_block x y /\ Z.of_nat y = 0) /\
  (exists x y, object_pixel corner_block x y /\ Z.of_nat y = 2 - 1) /\
  (inject_Z 0 <= 1 # 2 <= inject_Z (2 - 1))%Q /\
  (inject_Z 0 <= 1 # 2 <= inject_Z (2 - 1))%Q.
Proof.
  pose proof (analyze_frame_centroid_in_bbox (cv := Reference.static_scene)
                (Some (uniform_image 4 4)) corner_block None
                {| Analysis.centroid := (1 # 2, 1 # 2)%Q;
                   Analysis.bbox := (0, 0, 2, 2);
                   Analysis.polygon := [(0, 0)];
                   Analysis.area := 4;
                   Analysis.avg_luma := (7843 # 10000)%Q;
                   Analysis.motion_vector := (0, 0)%Q |}) as Hbox.
  destruct Hbox as [Hobject _].
  - simpl. repeat first [lia | constructor].
  - vm_compute. reflexivity.
  - apply Hobject. exists 0%nat, 0%nat, 1. split; [|done].
    apply list_elem_of_In. vm_compute. tauto.
Defined.

(** ** Smoothing does not overshoot *)

Lemma sum_step_bounds (lo hi count : Z) (v x : Q) :
  (inject_Z lo * inject_Z count <= v)%Q ->
  (v <= inject_Z hi * inject_Z count)%Q ->
  (inject_Z lo <= x)%Q -> (x <= inject_Z hi)%Q ->
  (inject_Z lo * inject_Z (count + 1) <= v + x)%Q /\
  (v + x <= inject_Z hi * inject_Z (count + 1))%Q.
Proof.
  intros Hlo Hhi Hxlo Hxhi.
  rewrite inject_Z_plus, !Qmult_plus_distr_r, !Qmult_1_r.
  split; by apply Qplus_le_compat.
Qed.

Lemma window_acc_within (lox hix loy hiy : Z) (l : list frame_data)
    (js : list nat) (vx vy : Q) (count : Z) :
  Forall (motion_within lox hix loy hiy) l ->
  0 <= count ->
  (inject_Z lox * inject_Z count <= vx <= inject_Z hix * inject_Z count)%Q ->
  (inject_Z loy * inject_Z count <= vy <= inject_Z hiy * inject_Z count)%Q ->
  exists vx' vy' count',
    fold_left (window_acc l) js (vx, vy, count) = (vx', vy', count') /\
    0 <= count' /\
    (inject_Z lox * inject_Z count' <= vx' <= inject_Z hix * inject_Z count')%Q /\
    (inject_Z loy * inject_Z count' <= vy' <= inject_Z hiy * inject_Z count')%Q.
Proof.
  intros Hl. revert vx vy count.
  induction js as [|j js IH]; intros vx vy count Hcount Hvx Hvy.
  - by exists vx, vy, count.
  - cbn [fold_left window_acc]. destruct (l !! j) as [d|] eqn:Hd.
    + destruct (proj1 (Forall_forall _ _) Hl d (list_elem_of_lookup_2 _ _ _ Hd))
        as [[Hdxl Hdxh] [Hdyl Hdyh]].
      destruct Hvx as [Hvxl Hvxh]. destruct Hvy as [Hvyl Hvyh].
      apply IH; [lia|by apply sum_step_bounds..].
    + by apply IH.
Qed.

Lemma smooth_at_within (lox hix loy hiy n half : Z) (l : list frame_data)
    (i : nat) :
  Forall (motion_within lox hix loy hiy) l ->
  Forall (motion_within lox hix loy hiy) (smooth_at n half l i).
Proof.
  intros Hl. unfold smooth_at, window_sums.
  destruct (window_acc_within lox hix loy hiy l
              (py_range (Z.max 0 (Z.of_nat i - half))
                 (Z.min n (Z.of_nat i + half + 1))) 0 0 0 Hl)
    as (vx & vy & count & -> & Hcount & [Hvxl Hvxh] & [Hvyl Hvyh]);
    [lia|by rewrite !Qmult_0_r..|].
  destruct (Z.ltb_spec 0 count) as [Hpos|Hzero]; [|done].
  assert (HcQ : (0 < inject_Z count)%Q).
  { change 0%Q with (inject_Z 0). by rewrite <- Zlt_Qlt. }
  apply Forall_alter; [done|]. intros d _ _. unfold motion_within. simpl.
  split; apply py_round_between.
  all: try (apply Qle_shift_div_l; done).
  all: apply Qle_shift_div_r; done.
Qed.

(** X27. Smoothing never overshoots: when every component of every motion
    vector of a track lies between two integers, so does every component
    of every smoothed vector, for every window, the in-place feedback and
    the rounding to 2 decimals included. *)
Theorem smooth_motion_vectors_within (lox hix loy hiy : Z)
    (frames_data : list frame_data) (window : Z) :
  Forall (motion_within lox hix loy hiy) frames_data ->
  Forall (motion_within lox hix loy hiy)
         (smooth_motion_vectors frames_data window).
Proof.
  intros Hl. unfold smooth_motion_vectors.
  destruct (_ <? window); [done|].
  apply (fold_left_inv _ (Forall (motion_within lox hix loy hiy))); [done|].
  intros l i. apply smooth_at_within.
Qed.

(** The smoothing scenario: the components stay within 0..4 and 0..0. *)
Lemma smooth_motion_vectors_within_witness :
  Forall (motion_within 0 4 0 0) (smooth_motion_vectors scenario_track 3).
Proof.
  apply (smooth_motion_vectors_within 0 4 0 0 scenario_track 3).
  unfold scenario_track, motion_within. simpl.
  repeat first [done | constructor].
Defined.
